(** * narrative-graph: coordination detection and risk scoring

    A shallow embedding of the scoring core of the repository
    ([coordination/detector.py], [risk/components.py], [risk/engine.py],
    with the records of [ingestion/schemas.py] and the defaults of
    [config.py]) and the proofs of its specified properties.

    Conventions of the embedding.
    - A Python [float] is a rational number ([Q]): every arithmetic
      operation is exact.  All divisions of the modelled code are guarded
      against a zero divisor in the source, so the value [Q] gives to a
      division by zero is never used.  The binary floating point of the
      code rounds every operation, so what it computes can differ from
      the exact value in the last bits, and a rounding to 4 decimals can
      then go the other way at a decimal tie: the statements about the
      value of a sum, a mean or a rounded score allow for that
      ([float_slack], [rounded4]), and the others compare or bound
      values without computing them anew.
    - A [datetime] is an integer number of microseconds ([Z]); a
      [timedelta] likewise, and [total_seconds] turns it into a rational.
    - A [dict] whose iteration order the code relies on is an association
      list in insertion order; a [set] is a [gset], and [list(set(...))]
      is [elements], whose order is as unspecified as Python's.
    - The graph store (Neo4j) and the logger are collaborators outside the
      core: their calls are left out. *)

From Stdlib Require Import QArith Qround Qabs Qminmax ZArith Lia Lqa Ascii String.
From stdpp Require Import base option list gmap sets strings pretty sorting.

Local Open Scope Q_scope.

(** ** Python numerics *)

(** [round(x)] to the nearest integer, ties to the even one. *)
Definition round_half_even (x : Q) : Z :=
  let f := Qfloor x in
  match ((x - inject_Z f) ?= (1 # 2))%Q with
  | Lt => f
  | Gt => (f + 1)%Z
  | Eq => if Z.even f then f else (f + 1)%Z
  end.

(** [round(x, 4)]. *)
Definition round4 (x : Q) : Q := inject_Z (round_half_even (x * 10000)) / 10000.

(** [max(x :: l)]: the running maximum is replaced only by a strictly
    greater element. *)
Definition py_max (x : Q) (l : list Q) : Q :=
  foldl (fun m y => if Qle_bool y m then m else y) x l.

(** [sum(l)]. *)
Definition py_sum (l : list Q) : Q := foldl Qplus 0 l.

(** [len(l)] as a float operand. *)
Definition len {A} (l : list A) : Q := inject_Z (Z.of_nat (length l)).

(** Truth value of a number: zero is falsy. *)
Definition truthy_int (n : Z) : bool := negb (n =? 0)%Z.
Definition truthy_float (x : Q) : bool := negb (Qeq_bool x 0).
Definition truthy_str (s : string) : bool := negb (String.eqb s "").

(** [x or d] for an optional integer, float, string list. *)
Definition or_int (x : option Z) (d : Z) : Z :=
  match x with
  | Some v => if truthy_int v then v else d
  | None => d
  end.

Definition or_float (x : option Q) (d : Q) : Q :=
  match x with
  | Some v => if truthy_float v then v else d
  | None => d
  end.

Definition or_list {A} (x : option (list A)) (d : list A) : list A :=
  match x with
  | Some (a :: l) => a :: l
  | _ => d
  end.

(** [timedelta.total_seconds()] of a duration in microseconds. *)
Definition total_seconds (d : Z) : Q := d # 1000000.

(** [timedelta(minutes=m)]. *)
Definition timedelta_minutes (m : Z) : Z := (m * 60 * 1000000)%Z.

(** [f"{x:.2f}"]; a tie is decided on the exact rational, to the even digit. *)
Definition two_digits (n : Z) : string :=
  if (n <? 10)%Z then "0" +:+ pretty n else pretty n.

Definition format_2f (x : Q) : string :=
  let n := round_half_even (Qabs x * 100) in
  (if Qlt_le_dec x 0 then "-" else "") +:+ pretty (n / 100)%Z +:+ "." +:+ two_digits (n mod 100)%Z.

(** [f"{n:04d}"] for a counter. *)
Definition format_04d (n : nat) : string :=
  let s := pretty n in
  String.concat "" (replicate (4 - String.length s) "0") +:+ s.

(** ** Records of [ingestion/schemas.py] *)

Inductive RiskLevel := LOW | MEDIUM | HIGH.

(** The fields of [NormalizedPost] the core reads. *)
Record NormalizedPost := {
  post_id : string;
  timestamp : Z;
  author_id : string;
  text : string;
  urls : list string;
  domains : list string;
  hashtags : list string;
  narrative_id : option string;
}.

(** The fields of [NarrativeMetadata] the core reads. *)
Record NarrativeMetadata := {
  narrative_meta_id : string;
  author_count : Z;
}.

Record CoordinationEvidence := {
  post_ids : list string;
  shared_domains : list string;
  shared_hashtags : list string;
  text_similarity : option Q;
  time_delta_seconds : option Q;
}.

Record CoordinatedPair := {
  author1_id : string;
  author2_id : string;
  score : Q;
  evidence : CoordinationEvidence;
  pair_narrative_id : option string;
}.

Record CoordinatedGroup := {
  group_id : string;
  author_ids : list string;
  group_score : Q;
  evidence_summary : string;
  narrative_ids : list string;
  group_size : Z;
}.

Record RiskComponents := {
  velocity : Q;
  coordination_density : Q;
  bot_score : Q;
  foreign_domain_ratio : Q;
  toxicity : Q;
}.

Record NarrativeRisk := {
  risk_narrative_id : string;
  risk_score : Q;
  risk_level : RiskLevel;
  components : RiskComponents;
  reasons : list string;
}.

(** ** Settings of [config.py] *)

Record CoordinationConfig := {
  time_window_minutes : Z;
  similarity_threshold : Q;
  min_group_size : Z;
  shared_domain_weight : Q;
  shared_hashtag_weight : Q;
  text_similarity_weight : Q;
}.

Record RiskWeightsConfig := {
  weight_velocity : Q;
  weight_coordination_density : Q;
  weight_bot_score : Q;
  weight_foreign_domain_ratio : Q;
  weight_toxicity : Q;
}.

Record RiskThresholdsConfig := {
  threshold_low : Q;
  threshold_medium : Q;
  threshold_high : Q;
}.

Record RiskConfig := {
  weights : RiskWeightsConfig;
  thresholds : RiskThresholdsConfig;
  foreign_tlds : list string;
}.

Record Settings := {
  coordination : CoordinationConfig;
  risk : RiskConfig;
}.

Definition default_settings : Settings := {|
  coordination := {|
    time_window_minutes := 60;
    similarity_threshold := 0.85;
    min_group_size := 3;
    shared_domain_weight := 0.3;
    shared_hashtag_weight := 0.2;
    text_similarity_weight := 0.5 |};
  risk := {|
    weights := {|
      weight_velocity := 0.25;
      weight_coordination_density := 0.30;
      weight_bot_score := 0.20;
      weight_foreign_domain_ratio := 0.15;
      weight_toxicity := 0.10 |};
    thresholds := {|
      threshold_low := 0.3;
      threshold_medium := 0.6;
      threshold_high := 0.8 |};
    foreign_tlds := [".ru"; ".cn"; ".ir"] |}
|}.

(** ** Insertion-ordered dictionaries *)

(** [d[k]] of a [defaultdict]: the first binding of [k], else the default. *)
Fixpoint dict_get {V} (dflt : V) (d : list (string * V)) (k : string) : V :=
  match d with
  | [] => dflt
  | (k', v) :: d' => if decide (k = k') then v else dict_get dflt d' k
  end.

(** [d[k] = f(d[k])] of a [defaultdict]: a new key goes to the end. *)
Fixpoint dict_update {V} (dflt : V) (f : V -> V) (k : string) (d : list (string * V))
  : list (string * V) :=
  match d with
  | [] => [(k, f dflt)]
  | (k', v) :: d' =>
      if decide (k = k') then (k', f v) :: d' else (k', v) :: dict_update dflt f k d'
  end.

(** [d[k].append(x)] of a [defaultdict(list)]. *)
Definition dict_append {A} (k : string) (x : A) (d : list (string * list A))
  : list (string * list A) :=
  dict_update [] (fun l => l ++ [x]) k d.

(** ** [coordination/detector.py] *)

(** [sklearn.metrics.pairwise.cosine_similarity] on two row vectors. *)
Class Sklearn := { cosine_similarity : list Q -> list Q -> Q }.

(** The state of a [CoordinationDetector] ([self.conn] apart). *)
Record CoordinationDetector := {
  time_window : Z;
  self_similarity_threshold : Q;
  self_min_group_size : Z;
  text_weight : Q;
  domain_weight : Q;
  hashtag_weight : Q;
}.

(** [CoordinationDetector.__init__]; [get_settings()] is the argument
    [settings], and an argument left out is [None]. *)
Definition init (settings : Settings)
    (time_window_minutes_arg : option Z)
    (similarity_threshold_arg : option Q)
    (min_group_size_arg : option Z) : CoordinationDetector := {|
  time_window :=
    timedelta_minutes (or_int time_window_minutes_arg (time_window_minutes (coordination settings)));
  self_similarity_threshold :=
    or_float similarity_threshold_arg (similarity_threshold (coordination settings));
  self_min_group_size :=
    or_int min_group_size_arg (min_group_size (coordination settings));
  text_weight := text_similarity_weight (coordination settings);
  domain_weight := shared_domain_weight (coordination settings);
  hashtag_weight := shared_hashtag_weight (coordination settings);
|}.

Definition empty_evidence : CoordinationEvidence := {|
  post_ids := [];
  shared_domains := [];
  shared_hashtags := [];
  text_similarity := None;
  time_delta_seconds := None;
|}.

(** [set(a) & set(b)] and [len(shared) / max(len(set(a) | set(b)), 1)]. *)
Definition shared (a b : list string) : gset string :=
  list_to_set a ∩ list_to_set b.

Definition overlap (a b : list string) : Q :=
  inject_Z (Z.of_nat (size (shared a b)))
  / inject_Z (Z.of_nat (Nat.max (size (list_to_set a ∪ list_to_set b : gset string)) 1)).

Definition list_set (l : list string) : list string :=
  elements (list_to_set l : gset string).

Section detector.
Context `{Sklearn}.
Variable self : CoordinationDetector.
(** The embedding matrix, its rows given by their index; [None] when no
    embeddings are passed. *)
Variable embeddings : option (nat -> list Q).

Definition time_diff (post1 post2 : NormalizedPost) : Q :=
  Qabs (total_seconds (timestamp post1 - timestamp post2)).

Definition in_window (post1 post2 : NormalizedPost) : bool :=
  Qle_bool (time_diff post1 post2) (total_seconds (time_window self)).

Definition text_sim (idx1 idx2 : nat) : Q :=
  match embeddings with
  | Some emb => cosine_similarity (emb idx1) (emb idx2)
  | None => 0
  end.

Definition pair_score (p1 p2 : NormalizedPost * nat) : Q :=
  text_weight self * text_sim (snd p1) (snd p2)
  + domain_weight self * overlap (domains (fst p1)) (domains (fst p2))
  + hashtag_weight self * overlap (hashtags (fst p1)) (hashtags (fst p2)).

(** The body of the inner loop of [_calculate_pair_score]: the state is
    the evidence record and the list [scores]. *)
Definition pair_step (p1 : NormalizedPost * nat)
    (st : CoordinationEvidence * list Q) (p2 : NormalizedPost * nat)
  : CoordinationEvidence * list Q :=
  let '(ev, scores) := st in
  if in_window (fst p1) (fst p2) then
    ({| post_ids := post_ids ev ++ [post_id (fst p1); post_id (fst p2)];
        shared_domains :=
          shared_domains ev ++ elements (shared (domains (fst p1)) (domains (fst p2)));
        shared_hashtags :=
          shared_hashtags ev ++ elements (shared (hashtags (fst p1)) (hashtags (fst p2)));
        text_similarity := text_similarity ev;
        time_delta_seconds := Some (time_diff (fst p1) (fst p2)) |},
     scores ++ [pair_score p1 p2])
  else st.

Definition pair_loop (posts1 posts2 : list (NormalizedPost * nat))
  : CoordinationEvidence * list Q :=
  foldl (fun st p1 => foldl (pair_step p1) st posts2) (empty_evidence, []) posts1.

Definition _calculate_pair_score (posts1 posts2 : list (NormalizedPost * nat))
  : Q * CoordinationEvidence :=
  let '(ev, scores) := pair_loop posts1 posts2 in
  match scores with
  | [] => (0, ev)
  | s :: rest =>
      (py_max s rest,
       {| post_ids := list_set (post_ids ev);
          shared_domains := list_set (shared_domains ev);
          shared_hashtags := list_set (shared_hashtags ev);
          text_similarity := Some (py_max s rest);
          time_delta_seconds := time_delta_seconds ev |})
  end.

(** The inner loop of [_detect_pairs_in_narrative] for one [author1]. *)
Definition pairs_of_author (author_posts : list (string * list (NormalizedPost * nat)))
    (nid : string) (author1 : string) (rest : list string) : list CoordinatedPair :=
  flat_map (fun author2 =>
    let '(sc, ev) := _calculate_pair_score (dict_get [] author_posts author1)
                                           (dict_get [] author_posts author2) in
    if Qle_bool (self_similarity_threshold self) sc then
      [ {| author1_id := author1; author2_id := author2; score := sc;
           evidence := ev; pair_narrative_id := Some nid |} ]
    else []) rest.

(** [for i, author1 in enumerate(author_ids): for author2 in author_ids[i+1:]]. *)
Fixpoint pairs_loop (author_posts : list (string * list (NormalizedPost * nat)))
    (nid : string) (author_ids : list string) : list CoordinatedPair :=
  match author_ids with
  | [] => []
  | author1 :: rest =>
      pairs_of_author author_posts nid author1 rest ++ pairs_loop author_posts nid rest
  end.

Definition group_by_author (post_data : list (NormalizedPost * nat))
  : list (string * list (NormalizedPost * nat)) :=
  foldl (fun d pi => dict_append (author_id (fst pi)) pi d) [] post_data.

Definition _detect_pairs_in_narrative (post_data : list (NormalizedPost * nat))
    (nid : string) : list CoordinatedPair :=
  let author_posts := group_by_author post_data in
  pairs_loop author_posts nid (map fst author_posts).

(** *** [_build_groups] *)

(** [graph[a].add(b)] on a [defaultdict(set)]. *)
Definition graph_add (a b : string) (graph : list (string * gset string))
  : list (string * gset string) :=
  dict_update ∅ (fun s => s ∪ {[b]}) a graph.

(** [tuple(sorted([a1, a2]))]. *)
Definition sorted_key (a1 a2 : string) : string * string :=
  if String.ltb a2 a1 then (a2, a1) else (a1, a2).

(** The loop that fills [graph] and [pair_scores]. *)
Definition add_pair
    (st : list (string * gset string) * gmap (string * string) CoordinatedPair)
    (pair : CoordinatedPair)
  : list (string * gset string) * gmap (string * string) CoordinatedPair :=
  (graph_add (author2_id pair) (author1_id pair)
     (graph_add (author1_id pair) (author2_id pair) (fst st)),
   <[sorted_key (author1_id pair) (author2_id pair) := pair]> (snd st)).

Definition adjacency (pairs : list CoordinatedPair)
  : list (string * gset string) * gmap (string * string) CoordinatedPair :=
  foldl add_pair ([], ∅) pairs.

(** The [while queue] loop.  Each turn of the loop uses one unit of
    [fuel]; [None] means the fuel ran out before the queue was empty. *)
Fixpoint bfs (fuel : nat) (graph : list (string * gset string))
    (visited : gset string) (component queue : list string)
  : option (gset string * list string) :=
  match queue with
  | [] => Some (visited, component)
  | author :: queue' =>
      match fuel with
      | O => None
      | S fuel' =>
          if decide (author ∈ visited) then bfs fuel' graph visited component queue'
          else
            let visited' := visited ∪ {[author]} in
            bfs fuel' graph visited' (component ++ [author])
              (queue' ++ filter (fun neighbor => neighbor ∉ visited')
                           (elements (dict_get ∅ graph author)))
      end
  end.

(** What is left for the traversal to do besides its queue: for every
    author not yet visited one turn, and one for each neighbour. *)
Fixpoint unvisited_weight (graph : list (string * gset string)) (visited : gset string) : nat :=
  match graph with
  | [] => O
  | (k, ns) :: graph' =>
      ((if decide (k ∈ visited) then O else S (size ns)) + unvisited_weight graph' visited)%nat
  end.

(** Turns of the [while] loop that a graph can need at most. *)
Definition bfs_fuel (graph : list (string * gset string)) : nat :=
  S (unvisited_weight graph ∅).

(** The body of the two loops over [component] that collect
    [group_scores] and [narrative_ids]. *)
Definition score_step (pair_scores : gmap (string * string) CoordinatedPair)
    (a1 : string) (st : list Q * gset string) (a2 : string) : list Q * gset string :=
  match pair_scores !! sorted_key a1 a2 with
  | Some found =>
      (fst st ++ [score found],
       match pair_narrative_id found with
       | Some nid => if truthy_str nid then snd st ∪ {[nid]} else snd st
       | None => snd st
       end)
  | None => st
  end.

Fixpoint score_loop (pair_scores : gmap (string * string) CoordinatedPair)
    (component : list string) (st : list Q * gset string) : list Q * gset string :=
  match component with
  | [] => st
  | a1 :: rest => score_loop pair_scores rest (foldl (score_step pair_scores a1) st rest)
  end.

Definition make_group (pair_scores : gmap (string * string) CoordinatedPair)
    (counter : nat) (component : list string) : CoordinatedGroup :=
  let '(group_scores, nids) := score_loop pair_scores component ([], ∅) in
  let avg_score :=
    match group_scores with
    | [] => 0
    | _ => py_sum group_scores / len group_scores
    end in
  {| group_id := "coord_group_" +:+ format_04d counter;
     author_ids := component;
     group_score := avg_score;
     evidence_summary :=
       "Group of " +:+ pretty (length component)
       +:+ " authors with avg coordination score " +:+ format_2f avg_score;
     narrative_ids := elements nids;
     group_size := Z.of_nat (length component) |}.

(** The body of [for start_author in graph]; the state is [visited],
    [groups] and the counter [group_id]. *)
Definition component_step (graph : list (string * gset string))
    (pair_scores : gmap (string * string) CoordinatedPair)
    (st : option (gset string * list CoordinatedGroup * nat)) (start_author : string)
  : option (gset string * list CoordinatedGroup * nat) :=
  match st with
  | None => None
  | Some (visited, groups, counter) =>
      if decide (start_author ∈ visited) then Some (visited, groups, counter)
      else
        match bfs (bfs_fuel graph) graph visited [] [start_author] with
        | None => None
        | Some (visited', component) =>
            if (self_min_group_size self <=? Z.of_nat (length component))%Z then
              Some (visited', groups ++ [make_group pair_scores counter component], S counter)
            else Some (visited', groups, counter)
        end
  end.

(** [groups.sort(key=lambda g: g.score, reverse=True)]: stable, so groups
    of equal score keep their order. *)
Fixpoint insert_group (g : CoordinatedGroup) (l : list CoordinatedGroup)
  : list CoordinatedGroup :=
  match l with
  | [] => [g]
  | h :: t =>
      if Qle_bool (group_score h) (group_score g) then g :: h :: t
      else h :: insert_group g t
  end.

Definition sort_groups (l : list CoordinatedGroup) : list CoordinatedGroup :=
  foldr insert_group [] l.

Definition _build_groups (pairs : list CoordinatedPair) : option (list CoordinatedGroup) :=
  match pairs with
  | [] => Some []
  | _ =>
      let '(graph, pair_scores) := adjacency pairs in
      match foldl (component_step graph pair_scores) (Some (∅, [], O)) (map fst graph) with
      | None => None
      | Some (_, groups, _) => Some (sort_groups groups)
      end
  end.

(** *** [detect_from_posts] *)

Definition in_narrative (post : NormalizedPost) : option string :=
  match narrative_id post with
  | Some nid => if truthy_str nid && negb (String.eqb nid "noise") then Some nid else None
  | None => None
  end.

Definition group_by_narrative (posts : list NormalizedPost)
  : list (string * list (NormalizedPost * nat)) :=
  foldl (fun d ip =>
           match in_narrative (snd ip) with
           | Some nid => dict_append nid (snd ip, fst ip) d
           | None => d
           end) [] (imap pair posts).

Definition detect_all_pairs (posts : list NormalizedPost) : list CoordinatedPair :=
  flat_map (fun entry =>
              if (length (snd entry) <? 2)%nat then []
              else _detect_pairs_in_narrative (snd entry) (fst entry))
           (group_by_narrative posts).

Definition detect_from_posts (posts : list NormalizedPost)
  : option (list CoordinatedPair * list CoordinatedGroup) :=
  let all_pairs := detect_all_pairs posts in
  match _build_groups all_pairs with
  | None => None
  | Some groups => Some (all_pairs, groups)
  end.

End detector.

(** ** [risk/components.py] *)

Definition Qlt_bool (x y : Q) : bool := negb (Qle_bool y x).

(** [sorted(ts)] on timestamps. *)
Definition sorted (ts : list Z) : list Z := merge_sort Z.le ts.

(** [timestamps[-1] - timestamps[0]] in seconds. *)
Definition time_span (timestamps : list Z) : Q :=
  total_seconds (List.last timestamps 0%Z - hd 0%Z timestamps).

(** The loop over [enumerate(timestamps)] that counts the bursts:
    [timestamps[i:]] is the list from the current element on. *)
Fixpoint burst_count (window : Z) (timestamps : list Z) : nat :=
  match timestamps with
  | [] => O
  | ts :: rest =>
      let window_posts :=
        length (filter (fun other_ts => (other_ts - ts <= window)%Z) (ts :: rest)) in
      ((if (5 <=? window_posts)%nat then 1 else 0) + burst_count window rest)%nat
  end.

(** [burst_count / len(timestamps) if timestamps else 0]. *)
Definition burst_ratio (window : Z) (timestamps : list Z) : Q :=
  match timestamps with
  | [] => 0
  | _ => inject_Z (Z.of_nat (burst_count window timestamps)) / len timestamps
  end.

(** [calculate_velocity_score]; the argument [narrative] is not read. *)
Definition calculate_velocity_score (posts : list NormalizedPost) : Q :=
  if (length posts <? 2)%nat then 0
  else
    let timestamps := sorted (map timestamp posts) in
    if Qle_bool (time_span timestamps) 0 then 1
    else
      let hours := time_span timestamps / 3600 in
      let posts_per_hour := len posts / hours in
      let score0 := Qmin (posts_per_hour / 10) 1 in
      let window := timedelta_minutes 15 in
      round4 (Qmin (score0 + burst_ratio window timestamps * 0.2) 1).

(** The loop of [calculate_coordination_score] over the relevant groups. *)
Definition coordination_step (st : gset string * Q) (group : CoordinatedGroup)
  : gset string * Q :=
  (fst st ∪ list_to_set (author_ids group),
   snd st + group_score group * inject_Z (group_size group)).

Definition calculate_coordination_score (nid : string)
    (groups : list CoordinatedGroup) (total_authors : Z) : Q :=
  if (total_authors <=? 1)%Z then 0
  else
    match filter (fun g => nid ∈ narrative_ids g) groups with
    | [] => 0
    | relevant_groups =>
        let '(coordinated_authors, total_group_score) :=
          foldl coordination_step (∅, 0) relevant_groups in
        let n := inject_Z (Z.of_nat (size coordinated_authors)) in
        let coordination_ratio := n / inject_Z total_authors in
        let avg_group_score :=
          if (size coordinated_authors =? 0)%nat then 0 else total_group_score / n in
        round4 (Qmin (coordination_ratio * 0.6 + avg_group_score * 0.4) 1)
    end.

(** [domain.endswith(tld)]. *)
Definition endswith (s suffix : string) : bool :=
  (String.length suffix <=? String.length s)%nat
  && String.eqb
       (String.substring (String.length s - String.length suffix) (String.length suffix) s)
       suffix.

Definition foreign_step (tlds : list string) (st : gset string * gset string)
    (domain : string) : gset string * gset string :=
  (fst st ∪ {[domain]},
   if existsb (endswith domain) tlds then snd st ∪ {[domain]} else snd st).

Definition calculate_foreign_domain_score (settings : Settings)
    (posts : list NormalizedPost) (foreign_tlds_arg : option (list string)) : Q :=
  let tlds := or_list foreign_tlds_arg (foreign_tlds (risk settings)) in
  match posts with
  | [] => 0
  | _ =>
      let '(all_domains, foreign_domains) :=
        foldl (fun st post => foldl (foreign_step tlds) st (domains post)) (∅, ∅) posts in
      if (size all_domains =? 0)%nat then 0
      else round4 (inject_Z (Z.of_nat (size foreign_domains))
                   / inject_Z (Z.of_nat (size all_domains)))
  end.

(** [(timestamps[i + 1] - timestamps[i]).total_seconds()] for every [i]. *)
Definition intervals (timestamps : list Z) : list Q :=
  zip_with (fun a b => total_seconds (b - a)) timestamps (tail timestamps).

(** The indicators of one author with at least two posts. *)
Definition author_indicators (author_posts_list : list NormalizedPost) : Q :=
  let timestamps := sorted (map timestamp author_posts_list) in
  let frequency :=
    if Qlt_bool 0 (time_span timestamps) then
      if Qlt_bool 20 (len author_posts_list / (time_span timestamps / 3600)) then 0.3 else 0
    else 0 in
  let texts := map text author_posts_list in
  let repetition :=
    if (3 <=? length texts)%nat then
      if Qlt_bool (inject_Z (Z.of_nat (size (list_to_set texts : gset string))) / len texts) 0.5
      then 0.3 else 0
    else 0 in
  let regularity :=
    if (3 <=? length timestamps)%nat then
      match intervals timestamps with
      | [] => 0
      | ints =>
          let avg_interval := py_sum ints / len ints in
          let variance :=
            py_sum (map (fun i => (i - avg_interval) * (i - avg_interval)) ints) / len ints in
          if Qlt_bool 0 avg_interval && Qlt_bool (variance / avg_interval) 0.1 then 0.2 else 0
      end
    else 0 in
  let url_ratio :=
    len (filter (fun p => urls p ≠ []) author_posts_list) / len author_posts_list in
  let links := if Qlt_bool 0.8 url_ratio then 0.2 else 0 in
  Qmin (0 + frequency + repetition + regularity + links) 1.

Definition calculate_bot_score (posts : list NormalizedPost) : Q :=
  match posts with
  | [] => 0
  | _ =>
      let author_posts := foldl (fun d p => dict_append (author_id p) p d) [] posts in
      let bot_indicators :=
        flat_map (fun entry =>
                    if (length (snd entry) <? 2)%nat then []
                    else [author_indicators (snd entry)]) author_posts in
      match bot_indicators with
      | [] => 0
      | _ => round4 (py_sum bot_indicators / len bot_indicators)
      end
  end.

(** Strings of [calculate_toxicity_score].  The functions below are
    Python's [str.split], [str.lower] and [str.isalnum] on ASCII
    characters; Python's own also know the white space, the letters and
    the digits outside ASCII, which are not modelled: what is stated
    about the words of a text is stated for ASCII texts. *)
Definition is_space (c : ascii) : bool :=
  let n := nat_of_ascii c in
  ((n =? 32) || ((9 <=? n) && (n <=? 13)) || ((28 <=? n) && (n <=? 31)))%nat.

Definition is_alnum (c : ascii) : bool :=
  let n := nat_of_ascii c in
  (((48 <=? n) && (n <=? 57)) || ((65 <=? n) && (n <=? 90)) || ((97 <=? n) && (n <=? 122)))%nat.

Definition lower_char (c : ascii) : ascii :=
  let n := nat_of_ascii c in
  if ((65 <=? n) && (n <=? 90))%nat then ascii_of_nat (n + 32) else c.

Fixpoint lower (s : string) : string :=
  match s with
  | EmptyString => EmptyString
  | String c s' => String (lower_char c) (lower s')
  end.

(** [s.split()]: [word] holds the characters of the current word, last first. *)
Fixpoint split_from (word : list ascii) (s : string) : list string :=
  let flush := match word with [] => [] | _ => [string_of_list_ascii (rev word)] end in
  match s with
  | EmptyString => flush
  | String c s' => if is_space c then flush ++ split_from [] s' else split_from (c :: word) s'
  end.

Definition split (s : string) : list string := split_from [] s.

(** ["".join(c for c in word if c.isalnum())]. *)
Fixpoint clean (word : string) : string :=
  match word with
  | EmptyString => EmptyString
  | String c w => if is_alnum c then String c (clean w) else clean w
  end.

Definition toxic_keywords : list string :=
  ["hate"; "kill"; "die"; "attack"; "destroy"; "enemy"; "threat";
   "dangerous"; "evil"; "corrupt"; "conspiracy"; "hoax"; "fake";
   "propaganda"; "lies"; "traitor"; "invasion"; "war"].

Definition toxicity_step (st : nat * nat) (post : NormalizedPost) : nat * nat :=
  let words := split (lower (text post)) in
  ((fst st + length (filter (fun word => clean word ∈ toxic_keywords) words))%nat,
   (snd st + length words)%nat).

Definition calculate_toxicity_score (posts : list NormalizedPost) : Q :=
  match posts with
  | [] => 0
  | _ =>
      let '(toxic_count, total_words) := foldl toxicity_step (O, O) posts in
      if (total_words =? 0)%nat then 0
      else
        let ratio := inject_Z (Z.of_nat toxic_count) / inject_Z (Z.of_nat total_words) in
        round4 (Qmin (ratio / 0.05) 1)
  end.

(** ** [risk/engine.py] *)

Definition reason (label : string) (weight value : Q) : list string :=
  if Qle_bool 0.3 value then
    [label +:+ " (" +:+ format_2f value +:+ ") - contributes "
       +:+ format_2f (weight * value) +:+ " to risk"]
  else [].

Definition _generate_reasons (c : RiskComponents) (w : RiskWeightsConfig) : list string :=
  match
    reason "High posting velocity" (weight_velocity w) (velocity c)
    ++ reason "Coordinated behavior detected"
         (weight_coordination_density w) (coordination_density c)
    ++ reason "Bot-like activity patterns" (weight_bot_score w) (bot_score c)
    ++ reason "High foreign domain ratio"
         (weight_foreign_domain_ratio w) (foreign_domain_ratio c)
    ++ reason "Toxic content indicators" (weight_toxicity w) (toxicity c)
  with
  | [] => ["No significant risk factors identified"]
  | reasons => reasons
  end.

Definition risk_components (settings : Settings) (narrative : NarrativeMetadata)
    (posts : list NormalizedPost) (groups : list CoordinatedGroup) : RiskComponents := {|
  velocity := calculate_velocity_score posts;
  coordination_density :=
    calculate_coordination_score (narrative_meta_id narrative) groups (author_count narrative);
  bot_score := calculate_bot_score posts;
  foreign_domain_ratio := calculate_foreign_domain_score settings posts None;
  toxicity := calculate_toxicity_score posts;
|}.

(** The weighted score before it is rounded (the local [risk_score]). *)
Definition weighted_score (w : RiskWeightsConfig) (c : RiskComponents) : Q :=
  weight_velocity w * velocity c
  + weight_coordination_density w * coordination_density c
  + weight_bot_score w * bot_score c
  + weight_foreign_domain_ratio w * foreign_domain_ratio c
  + weight_toxicity w * toxicity c.

Definition _calculate_narrative_risk (settings : Settings) (narrative : NarrativeMetadata)
    (posts : list NormalizedPost) (groups : list CoordinatedGroup) : NarrativeRisk :=
  let w := weights (risk settings) in
  let t := thresholds (risk settings) in
  let c := risk_components settings narrative posts groups in
  let raw := weighted_score w c in
  let level :=
    if Qle_bool (threshold_high t) raw then HIGH
    else if Qle_bool (threshold_medium t) raw then MEDIUM
    else LOW in
  {| risk_narrative_id := narrative_meta_id narrative;
     risk_score := round4 raw;
     risk_level := level;
     components := c;
     reasons := _generate_reasons c w |}.

(** [risks.sort(key=lambda r: r.risk_score, reverse=True)], stable. *)
Fixpoint insert_risk (r : NarrativeRisk) (l : list NarrativeRisk) : list NarrativeRisk :=
  match l with
  | [] => [r]
  | h :: t =>
      if Qle_bool (risk_score h) (risk_score r) then r :: h :: t else h :: insert_risk r t
  end.

Definition calculate_risk (settings : Settings) (posts : list NormalizedPost)
    (narratives : list NarrativeMetadata) (groups : list CoordinatedGroup)
  : list NarrativeRisk :=
  let narrative_posts :=
    foldl (fun d post =>
             match in_narrative post with
             | Some nid => dict_append nid post d
             | None => d
             end) [] posts in
  foldr insert_risk []
    (flat_map (fun narrative =>
                 match dict_get [] narrative_posts (narrative_meta_id narrative) with
                 | [] => []
                 | posts_in_narrative =>
                     [_calculate_narrative_risk settings narrative posts_in_narrative groups]
                 end) narratives).

(** ** Notions the specification speaks of *)

(** Two posts are within the time window: the absolute difference of
    their timestamps is at most the window. *)
Definition within_window (self : CoordinationDetector) (post1 post2 : NormalizedPost) : Prop :=
  (Z.abs (timestamp post1 - timestamp post2) <= time_window self)%Z.

#[global] Instance within_window_dec self post1 post2 : Decision (within_window self post1 post2).
Proof. unfold within_window. apply _. Defined.

(** The cross-author post pairs within the time window, in the order the
    two loops meet them. *)
Definition qualifying (self : CoordinationDetector)
    (posts1 posts2 : list (NormalizedPost * nat))
  : list ((NormalizedPost * nat) * (NormalizedPost * nat)) :=
  filter (fun pq => within_window self (fst (fst pq)) (fst (snd pq)))
         (list_prod posts1 posts2).

(** The arithmetic mean of a list of scores. *)
Definition average (l : list Q) : Q := py_sum l / len l.

(** The posts of one author among the posts of a narrative, in their order. *)
Definition posts_of_author (author : string) (post_data : list (NormalizedPost * nat))
  : list (NormalizedPost * nat) :=
  filter (fun pi => author_id (fst pi) = author) post_data.

(** The record the detector makes of two authors of a narrative: the
    score and the evidence of their posts. *)
Definition pair_record `{Sklearn} (self : CoordinationDetector)
    (embeddings : option (nat -> list Q)) (post_data : list (NormalizedPost * nat))
    (nid author1 author2 : string) : CoordinatedPair :=
  let result := _calculate_pair_score self embeddings
                  (posts_of_author author1 post_data) (posts_of_author author2 post_data) in
  {| author1_id := author1; author2_id := author2; score := fst result;
     evidence := snd result; pair_narrative_id := Some nid |}.

(** The components the traversal of [_build_groups] finds, in the order
    it finds them, whatever their size: the state is [visited] and the
    components found so far. *)
Definition component_scan (graph : list (string * gset string))
    (st : option (gset string * list (list string))) (start_author : string)
  : option (gset string * list (list string)) :=
  match st with
  | None => None
  | Some (visited, found) =>
      if decide (start_author ∈ visited) then Some (visited, found)
      else
        match bfs (bfs_fuel graph) graph visited [] [start_author] with
        | None => None
        | Some (visited', component) => Some (visited', found ++ [component])
        end
  end.

Definition found_components (pairs : list CoordinatedPair) : option (list (list string)) :=
  let graph := fst (adjacency pairs) in
  match foldl (component_scan graph) (Some (∅, [])) (map fst graph) with
  | None => None
  | Some (_, found) => Some found
  end.


(** Two authors are linked when a pair record names them both, in either
    order; they are connected when a chain of links leads from one to the
    other. *)
Definition linked (pairs : list CoordinatedPair) (a b : string) : Prop :=
  exists p, p ∈ pairs
    /\ ((author1_id p = a /\ author2_id p = b) \/ (author1_id p = b /\ author2_id p = a)).

Definition connected (pairs : list CoordinatedPair) : relation string := rtc (linked pairs).

(** A connected component of the graph of the pairs, listed in some
    order: authors of pairs, each listed once, and with each of them all
    the authors connected to it and no other. *)
Definition is_component (pairs : list CoordinatedPair) (component : list string) : Prop :=
  component <> [] /\ NoDup component
  /\ forall a, a ∈ component ->
       (exists b, linked pairs a b) /\ forall b, b ∈ component <-> connected pairs a b.

(** What holds at every turn of the traversal that starts at [start]
    when the authors of [old] were visited before: the authors visited
    since are those of [component], each once; they and the queued ones
    are connected to [start]; and a neighbour of an author of
    [component] was visited or is queued. *)
Definition bfs_invariant (pairs : list CoordinatedPair) (old : gset string) (start : string)
    (visited : gset string) (component queue : list string) : Prop :=
  visited = old ∪ list_to_set component
  /\ NoDup component
  /\ (forall a, a ∈ component -> a ∉ old)
  /\ (forall a, a ∈ component \/ a ∈ queue -> connected pairs start a)
  /\ (forall a b, a ∈ component -> linked pairs a b -> b ∈ visited \/ b ∈ queue)
  /\ (start ∈ component \/ start ∈ queue).

(** What holds between two traversals: the visited authors are those of
    the components found, no link leaves them, and each component found
    lists once the authors connected to one of its authors. *)
Definition scan_invariant (pairs : list CoordinatedPair)
    (visited : gset string) (found : list (list string)) : Prop :=
  (forall a, a ∈ visited <-> exists c, c ∈ found /\ a ∈ c)
  /\ (forall a b, a ∈ visited -> linked pairs a b -> b ∈ visited)
  /\ (forall c, c ∈ found ->
        exists s, (exists b, linked pairs s b) /\ NoDup c
                  /\ forall b, b ∈ c <-> connected pairs s b).

(** A component is large enough to be reported. *)
Definition large_enough (self : CoordinationDetector) (component : list string) : Prop :=
  (self_min_group_size self <= Z.of_nat (length component))%Z.

#[global] Instance large_enough_dec self component : Decision (large_enough self component).
Proof. unfold large_enough. apply _. Defined.

(** The narrative IDs of all pair records whose two authors both lie in a
    component. *)
Definition narratives_of_component (pairs : list CoordinatedPair) (component : list string)
  : gset string :=
  list_to_set
    (omap pair_narrative_id
       (filter (fun p => author1_id p ∈ component /\ author2_id p ∈ component) pairs)).

(** The risk level of a score under the thresholds. *)
Definition level_of (t : RiskThresholdsConfig) (x : Q) : RiskLevel :=
  if Qle_bool (threshold_high t) x then HIGH
  else if Qle_bool (threshold_medium t) x then MEDIUM
  else LOW.

(** The latest and the earliest of a list of timestamps. *)
Definition latest (ts : list Z) : Z :=
  match ts with
  | [] => 0%Z
  | t :: rest => foldr Z.max t rest
  end.

Definition earliest (ts : list Z) : Z :=
  match ts with
  | [] => 0%Z
  | t :: rest => foldr Z.min t rest
  end.

(** The positions [i] of a list of timestamps such that at least five of
    the timestamps at the positions from [i] on are at most [window]
    later than the one at [i]. *)
Definition bursts_by_position (window : Z) (l : list Z) : nat :=
  length (filter (fun i => (5 <= length (filter (fun other => (other - l !!! i <= window)%Z)
                                            (drop i l)))%nat)
                 (seq 0 (length l))).

(** The timestamps [t] of a list such that at least five timestamps of
    the list lie in the window from [t] to [t + window]. *)
Definition bursts_by_time (window : Z) (ts : list Z) : nat :=
  length (filter (fun t => (5 <= length (filter (fun other => (t <= other /\ other - t <= window)%Z)
                                            ts))%nat)
                 ts).

(** The velocity score in the words of the specification: the burst
    ratio is the fraction of posts with at least 5 posts, themselves
    included, in the 15 minutes from their timestamp on. *)
Definition claimed_velocity_score (posts : list NormalizedPost) : Q :=
  let ts := map timestamp posts in
  if (length posts <? 2)%nat then 0
  else if (latest ts - earliest ts =? 0)%Z then 1
  else
    let posts_per_hour := len posts / (total_seconds (latest ts - earliest ts) / 3600) in
    let claimed_ratio :=
      inject_Z (Z.of_nat (bursts_by_time (timedelta_minutes 15) ts)) / len posts in
    round4 (Qmin (Qmin (posts_per_hour / 10) 1 + claimed_ratio * 0.2) 1).

(** A group whose score and size are not negative. *)
Definition sound_group (g : CoordinatedGroup) : Prop :=
  0 <= group_score g /\ (0 <= group_size g)%Z.

(** What the floating point of the code can be off by, with a wide
    margin: its operations are correct to 16 digits, and the scores are
    of the order of 1. *)
Definition float_slack : Q := 1 # 1000000000.

(** A number of 4 decimals. *)
Definition decimal4 (y : Q) : Prop := exists n : Z, y == inject_Z n / 10000.

(** [y] is [x] rounded to 4 decimals: a number of 4 decimals within half
    a unit of the last one of [x], whichever way a tie goes, [x] being
    taken up to [float_slack]. *)
Definition rounded4 (x y : Q) : Prop :=
  decimal4 y /\ Qabs (y - x) <= 1 / 20000 + float_slack.

(** A text of ASCII characters only. *)
Definition ascii_text (s : string) : Prop :=
  Forall (fun c => (nat_of_ascii c < 128)%nat) (list_ascii_of_string s).

(** ** Concrete inputs *)

(** A similarity that rates every two vectors alike. *)
Definition constant_similarity : Sklearn := {| cosine_similarity := fun _ _ => 1 |}.

(** The detector built from the default settings. *)
Definition default_detector : CoordinationDetector := init default_settings None None None.

Definition seconds (n : Z) : Z := (n * 1000000)%Z.

Definition post (name author : string) (at_second : Z) (content : string)
    (links sites tags : list string) : NormalizedPost := {|
  post_id := name;
  timestamp := seconds at_second;
  author_id := author;
  text := content;
  urls := links;
  domains := sites;
  hashtags := tags;
  narrative_id := Some "n1";
|}.

(** Two posts of "alice" and two of "bob" within five minutes: the pair
    (a1, b1) shares its domain and its hashtag, the others only a hashtag. *)
Definition alice_posts : list (NormalizedPost * nat) :=
  [(post "a1" "alice" 0 "launch day" [] ["x.org"] ["go"], 0%nat);
   (post "a2" "alice" 120 "launch day two" [] [] ["go"], 1%nat)].

Definition bob_posts : list (NormalizedPost * nat) :=
  [(post "b1" "bob" 60 "launch day" [] ["x.org"] ["go"], 2%nat);
   (post "b2" "bob" 300 "what a day" [] [] ["go"], 3%nat)].

(** Posts alike in text, domain and hashtag, within a minute: "alice" and
    "bob" post in the narratives "n1" and "n2", "carol" in "n2" only. *)
Definition narrative_post (name author nid : string) (at_second : Z) : NormalizedPost := {|
  post_id := name;
  timestamp := seconds at_second;
  author_id := author;
  text := "same words";
  urls := [];
  domains := ["x.org"];
  hashtags := ["go"];
  narrative_id := Some nid;
|}.

Definition two_narratives : list NormalizedPost :=
  [narrative_post "p1" "alice" "n1" 0; narrative_post "p2" "bob" "n1" 10;
   narrative_post "p3" "alice" "n2" 20; narrative_post "p4" "bob" "n2" 30;
   narrative_post "p5" "carol" "n2" 40].

(** Embeddings for any number of posts. *)
Definition some_embeddings : option (nat -> list Q) := Some (fun _ => [1]).

(** A narrative of three authors who post at the same second a toxic word
    and a foreign domain, with one group of the three, of score 0.99975. *)
Definition risky_narrative : NarrativeMetadata :=
  {| narrative_meta_id := "n1"; author_count := 3 |}.

Definition risky_post (name author : string) : NormalizedPost := {|
  post_id := name;
  timestamp := seconds 0;
  author_id := author;
  text := "hate";
  urls := [];
  domains := ["x.ru"];
  hashtags := [];
  narrative_id := Some "n1";
|}.

Definition risky_posts : list NormalizedPost :=
  [risky_post "p1" "alice"; risky_post "p2" "bob"; risky_post "p3" "carol"].

Definition risky_groups : list CoordinatedGroup :=
  [{| group_id := "coord_group_0000";
      author_ids := ["alice"; "bob"; "carol"];
      group_score := 0.99975;
      evidence_summary := "Group of 3 authors with avg coordination score 1.00";
      narrative_ids := ["n1"];
      group_size := 3 |}].

(** The same posts in a narrative of nine authors, the group of score 0.333. *)
Definition wide_narrative : NarrativeMetadata :=
  {| narrative_meta_id := "n1"; author_count := 9 |}.

Definition loose_groups : list CoordinatedGroup :=
  [{| group_id := "coord_group_0000";
      author_ids := ["alice"; "bob"; "carol"];
      group_score := 0.333;
      evidence_summary := "Group of 3 authors with avg coordination score 0.33";
      narrative_ids := ["n1"];
      group_size := 3 |}].

(** Five posts at the same second and one an hour later. *)
Definition tied_posts : list NormalizedPost :=
  map (fun t => post "p" "alice" t "news" [] [] []) [0; 0; 0; 0; 0; 3600]%Z.

(** Six posts three minutes apart. *)
Definition spaced_posts : list NormalizedPost :=
  map (fun t => post "p" "alice" t "news" [] [] []) [0; 180; 360; 540; 720; 900]%Z.

(** The inputs of [tests/test_scoring.py]. *)
Definition rapid_posts : list NormalizedPost :=
  map (fun i => post "post" ("user_" +:+ pretty i) (Z.of_nat i * 10) "Rapid post" [] [] [])
      (seq 0 100).

Definition sample_coordination_groups : list CoordinatedGroup :=
  [{| group_id := "group_001";
      author_ids := ["user_000"; "user_001"; "user_002"];
      group_score := 0.85;
      evidence_summary := "High text similarity";
      narrative_ids := ["narrative_001"];
      group_size := 3 |}].

Definition unrelated_groups : list CoordinatedGroup :=
  [{| group_id := "group_other";
      author_ids := ["other_1"; "other_2"];
      group_score := 0.9;
      evidence_summary := "Different narrative";
      narrative_ids := ["narrative_other"];
      group_size := 2 |}].

Definition domain_post (sites : list string) : NormalizedPost :=
  post "1" "user" 0 "test" [] sites [].

Definition repetitive_posts : list NormalizedPost :=
  map (fun i => post "post" "bot_user" (Z.of_nat i * 60) "Same message repeated" [] [] [])
      (seq 0 10).

Definition clean_post : NormalizedPost :=
  post "1" "user" 0 "This is a nice and friendly message about technology." [] [] [].

Definition toxic_post : NormalizedPost :=
  post "1" "user" 0 "They are the enemy! This is a dangerous conspiracy and hoax!" [] [] [].

(** Pairs that link "alice", "bob" and "carol" in a chain, and "dave"
    with "erin". *)
Definition scored_pair (a b : string) (s : Q) (nid : string) : CoordinatedPair :=
  {| author1_id := a; author2_id := b; score := s; evidence := empty_evidence;
     pair_narrative_id := Some nid |}.

Definition chain_and_couple : list CoordinatedPair :=
  [scored_pair "alice" "bob" 0.9 "n1"; scored_pair "dave" "erin" 1 "n1";
   scored_pair "bob" "carol" 0.95 "n1"].

(** Scenario A: two authors, three posts each within five minutes, one
    shared hashtag, no domains. *)
Definition tagged_posts (author : string) (first_index : nat) (from : Z)
  : list (NormalizedPost * nat) :=
  map (fun i => (post "p" author (from + Z.of_nat i * 60) "note" [] [] ["tag"],
                 (first_index + i)%nat)) (seq 0 3).

(** Scenario D: one calm post, no group. *)
Definition calm_post : NormalizedPost := post "1" "user" 0 "a quiet day" [] [] [].

(** The cosine similarity that sklearn returns, computed in binary
    floating point, for two rows that both are [7, 1, 1, 2, 7]:
    1.0000000000000004, which is 1 + 2^-51. *)
Definition cosine_of_equal_rows : Sklearn :=
  {| cosine_similarity := fun _ _ => 1 + (1 # 2251799813685248) |}.

Definition equal_rows : option (nat -> list Q) := Some (fun _ => [7; 1; 1; 2; 7]).

(** Two posts of two authors in one narrative, at the same second, with
    the same domain and the same hashtag. *)
Definition twin_posts : list NormalizedPost :=
  [narrative_post "p1" "alice" "n1" 0; narrative_post "p2" "bob" "n1" 0].

(** A group with a negative score. *)
Definition negative_groups : list CoordinatedGroup :=
  [ {| group_id := "coord_group_0000"; author_ids := ["alice"; "bob"; "carol"];
       group_score := -2; evidence_summary := "Group of 3 authors";
       narrative_ids := ["n1"]; group_size := 3 |} ].

(** ** Notions for the further properties *)

(** The evidence that the two loops of [_calculate_pair_score] add to
    [ev] for the post pairs [q], in their order: the post IDs, the shared
    domains and hashtags of each pair, and the time difference of the
    last pair. *)
Definition gathered (ev : CoordinationEvidence)
    (q : list ((NormalizedPost * nat) * (NormalizedPost * nat))) : CoordinationEvidence := {|
  post_ids := post_ids ev ++ flat_map (fun pq => [post_id (fst (fst pq)); post_id (fst (snd pq))]) q;
  shared_domains :=
    shared_domains ev
    ++ flat_map (fun pq => elements (shared (domains (fst (fst pq))) (domains (fst (snd pq))))) q;
  shared_hashtags :=
    shared_hashtags ev
    ++ flat_map (fun pq => elements (shared (hashtags (fst (fst pq))) (hashtags (fst (snd pq))))) q;
  text_similarity := text_similarity ev;
  time_delta_seconds :=
    match last q with
    | Some pq => Some (time_diff (fst (fst pq)) (fst (snd pq)))
    | None => time_delta_seconds ev
    end;
|}.

(** The dictionary that a loop fills with [d[key(x)].append(val(x))] for
    the elements [x] of a list that have a key. *)
Definition collect {A B} (key : A -> option string) (val : A -> B)
    (d : list (string * list B)) (l : list A) : list (string * list B) :=
  foldl (fun d x => match key x with Some k => dict_append k (val x) d | None => d end) d l.

(** The names of the two authors of a pair record. *)
Definition authors_of (p : CoordinatedPair) : string * string := (author1_id p, author2_id p).

(** The posts that [calculate_risk] files under a narrative: those that
    carry its name, in their order; none for no name or "noise". *)
Definition assigned (nid : string) (posts : list NormalizedPost) : list NormalizedPost :=
  filter (fun p => in_narrative p = Some nid) posts.

(** The narratives that have a post. *)
Definition with_posts (posts : list NormalizedPost) (narratives : list NarrativeMetadata)
  : list NarrativeMetadata :=
  filter (fun n => (0 < length (assigned (narrative_meta_id n) posts))%nat) narratives.

(** The number of components that reach 0.3, the least score that
    [_generate_reasons] reports. *)
Definition reported (c : RiskComponents) : nat :=
  length (filter (fun x => Is_true (Qle_bool 0.3 x))
            [velocity c; coordination_density c; bot_score c;
             foreign_domain_ratio c; toxicity c]).

(** The set of the domains of some posts, and those of them that end in
    one of the top-level domains [tlds]. *)
Definition domain_set (posts : list NormalizedPost) : gset string :=
  list_to_set (flat_map domains posts).

Definition foreign_among (tlds : list string) (ds : gset string) : gset string :=
  filter (fun domain => Is_true (existsb (endswith domain) tlds)) ds.

(** The words of the posts, lower-cased, and those of them that are a
    toxic keyword once their punctuation is stripped. *)
Definition all_words (posts : list NormalizedPost) : list string :=
  flat_map (fun post => split (lower (text post))) posts.

Definition toxic_words (posts : list NormalizedPost) : list string :=
  filter (fun word => clean word ∈ toxic_keywords) (all_words posts).

(** What a group adds to [total_group_score], and the number of authors
    that some groups list when they are told by their [size]. *)
Definition group_weight (g : CoordinatedGroup) : Q :=
  group_score g * inject_Z (group_size g).

Definition listed_authors (groups : list CoordinatedGroup) : Z :=
  foldr Z.add 0%Z (map group_size groups).

(** [s] is the score of a pair record of two of the [authors]. *)
Definition score_among (pairs : list CoordinatedPair) (authors : list string) (s : Q) : Prop :=
  exists p, p ∈ pairs /\ author1_id p ∈ authors /\ author2_id p ∈ authors /\ s = score p.

(** * Proofs *)

(** ** Rounding and maxima *)

Lemma round_half_even_floor (x : Q) :
  round_half_even x = Qfloor x \/
  (round_half_even x = (Qfloor x + 1)%Z /\ inject_Z (Qfloor x) < x).
Proof.
  unfold round_half_even.
  destruct (x - inject_Z (Qfloor x) ?= 1 # 2) eqn:E.
  - apply Qeq_alt in E. destruct (Z.even (Qfloor x)); [by left|right].
    split; [done|]. lra.
  - by left.
  - apply Qgt_alt in E. right. split; [done|]. lra.
Qed.

Lemma round_half_even_ge (x : Q) (n : Z) : inject_Z n <= x -> (n <= round_half_even x)%Z.
Proof.
  intros Hn. assert (n <= Qfloor x)%Z as Hf.
  { rewrite <- (Qfloor_Z n). by apply Qfloor_resp_le. }
  destruct (round_half_even_floor x) as [->|[-> _]]; lia.
Qed.

Lemma round_half_even_le (x : Q) (n : Z) : x <= inject_Z n -> (round_half_even x <= n)%Z.
Proof.
  intros Hn. pose proof (Qfloor_le x) as Hf.
  destruct (round_half_even_floor x) as [->|[-> Hlt]].
  - rewrite Zle_Qle. lra.
  - assert (inject_Z (Qfloor x) < inject_Z n) as Hlt' by lra.
    rewrite <- Zlt_Qlt in Hlt'. lia.
Qed.

Lemma round4_unit (x : Q) : 0 <= x <= 1 -> 0 <= round4 x <= 1.
Proof.
  intros [H0 H1]. unfold round4.
  assert (0 <= round_half_even (x * 10000))%Z as Hlo.
  { apply round_half_even_ge. change (inject_Z 0) with 0. lra. }
  assert (round_half_even (x * 10000) <= 10000)%Z as Hhi.
  { apply round_half_even_le. change (inject_Z 10000) with 10000. lra. }
  rewrite Zle_Qle in Hlo, Hhi.
  change (inject_Z 0) with 0 in Hlo. change (inject_Z 10000) with 10000 in Hhi.
  split.
  - apply Qle_shift_div_l; lra.
  - apply Qle_shift_div_r; lra.
Qed.

(** Rounding moves a number by half a unit at most. *)
Lemma round_half_even_near (x : Q) : Qabs (inject_Z (round_half_even x) - x) <= 1 # 2.
Proof.
  pose proof (Qfloor_le x) as Hlo. pose proof (Qlt_floor x) as Hhi.
  rewrite inject_Z_plus in Hhi. change (inject_Z 1) with 1 in Hhi.
  apply Qabs_Qle_condition. unfold round_half_even.
  destruct (x - inject_Z (Qfloor x) ?= 1 # 2) eqn:E.
  - apply Qeq_alt in E. destruct (Z.even (Qfloor x)).
    + split; lra.
    + rewrite inject_Z_plus. change (inject_Z 1) with 1. split; lra.
  - apply Qlt_alt in E. split; lra.
  - apply Qgt_alt in E. rewrite inject_Z_plus. change (inject_Z 1) with 1. split; lra.
Qed.

Lemma round4_near (x : Q) : Qabs (round4 x - x) <= 1 / 20000.
Proof.
  pose proof (round_half_even_near (x * 10000)) as Hnear.
  apply Qabs_Qle_condition in Hnear. apply Qabs_Qle_condition.
  unfold round4, Qdiv. change (/ 10000) with (1 # 10000). change (/ 20000) with (1 # 20000).
  split; lra.
Qed.

Lemma round4_decimal4 (x : Q) : decimal4 (round4 x).
Proof. by exists (round_half_even (x * 10000)). Qed.

(** The rounding of the model is one of the roundings [rounded4] allows. *)
Lemma round4_rounded4 (x : Q) : rounded4 x (round4 x).
Proof.
  split; [apply round4_decimal4|].
  pose proof (round4_near x). unfold float_slack. lra.
Qed.

(** Rounding to 4 decimals does not cross a number of 4 decimals. *)
Lemma round4_ge_grid (n : Z) (x : Q) :
  inject_Z n / 10000 <= x -> inject_Z n / 10000 <= round4 x.
Proof.
  intros Hx. unfold round4.
  assert (n <= round_half_even (x * 10000))%Z as Hn.
  { apply round_half_even_ge.
    assert (inject_Z n == inject_Z n / 10000 * 10000) as -> by field.
    apply Qmult_le_compat_r; [exact Hx|discriminate]. }
  rewrite Zle_Qle in Hn. apply Qmult_le_compat_r; [exact Hn|discriminate].
Qed.

Lemma round4_le_grid (n : Z) (x : Q) :
  x <= inject_Z n / 10000 -> round4 x <= inject_Z n / 10000.
Proof.
  intros Hx. unfold round4.
  assert (round_half_even (x * 10000) <= n)%Z as Hn.
  { apply round_half_even_le.
    assert (inject_Z n == inject_Z n / 10000 * 10000) as -> by field.
    apply Qmult_le_compat_r; [exact Hx|discriminate]. }
  rewrite Zle_Qle in Hn. apply Qmult_le_compat_r; [exact Hn|discriminate].
Qed.

Lemma py_max_cons (x z : Q) (l : list Q) :
  py_max x (z :: l) = py_max (if Qle_bool z x then x else z) l.
Proof. reflexivity. Qed.

Lemma py_max_ge_init (l : list Q) (x : Q) : x <= py_max x l.
Proof.
  revert x. induction l as [|y l IH]; intros x; [apply Qle_refl|].
  rewrite py_max_cons. destruct (Qle_bool y x) eqn:E; [apply IH|].
  assert (~ y <= x) as Hn by (rewrite <- Qle_bool_iff; congruence).
  apply Qle_trans with y; [lra|apply IH].
Qed.

Lemma py_max_upper (l : list Q) (x y : Q) : y ∈ x :: l -> y <= py_max x l.
Proof.
  revert x. induction l as [|z l IH]; intros x Hy.
  - apply list_elem_of_singleton in Hy as ->. apply py_max_ge_init.
  - rewrite py_max_cons.
    assert (x <= (if Qle_bool z x then x else z) /\ z <= (if Qle_bool z x then x else z))
      as [Hx Hz].
    { destruct (Qle_bool z x) eqn:E.
      - apply Qle_bool_iff in E. split; [apply Qle_refl|done].
      - assert (~ z <= x) as Hn by (rewrite <- Qle_bool_iff; congruence).
        split; [lra|apply Qle_refl]. }
    apply elem_of_cons in Hy as [->|Hy].
    { eapply Qle_trans; [exact Hx|apply py_max_ge_init]. }
    apply elem_of_cons in Hy as [->|Hy].
    { eapply Qle_trans; [exact Hz|apply py_max_ge_init]. }
    apply IH. by right.
Qed.

Lemma py_max_elem (l : list Q) (x : Q) : py_max x l ∈ x :: l.
Proof.
  revert x. induction l as [|z l IH]; intros x; [left|].
  rewrite py_max_cons. specialize (IH (if Qle_bool z x then x else z)).
  apply elem_of_cons in IH as [Heq|IH].
  - rewrite Heq. destruct (Qle_bool z x); [left|right; left].
  - right. by right.
Qed.

(** ** The evidence calculator *)

Section pair_score_proofs.
Context `{Sklearn}.
Variable self : CoordinationDetector.
Variable embeddings : option (nat -> list Q).

Lemma in_window_spec (post1 post2 : NormalizedPost) :
  in_window self post1 post2 = true <-> within_window self post1 post2.
Proof.
  unfold in_window, within_window, time_diff, total_seconds.
  rewrite Qle_bool_iff. unfold Qle, Qabs. simpl. lia.
Qed.

Lemma pair_step_in (p1 p2 : NormalizedPost * nat) (st : CoordinationEvidence * list Q) :
  within_window self (fst p1) (fst p2) ->
  snd (pair_step self embeddings p1 st p2) = snd st ++ [pair_score self embeddings p1 p2].
Proof.
  intros Hw. apply in_window_spec in Hw. unfold pair_step.
  destruct st as [ev sc]. by rewrite Hw.
Qed.

Lemma pair_step_out (p1 p2 : NormalizedPost * nat) (st : CoordinationEvidence * list Q) :
  ~ within_window self (fst p1) (fst p2) -> pair_step self embeddings p1 st p2 = st.
Proof.
  intros Hw. rewrite <- in_window_spec in Hw. unfold pair_step.
  destruct st as [ev sc]. by destruct (in_window self (fst p1) (fst p2)).
Qed.

(** The inner loop appends the scores of the posts of [posts2] that are
    within the window of [p1], and leaves the state alone when none is. *)
Lemma inner_loop_scores (p1 : NormalizedPost * nat) (posts2 : list (NormalizedPost * nat))
    (st : CoordinationEvidence * list Q) :
  snd (foldl (pair_step self embeddings p1) st posts2)
  = snd st ++ map (fun pq => pair_score self embeddings (fst pq) (snd pq))
                  (qualifying self [p1] posts2).
Proof.
  unfold qualifying. simpl. rewrite app_nil_r.
  revert st. induction posts2 as [|p2 posts2 IH]; intros st; simpl.
  { by rewrite app_nil_r. }
  rewrite IH. destruct (decide (within_window self (fst p1) (fst p2))) as [Hw|Hw].
  - rewrite filter_cons_True by done. rewrite pair_step_in by done.
    simpl. by rewrite <- app_assoc.
  - rewrite filter_cons_False by done. by rewrite pair_step_out.
Qed.

Lemma inner_loop_idle (p1 : NormalizedPost * nat) (posts2 : list (NormalizedPost * nat))
    (st : CoordinationEvidence * list Q) :
  qualifying self [p1] posts2 = [] -> foldl (pair_step self embeddings p1) st posts2 = st.
Proof.
  unfold qualifying. simpl. rewrite app_nil_r.
  induction posts2 as [|p2 posts2 IH]; simpl; [done|].
  destruct (decide (within_window self (fst p1) (fst p2))) as [Hw|Hw].
  - rewrite filter_cons_True by done. done.
  - rewrite filter_cons_False by done. intros Hq. rewrite pair_step_out by done. auto.
Qed.

Lemma qualifying_cons (p1 : NormalizedPost * nat) (posts1 posts2 : list (NormalizedPost * nat)) :
  qualifying self (p1 :: posts1) posts2
  = qualifying self [p1] posts2 ++ qualifying self posts1 posts2.
Proof. unfold qualifying. simpl. by rewrite app_nil_r, filter_app. Qed.

Lemma outer_loop_scores (posts1 posts2 : list (NormalizedPost * nat))
    (st : CoordinationEvidence * list Q) :
  snd (foldl (fun st p1 => foldl (pair_step self embeddings p1) st posts2) st posts1)
  = snd st ++ map (fun pq => pair_score self embeddings (fst pq) (snd pq))
                  (qualifying self posts1 posts2).
Proof.
  revert st. induction posts1 as [|p1 posts1 IH]; intros st.
  { simpl. by rewrite app_nil_r. }
  simpl foldl. rewrite IH, inner_loop_scores, (qualifying_cons p1 posts1), map_app.
  by rewrite <- app_assoc.
Qed.

Lemma outer_loop_idle (posts1 posts2 : list (NormalizedPost * nat))
    (st : CoordinationEvidence * list Q) :
  qualifying self posts1 posts2 = [] ->
  foldl (fun st p1 => foldl (pair_step self embeddings p1) st posts2) st posts1 = st.
Proof.
  induction posts1 as [|p1 posts1 IH]; [done|].
  rewrite (qualifying_cons p1 posts1). intros [Hq1 Hq]%app_eq_nil.
  simpl foldl. rewrite inner_loop_idle by done. auto.
Qed.

Lemma pair_loop_scores (posts1 posts2 : list (NormalizedPost * nat)) :
  snd (pair_loop self embeddings posts1 posts2)
  = map (fun pq => pair_score self embeddings (fst pq) (snd pq))
        (qualifying self posts1 posts2).
Proof. unfold pair_loop. by rewrite outer_loop_scores. Qed.

(** The score returned is that of [max(scores)] over the qualifying pairs. *)
Lemma calculate_pair_score_fst (posts1 posts2 : list (NormalizedPost * nat)) :
  fst (_calculate_pair_score self embeddings posts1 posts2)
  = match map (fun pq => pair_score self embeddings (fst pq) (snd pq))
              (qualifying self posts1 posts2) with
    | [] => 0
    | s :: rest => py_max s rest
    end.
Proof.
  unfold _calculate_pair_score. rewrite <- pair_loop_scores.
  destruct (pair_loop self embeddings posts1 posts2) as [ev [|s rest]]; done.
Qed.

End pair_score_proofs.

(** C1.  [_calculate_pair_score] returns score 0 and the empty evidence
    when no cross-author post pair is within the time window; otherwise it
    returns the greatest combined score of the pairs within the window: a
    score of one of them that no other exceeds.  It is not their average:
    on the posts of "alice" and "bob" the two differ. *)
Theorem calculate_pair_score_is_maximum :
  (forall (sk : Sklearn) (self : CoordinationDetector) (embeddings : option (nat -> list Q))
          (posts1 posts2 : list (NormalizedPost * nat)),
     let scores := map (fun pq => pair_score self embeddings (fst pq) (snd pq))
                       (qualifying self posts1 posts2) in
     let result := _calculate_pair_score self embeddings posts1 posts2 in
     (qualifying self posts1 posts2 = [] -> result = (0, empty_evidence))
     /\ (qualifying self posts1 posts2 <> [] ->
         fst result ∈ scores /\ forall s, s ∈ scores -> s <= fst result))
  /\ (exists (self : CoordinationDetector) (posts1 posts2 : list (NormalizedPost * nat)),
        let scores := map (fun pq => pair_score (H := constant_similarity) self None (fst pq) (snd pq))
                          (qualifying self posts1 posts2) in
        ~ fst (_calculate_pair_score (H := constant_similarity) self None posts1 posts2)
          == average scores).
Proof.
  split.
  - intros sk self embeddings posts1 posts2 scores result. split.
    + intros Hq. unfold result, _calculate_pair_score, pair_loop.
      by rewrite outer_loop_idle.
    + intros Hq. unfold result. rewrite calculate_pair_score_fst. fold scores.
      assert (scores <> []) as Hs.
      { unfold scores. by destruct (qualifying self posts1 posts2). }
      destruct scores as [|s rest]; [done|]. split.
      * apply py_max_elem.
      * intros x Hx. by apply py_max_upper.
  - exists default_detector, alice_posts, bob_posts. vm_compute. discriminate.
Qed.

Lemma calculate_pair_score_is_maximum_witness :
  qualifying default_detector alice_posts bob_posts <> []
  /\ fst (_calculate_pair_score (H := constant_similarity) default_detector None
            alice_posts bob_posts)
     ∈ map (fun pq => pair_score (H := constant_similarity) default_detector None (fst pq) (snd pq))
           (qualifying default_detector alice_posts bob_posts).
Proof.
  assert (qualifying default_detector alice_posts bob_posts <> []) as Hq
    by (vm_compute; discriminate).
  split; [exact Hq|].
  exact (proj1 (proj2 (proj1 calculate_pair_score_is_maximum constant_similarity
                         default_detector None alice_posts bob_posts) Hq)).
Defined.

(** In the evidence of a pair with a post pair within the window the field
    [text_similarity] holds the returned score, the greatest combined score. *)
Lemma evidence_text_similarity `{Sklearn} (self : CoordinationDetector)
    (embeddings : option (nat -> list Q)) (posts1 posts2 : list (NormalizedPost * nat)) :
  qualifying self posts1 posts2 <> [] ->
  text_similarity (snd (_calculate_pair_score self embeddings posts1 posts2))
  = Some (fst (_calculate_pair_score self embeddings posts1 posts2)).
Proof.
  intros Hq. pose proof (pair_loop_scores self embeddings posts1 posts2) as Hs.
  unfold _calculate_pair_score.
  destruct (pair_loop self embeddings posts1 posts2) as [ev [|s rest]]; [|done].
  simpl in Hs. by destruct (qualifying self posts1 posts2).
Qed.

(** C8.  With no embeddings every text similarity is 0, yet for the posts
    of "alice" and "bob", which are within the window, [text_similarity]
    is the combined score 0.5 of the pair (a1, b1). *)
Lemma text_similarity_is_combined_score :
  let result := _calculate_pair_score (H := constant_similarity) default_detector None
                  alice_posts bob_posts in
  (forall pq, pq ∈ qualifying default_detector alice_posts bob_posts ->
     text_sim (H := constant_similarity) None (snd (fst pq)) (snd (snd pq)) = 0)
  /\ qualifying default_detector alice_posts bob_posts <> []
  /\ exists s, text_similarity (snd result) = Some s /\ s == 0.5.
Proof.
  split; [done|]. split; [vm_compute; discriminate|].
  eexists. split; [vm_compute; reflexivity|]. reflexivity.
Qed.

(** ** Insertion-ordered dictionaries *)

Section dict_proofs.
Context {V : Type}.
Variable dflt : V.

Lemma dict_get_update (f : V -> V) (k k' : string) (d : list (string * V)) :
  dict_get dflt (dict_update dflt f k d) k'
  = if decide (k' = k) then f (dict_get dflt d k) else dict_get dflt d k'.
Proof.
  induction d as [|[k0 v] d IH]; simpl.
  - repeat case_decide; congruence.
  - destruct (decide (k = k0)) as [->|Hk]; simpl.
    + destruct (decide (k' = k0)) as [->|Hk']; done.
    + rewrite IH. destruct (decide (k' = k0)) as [->|Hk']; [|done].
      by rewrite decide_False.
Qed.

Lemma dict_update_keys (f : V -> V) (k : string) (d : list (string * V)) :
  map fst (dict_update dflt f k d)
  = if decide (k ∈ map fst d) then map fst d else map fst d ++ [k].
Proof.
  induction d as [|[k0 v] d IH]; cbn [dict_update map fst].
  - rewrite decide_False; [done|]. apply not_elem_of_nil.
  - destruct (decide (k = k0)) as [->|Hne]; cbn [map fst].
    + rewrite decide_True; [done|]. left.
    + rewrite IH. destruct (decide (k ∈ map fst d)) as [Hin|Hin].
      * rewrite decide_True; [done|]. by right.
      * rewrite decide_False; [done|]. by intros [?|?]%elem_of_cons.
Qed.

Lemma dict_update_NoDup (f : V -> V) (k : string) (d : list (string * V)) :
  NoDup (map fst d) -> NoDup (map fst (dict_update dflt f k d)).
Proof.
  intros Hd. rewrite dict_update_keys. case_decide; [done|].
  apply NoDup_app. split; [done|]. split; [|apply NoDup_singleton].
  intros x Hx ->%list_elem_of_singleton. done.
Qed.

Lemma dict_update_elem (f : V -> V) (k k' : string) (d : list (string * V)) :
  k' ∈ map fst (dict_update dflt f k d) <-> k' = k \/ k' ∈ map fst d.
Proof.
  rewrite dict_update_keys. case_decide.
  - split; [by right|]. by intros [->|?].
  - rewrite elem_of_app, list_elem_of_singleton. tauto.
Qed.

End dict_proofs.

(** ** The pairwise detector *)

Lemma group_by_author_from (post_data : list (NormalizedPost * nat))
    (d : list (string * list (NormalizedPost * nat))) (author : string) :
  dict_get [] (foldl (fun d pi => dict_append (author_id (fst pi)) pi d) d post_data) author
  = dict_get [] d author ++ posts_of_author author post_data.
Proof.
  revert d. induction post_data as [|pi post_data IH]; intros d; simpl.
  { by rewrite app_nil_r. }
  rewrite IH. unfold dict_append. rewrite dict_get_update. unfold posts_of_author.
  destruct (decide (author = author_id (fst pi))) as [->|Hne].
  - rewrite filter_cons_True by done. by rewrite <- app_assoc.
  - rewrite filter_cons_False by done. done.
Qed.

(** The dictionary [author_posts] maps an author to the author's posts. *)
Lemma group_by_author_get (post_data : list (NormalizedPost * nat)) (author : string) :
  dict_get [] (group_by_author post_data) author = posts_of_author author post_data.
Proof. unfold group_by_author. by rewrite group_by_author_from. Qed.

Lemma group_by_author_NoDup_from (post_data : list (NormalizedPost * nat))
    (d : list (string * list (NormalizedPost * nat))) :
  NoDup (map fst d) ->
  NoDup (map fst (foldl (fun d pi => dict_append (author_id (fst pi)) pi d) d post_data)).
Proof.
  revert d. induction post_data as [|pi post_data IH]; intros d Hd; simpl; [done|].
  apply IH. by apply dict_update_NoDup.
Qed.

(** Its keys, the list [author_ids], name every author once. *)
Lemma group_by_author_NoDup (post_data : list (NormalizedPost * nat)) :
  NoDup (map fst (group_by_author post_data)).
Proof. apply group_by_author_NoDup_from. constructor. Qed.

Lemma group_by_author_keys_from (post_data : list (NormalizedPost * nat))
    (d : list (string * list (NormalizedPost * nat))) (author : string) :
  author ∈ map fst (foldl (fun d pi => dict_append (author_id (fst pi)) pi d) d post_data)
  <-> author ∈ map fst d \/ exists pi, pi ∈ post_data /\ author_id (fst pi) = author.
Proof.
  revert d. induction post_data as [|pi post_data IH]; intros d; simpl.
  - split; [by left|]. intros [?|(pi & Hpi & _)]; [done|]. by apply elem_of_nil in Hpi.
  - rewrite IH. unfold dict_append. rewrite dict_update_elem. split.
    + intros [[->|?]|(pi' & Hpi & Ha)]; [right|by left|right].
      * exists pi. split; [left|done].
      * exists pi'. split; [by right|done].
    + intros [?|(pi' & Hpi & Ha)]; [left; by right|].
      apply elem_of_cons in Hpi as [->|Hpi]; [left; by left|].
      right. by exists pi'.
Qed.

(** The authors of [author_ids] are the authors of the posts. *)
Lemma group_by_author_keys (post_data : list (NormalizedPost * nat)) (author : string) :
  author ∈ map fst (group_by_author post_data)
  <-> exists pi, pi ∈ post_data /\ author_id (fst pi) = author.
Proof.
  unfold group_by_author. rewrite group_by_author_keys_from. split; [|by right].
  intros [Hin|?]; [|done]. by apply elem_of_nil in Hin.
Qed.

Section detect_proofs.
Context `{Sklearn}.
Variable self : CoordinationDetector.
Variable embeddings : option (nat -> list Q).

Lemma pairs_of_author_elem (post_data : list (NormalizedPost * nat))
    (nid author1 : string) (rest : list string) (p : CoordinatedPair) :
  p ∈ pairs_of_author self embeddings (group_by_author post_data) nid author1 rest
  <-> exists author2, author2 ∈ rest
        /\ p = pair_record self embeddings post_data nid author1 author2
        /\ self_similarity_threshold self <= score p.
Proof.
  unfold pairs_of_author. rewrite list_elem_of_In, in_flat_map.
  setoid_rewrite <- list_elem_of_In. setoid_rewrite group_by_author_get.
  split.
  - intros (author2 & Hin & Hp). exists author2. split; [done|].
    destruct (_calculate_pair_score self embeddings (posts_of_author author1 post_data)
                (posts_of_author author2 post_data)) as [sc ev] eqn:E.
    destruct (Qle_bool (self_similarity_threshold self) sc) eqn:Hle;
      [|by apply elem_of_nil in Hp].
    apply list_elem_of_singleton in Hp as ->. unfold pair_record. rewrite E. simpl.
    split; [done|]. by apply Qle_bool_iff.
  - intros (author2 & Hin & -> & Hle). exists author2. split; [done|].
    unfold pair_record in *. simpl in Hle.
    destruct (_calculate_pair_score self embeddings (posts_of_author author1 post_data)
                (posts_of_author author2 post_data)) as [sc ev].
    simpl in *. apply Qle_bool_iff in Hle. rewrite Hle. left.
Qed.

(** The pairs the two loops emit: one for every two positions [i < j] of
    [author_ids] whose score reaches the threshold. *)
Lemma pairs_loop_elem (post_data : list (NormalizedPost * nat)) (nid : string)
    (ids : list string) (p : CoordinatedPair) :
  p ∈ pairs_loop self embeddings (group_by_author post_data) nid ids
  <-> exists (i j : nat) (author1 author2 : string),
        ids !! i = Some author1 /\ ids !! j = Some author2 /\ (i < j)%nat
        /\ p = pair_record self embeddings post_data nid author1 author2
        /\ self_similarity_threshold self <= score p.
Proof.
  induction ids as [|a ids IH]; simpl.
  { split; [by intros ?%elem_of_nil|]. by intros (i & j & a1 & a2 & Hi & _). }
  rewrite elem_of_app, pairs_of_author_elem, IH. split.
  - intros [(a2 & Hin & Hp & Hle)|(i & j & a1 & a2 & Hi & Hj & Hij & Hp & Hle)].
    + apply list_elem_of_lookup in Hin as [j Hj].
      exists O, (S j), a, a2. repeat split; first [done | lia].
    + exists (S i), (S j), a1, a2. repeat split; first [done | lia].
  - intros (i & j & a1 & a2 & Hi & Hj & Hij & Hp & Hle).
    destruct j as [|j]; [lia|]. destruct i as [|i].
    + left. simpl in Hi, Hj. injection Hi as ->. exists a2. split; [|done].
      apply list_elem_of_lookup. by exists j.
    + right. exists i, j, a1, a2. simpl in Hi, Hj. repeat split; first [done | lia].
Qed.

End detect_proofs.

(** C2.  Two authors of a narrative, the first met at position [i] and the
    second at a later position [j] of [author_ids], are emitted as a
    CoordinatedPair (in either orientation) if and only if the score of
    their posts is at least the threshold.  The pair emitted is the
    record of that score; a score equal to the threshold is included and
    one below it is excluded. *)
Theorem pair_emitted_iff_threshold (sk : Sklearn) (self : CoordinationDetector)
    (embeddings : option (nat -> list Q)) (post_data : list (NormalizedPost * nat))
    (nid : string) (i j : nat) (author1 author2 : string) :
  let author_ids := map fst (group_by_author post_data) in
  let record := pair_record self embeddings post_data nid author1 author2 in
  let emitted := _detect_pairs_in_narrative self embeddings post_data nid in
  author_ids !! i = Some author1 -> author_ids !! j = Some author2 -> (i < j)%nat ->
  ((exists p, p ∈ emitted
      /\ ((author1_id p = author1 /\ author2_id p = author2)
          \/ (author1_id p = author2 /\ author2_id p = author1)))
   <-> self_similarity_threshold self <= score record)
  /\ (self_similarity_threshold self <= score record -> record ∈ emitted)
  /\ (score record == self_similarity_threshold self -> record ∈ emitted)
  /\ (score record < self_similarity_threshold self ->
      forall p, p ∈ emitted -> ~ (author1_id p = author1 /\ author2_id p = author2)).
Proof.
  intros author_ids record emitted Hi Hj Hij.
  pose proof (group_by_author_NoDup post_data) as Hnd. fold author_ids in Hnd.
  assert (forall p, p ∈ emitted ->
            (author1_id p = author1 /\ author2_id p = author2)
            \/ (author1_id p = author2 /\ author2_id p = author1) ->
            p = record /\ self_similarity_threshold self <= score record) as Hfrom.
  { intros p Hp Hnames. unfold emitted, _detect_pairs_in_narrative in Hp.
    apply pairs_loop_elem in Hp as (i' & j' & a1 & a2 & Hi' & Hj' & Hij' & -> & Hle).
    fold author_ids in Hi', Hj'. simpl in Hnames.
    destruct Hnames as [[-> ->]|[-> ->]]; [done|].
    pose proof (NoDup_lookup _ _ _ _ Hnd Hi' Hj). pose proof (NoDup_lookup _ _ _ _ Hnd Hj' Hi).
    lia. }
  assert (self_similarity_threshold self <= score record -> record ∈ emitted) as Hto.
  { intros Hle. unfold emitted, _detect_pairs_in_narrative. apply pairs_loop_elem.
    by exists i, j, author1, author2. }
  split; [|split; [done|split]].
  - split.
    + intros (p & Hp & Hnames). by destruct (Hfrom p Hp Hnames).
    + intros Hle. exists record. split; [by apply Hto|]. by left.
  - intros Heq. apply Hto. rewrite Heq. apply Qle_refl.
  - intros Hlt p Hp Hnames. destruct (Hfrom p Hp (or_introl Hnames)) as [_ Hle].
    by apply Qlt_not_le in Hlt.
Qed.

Lemma pair_emitted_iff_threshold_witness :
  pair_record (H := constant_similarity) default_detector some_embeddings
    (alice_posts ++ bob_posts) "n1" "alice" "bob"
  ∈ _detect_pairs_in_narrative (H := constant_similarity) default_detector some_embeddings
      (alice_posts ++ bob_posts) "n1".
Proof.
  destruct (pair_emitted_iff_threshold constant_similarity default_detector some_embeddings
              (alice_posts ++ bob_posts) "n1" 0 1 "alice" "bob") as (_ & Hmade & _);
    [reflexivity|reflexivity|lia|].
  apply Hmade. vm_compute. discriminate.
Defined.

(** ** The group builder *)

Lemma unvisited_weight_mono (graph : list (string * gset string)) (visited visited' : gset string) :
  visited ⊆ visited' -> (unvisited_weight graph visited' <= unvisited_weight graph visited)%nat.
Proof.
  intros Hsub. induction graph as [|[k ns] graph IH]; cbn [unvisited_weight]; [done|].
  destruct (decide (k ∈ visited)) as [Hk|Hk].
  - rewrite decide_True by set_solver. lia.
  - destruct (decide (k ∈ visited')); lia.
Qed.

Lemma unvisited_weight_visit (graph : list (string * gset string)) (visited : gset string)
    (author : string) :
  author ∉ visited ->
  (size (dict_get ∅ graph author) + unvisited_weight graph (visited ∪ {[author]})
   <= unvisited_weight graph visited)%nat.
Proof.
  intros Hnew. induction graph as [|[k ns] graph IH]; cbn [dict_get unvisited_weight].
  { rewrite size_empty. done. }
  destruct (decide (author = k)) as [->|Hne].
  - rewrite decide_True by set_solver. rewrite (decide_False (P := k ∈ visited)) by done.
    pose proof (unvisited_weight_mono graph visited (visited ∪ {[k]}) ltac:(set_solver)).
    lia.
  - destruct (decide (k ∈ visited)) as [Hk|Hk].
    + rewrite decide_True by (apply elem_of_union; by left). lia.
    + rewrite decide_False; [lia|].
      intros [?|?%elem_of_singleton]%elem_of_union; congruence.
Qed.

(** The [while] loop ends: with fuel for the queue and for every author
    not yet visited the traversal returns. *)
Lemma bfs_enough_fuel (fuel : nat) (graph : list (string * gset string))
    (visited : gset string) (component queue : list string) :
  (length queue + unvisited_weight graph visited <= fuel)%nat ->
  is_Some (bfs fuel graph visited component queue).
Proof.
  revert visited component queue.
  induction fuel as [|fuel IH]; intros visited component queue Hfuel.
  { destruct queue; [by eexists|simpl in Hfuel; lia]. }
  destruct queue as [|author queue]; [by eexists|]. simpl in *.
  destruct (decide (author ∈ visited)) as [Hin|Hnew].
  - apply IH. lia.
  - apply IH. rewrite length_app.
    pose proof (unvisited_weight_visit graph visited author Hnew).
    pose proof (length_filter (fun neighbor => neighbor ∉ visited ∪ {[author]})
                  (elements (dict_get ∅ graph author))) as Hf.
    change (length (elements (dict_get ∅ graph author)))
      with (size (dict_get ∅ graph author)) in Hf.
    lia.
Qed.

Lemma bfs_from_start (graph : list (string * gset string)) (visited : gset string)
    (start_author : string) :
  is_Some (bfs (bfs_fuel graph) graph visited [] [start_author]).
Proof.
  apply bfs_enough_fuel. unfold bfs_fuel. simpl.
  pose proof (unvisited_weight_mono graph ∅ visited ltac:(set_solver)). lia.
Qed.

Lemma make_group_author_ids (pair_scores : gmap (string * string) CoordinatedPair)
    (counter : nat) (component : list string) :
  author_ids (make_group pair_scores counter component) = component.
Proof. unfold make_group. by destruct (score_loop pair_scores component ([], ∅)). Qed.

Lemma make_group_size (pair_scores : gmap (string * string) CoordinatedPair)
    (counter : nat) (component : list string) :
  group_size (make_group pair_scores counter component) = Z.of_nat (length component).
Proof. unfold make_group. by destruct (score_loop pair_scores component ([], ∅)). Qed.

Lemma insert_group_Permutation (g : CoordinatedGroup) (l : list CoordinatedGroup) :
  insert_group g l ≡ₚ g :: l.
Proof.
  induction l as [|h t IH]; simpl; [done|].
  destruct (Qle_bool (group_score h) (group_score g)); [done|].
  rewrite IH. apply Permutation_swap.
Qed.

(** Sorting the groups keeps every group. *)
Lemma sort_groups_Permutation (l : list CoordinatedGroup) : sort_groups l ≡ₚ l.
Proof.
  induction l as [|g l IH]; simpl; [done|].
  by rewrite insert_group_Permutation, IH.
Qed.

Section build_groups_proofs.
Variable self : CoordinationDetector.

Lemma component_scan_visited (graph : list (string * gset string))
    (visited : gset string) (found : list (list string)) (start : string) :
  start ∈ visited -> component_scan graph (Some (visited, found)) start = Some (visited, found).
Proof. intros Hin. unfold component_scan. by rewrite decide_True. Qed.

Lemma component_scan_new (graph : list (string * gset string))
    (visited visited' : gset string) (found : list (list string))
    (start : string) (component : list string) :
  start ∉ visited ->
  bfs (bfs_fuel graph) graph visited [] [start] = Some (visited', component) ->
  component_scan graph (Some (visited, found)) start = Some (visited', found ++ [component]).
Proof. intros Hnew Hbfs. unfold component_scan. by rewrite decide_False, Hbfs. Qed.

Lemma component_step_visited (graph : list (string * gset string))
    (pair_scores : gmap (string * string) CoordinatedPair)
    (visited : gset string) (groups : list CoordinatedGroup) (counter : nat) (start : string) :
  start ∈ visited ->
  component_step self graph pair_scores (Some (visited, groups, counter)) start
  = Some (visited, groups, counter).
Proof. intros Hin. unfold component_step. by rewrite decide_True. Qed.

Lemma component_step_new (graph : list (string * gset string))
    (pair_scores : gmap (string * string) CoordinatedPair)
    (visited visited' : gset string) (groups : list CoordinatedGroup) (counter : nat)
    (start : string) (component : list string) :
  start ∉ visited ->
  bfs (bfs_fuel graph) graph visited [] [start] = Some (visited', component) ->
  component_step self graph pair_scores (Some (visited, groups, counter)) start
  = if decide (large_enough self component)
    then Some (visited', groups ++ [make_group pair_scores counter component], S counter)
    else Some (visited', groups, counter).
Proof.
  intros Hnew Hbfs. unfold component_step. rewrite decide_False, Hbfs by done.
  unfold large_enough.
  destruct (Z.leb_spec (self_min_group_size self) (Z.of_nat (length component)));
    [by rewrite decide_True|by rewrite decide_False by lia].
Qed.

(** The groups built are the records of the large enough components:
    the two traversals go in step. *)
Lemma component_step_scan (graph : list (string * gset string))
    (pair_scores : gmap (string * string) CoordinatedPair) (keys : list string)
    (visited : gset string) (found : list (list string))
    (groups : list CoordinatedGroup) (counter : nat) :
  map author_ids groups = filter (large_enough self) found ->
  Forall (fun g => exists n c, g = make_group pair_scores n c) groups ->
  exists visited' found' groups' counter',
    foldl (component_scan graph) (Some (visited, found)) keys = Some (visited', found')
    /\ foldl (component_step self graph pair_scores) (Some (visited, groups, counter)) keys
       = Some (visited', groups', counter')
    /\ map author_ids groups' = filter (large_enough self) found'
    /\ Forall (fun g => exists n c, g = make_group pair_scores n c) groups'.
Proof.
  revert visited found groups counter.
  induction keys as [|start keys IH]; intros visited found groups counter Hmap Hsize.
  { by exists visited, found, groups, counter. }
  cbn [foldl]. destruct (decide (start ∈ visited)) as [Hin|Hnew].
  { rewrite component_scan_visited, component_step_visited by done. by apply IH. }
  destruct (bfs_from_start graph visited start) as [[visited' component] Hbfs].
  rewrite (component_scan_new _ _ _ _ _ _ Hnew Hbfs).
  rewrite (component_step_new _ _ _ _ _ _ _ _ Hnew Hbfs).
  destruct (decide (large_enough self component)) as [Hle|Hlt].
  - apply IH.
    + rewrite map_app, filter_app, Hmap. simpl. rewrite make_group_author_ids.
      by rewrite filter_cons_True, filter_nil.
    + apply Forall_app. split; [done|]. apply Forall_singleton. by eexists _, _.
  - apply IH; [|done].
    by rewrite filter_app, Hmap, filter_cons_False, filter_nil, app_nil_r.
Qed.

End build_groups_proofs.

(** The traversal of [_build_groups] returns, and its groups are the
    records of the large enough components. *)
Lemma build_groups_found (self : CoordinationDetector) (pairs : list CoordinatedPair) :
  exists (found : list (list string)) (groups : list CoordinatedGroup),
    found_components pairs = Some found
    /\ _build_groups self pairs = Some groups
    /\ map author_ids groups ≡ₚ filter (large_enough self) found
    /\ Forall (fun g => exists n c, g = make_group (snd (adjacency pairs)) n c) groups.
Proof.
  destruct pairs as [|p pairs].
  { exists [], []. by repeat split. }
  unfold found_components, _build_groups.
  destruct (adjacency (p :: pairs)) as [graph pair_scores] eqn:Hadj. cbn [fst snd].
  destruct (component_step_scan self graph pair_scores (map fst graph) ∅ [] [] O)
    as (visited' & found' & groups' & counter' & Hscan & Hstep & Hmap & Hsize);
    [done|done|].
  rewrite Hscan, Hstep. exists found', (sort_groups groups'). repeat split.
  - rewrite <- Hmap. apply Permutation_map, sort_groups_Permutation.
  - by rewrite sort_groups_Permutation.
Qed.

(** [_build_groups] reports a component that the traversal finds if and
    only if the component has at least [min_group_size] authors; every
    group reported is such a component, and its [size] is the number of
    its authors. *)
Lemma groups_of_found_components (self : CoordinationDetector) (pairs : list CoordinatedPair) :
  exists (found : list (list string)) (groups : list CoordinatedGroup),
    found_components pairs = Some found
    /\ _build_groups self pairs = Some groups
    /\ (forall component, component ∈ found ->
          (exists g, g ∈ groups /\ author_ids g = component)
          <-> (self_min_group_size self <= Z.of_nat (length component))%Z)
    /\ (forall g, g ∈ groups ->
          author_ids g ∈ found
          /\ (self_min_group_size self <= group_size g)%Z
          /\ group_size g = Z.of_nat (length (author_ids g))).
Proof.
  destruct (build_groups_found self pairs) as (found & groups & Hfound & Hbuild & Hperm & Hsize).
  exists found, groups. split; [done|]. split; [done|].
  assert (forall component, component ∈ map author_ids groups
            <-> component ∈ found /\ large_enough self component) as Hiff.
  { intros component. rewrite Hperm, list_elem_of_filter. tauto. }
  split.
  - intros component Hin. split.
    + intros (g & Hg & <-). apply (Hiff (author_ids g)).
      apply list_elem_of_fmap. by exists g.
    + intros Hle. assert (component ∈ map author_ids groups) as Hc by by apply Hiff.
      apply list_elem_of_fmap in Hc as (g & -> & Hg). by exists g.
  - intros g Hg. rewrite Forall_forall in Hsize.
    assert (author_ids g ∈ map author_ids groups) as Hc.
    { apply list_elem_of_fmap. by exists g. }
    apply Hiff in Hc as [Hc Hle].
    destruct (Hsize g Hg) as (n & c & ->).
    rewrite make_group_size. by rewrite make_group_author_ids in Hc, Hle |- *.
Qed.

(** C4.  On the posts of [two_narratives] the authors "alice" and "bob"
    yield a pair record in "n1" and one in "n2"; the one group reported
    holds both authors, the pair records of its authors name "n1" and
    "n2", and its [narrative_ids] name "n2" alone: the record of "n1" was
    overwritten in [pair_scores]. *)
Lemma group_narratives_drop_repeated_pair :
  exists (pairs : list CoordinatedPair) (g : CoordinatedGroup),
    detect_from_posts (H := constant_similarity) default_detector some_embeddings two_narratives
    = Some (pairs, [g])
    /\ author_ids g = ["alice"; "carol"; "bob"]
    /\ narrative_ids g = ["n2"]
    /\ elements (narratives_of_component pairs (author_ids g)) = ["n1"; "n2"].
Proof.
  eexists _, _. split; [vm_compute; reflexivity|].
  split; [reflexivity|]. split; [reflexivity|]. vm_compute. reflexivity.
Qed.

(** ** The constructor *)

(** C10.  A zero passed for [time_window_minutes], [similarity_threshold]
    or [min_group_size] is replaced by the setting, as an argument left
    out is; with the default settings these are 60 minutes, 0.85 and 3. *)
Theorem init_zero_is_default (settings : Settings)
    (minutes size : option Z) (threshold : option Q) :
  time_window (init settings (Some 0%Z) threshold size)
  = timedelta_minutes (time_window_minutes (coordination settings))
  /\ self_similarity_threshold (init settings minutes (Some 0) size)
     = similarity_threshold (coordination settings)
  /\ self_min_group_size (init settings minutes threshold (Some 0%Z))
     = min_group_size (coordination settings)
  /\ init settings (Some 0%Z) (Some 0) (Some 0%Z) = init settings None None None
  /\ time_window (init default_settings (Some 0%Z) (Some 0) (Some 0%Z)) = timedelta_minutes 60
  /\ self_similarity_threshold (init default_settings (Some 0%Z) (Some 0) (Some 0%Z)) = 0.85
  /\ self_min_group_size (init default_settings (Some 0%Z) (Some 0) (Some 0%Z)) = 3%Z.
Proof. repeat split. Qed.

(** ** The risk engine *)

(** The level of a risk record is that of the score before rounding, and
    its score is that score rounded. *)
Lemma narrative_risk_level (settings : Settings) (narrative : NarrativeMetadata)
    (posts : list NormalizedPost) (groups : list CoordinatedGroup) :
  let raw := weighted_score (weights (risk settings))
               (risk_components settings narrative posts groups) in
  let r := _calculate_narrative_risk settings narrative posts groups in
  components r = risk_components settings narrative posts groups
  /\ risk_score r = round4 raw
  /\ risk_level r = level_of (thresholds (risk settings)) raw.
Proof. repeat split. Qed.







(** C9.  The level of a record is decided by the weighted sum before
    rounding, and the score of the record is that sum rounded: so a record
    can show a score equal to the high threshold 0.8 with the level
    MEDIUM, and one equal to the medium threshold 0.6 with the level LOW. *)
Theorem risk_score_rounded_after_level :
  (forall (settings : Settings) (narrative : NarrativeMetadata)
          (posts : list NormalizedPost) (groups : list CoordinatedGroup),
     let raw := weighted_score (weights (risk settings))
                  (risk_components settings narrative posts groups) in
     let r := _calculate_narrative_risk settings narrative posts groups in
     risk_score r = round4 raw /\ risk_level r = level_of (thresholds (risk settings)) raw)
  /\ (exists (narrative : NarrativeMetadata) (posts : list NormalizedPost)
             (groups : list CoordinatedGroup),
        let r := _calculate_narrative_risk default_settings narrative posts groups in
        risk_score r == 0.8 /\ risk_level r = MEDIUM)
  /\ (exists (narrative : NarrativeMetadata) (posts : list NormalizedPost)
             (groups : list CoordinatedGroup),
        let r := _calculate_narrative_risk default_settings narrative posts groups in
        risk_score r == 0.6 /\ risk_level r = LOW).
Proof.
  split; [|split].
  - intros settings narrative posts groups raw r. split; reflexivity.
  - exists risky_narrative, risky_posts, risky_groups. split; vm_compute; reflexivity.
  - exists wide_narrative, risky_posts, loose_groups. split; vm_compute; reflexivity.
Qed.

(** ** The velocity score *)

Lemma filter_ext_elem {A} (P1 P2 : A -> Prop) `{!forall x, Decision (P1 x)}
    `{!forall x, Decision (P2 x)} (l : list A) :
  (forall x, x ∈ l -> P1 x <-> P2 x) -> filter P1 l = filter P2 l.
Proof.
  induction l as [|x l IH]; intros Hext; [done|].
  assert (filter P1 l = filter P2 l) as Hl.
  { apply IH. intros y Hy. apply Hext. by right. }
  destruct (decide (P1 x)) as [H1|H1].
  - rewrite !filter_cons_True; [by rewrite Hl|by apply Hext; [left|]|done].
  - rewrite !filter_cons_False; [done| |done]. intros H2. apply H1, Hext; [left|done].
Qed.

Lemma length_filter_fmap {A B} (f : A -> B) (P : B -> Prop) `{!forall x, Decision (P x)}
    (l : list A) :
  length (filter P (f <$> l)) = length (filter (fun x => P (f x)) l).
Proof.
  induction l as [|x l IH]; [done|]. rewrite fmap_cons.
  destruct (decide (P (f x))).
  - rewrite !filter_cons_True by done. simpl. by rewrite IH.
  - by rewrite !filter_cons_False.
Qed.

Lemma length_filter_Permutation {A} (P : A -> Prop) `{!forall x, Decision (P x)}
    (l l' : list A) :
  l ≡ₚ l' -> length (filter P l) = length (filter P l').
Proof. intros Hp. apply Permutation_length. by rewrite Hp. Qed.

Lemma bursts_by_position_cons (window t : Z) (rest : list Z) :
  bursts_by_position window (t :: rest)
  = ((if (5 <=? length (filter (fun other => (other - t <= window)%Z) (t :: rest)))%nat
      then 1 else 0)
     + bursts_by_position window rest)%nat.
Proof.
  unfold bursts_by_position. cbn [length seq]. rewrite <- fmap_S_seq.
  destruct (Nat.leb_spec 5 (length (filter (fun other => (other - t <= window)%Z) (t :: rest))))
    as [Hle|Hlt].
  - rewrite filter_cons_True by exact Hle. cbn [length]. rewrite length_filter_fmap.
    reflexivity.
  - rewrite filter_cons_False.
    + rewrite length_filter_fmap. reflexivity.
    + intros Hle. change (5 <= length (filter (fun other => (other - t <= window)%Z)
                                              (t :: rest)))%nat in Hle. lia.
Qed.

(** The loop of the code counts the bursts by position. *)
Lemma burst_count_by_position (window : Z) (l : list Z) :
  burst_count window l = bursts_by_position window l.
Proof.
  induction l as [|t rest IH]; [done|].
  rewrite bursts_by_position_cons, <- IH. reflexivity.
Qed.

(** On timestamps in increasing order, no two alike, counting by
    position and counting by time agree. *)
Lemma burst_count_by_time_sorted (window : Z) (l : list Z) :
  StronglySorted Z.le l -> NoDup l -> burst_count window l = bursts_by_time window l.
Proof.
  induction 1 as [|t rest Hsorted IH Hall]; intros Hnd; [done|].
  apply NoDup_cons in Hnd as [Hfresh Hnd]. rewrite Forall_forall in Hall.
  unfold bursts_by_time. cbn [burst_count].
  assert (filter (fun other => (t <= other /\ other - t <= window)%Z) (t :: rest)
          = filter (fun other => (other - t <= window)%Z) (t :: rest)) as Hhead.
  { apply filter_ext_elem. intros x [->|Hx]%elem_of_cons; [lia|].
    specialize (Hall x Hx). lia. }
  assert (filter (fun x => (5 <= length (filter (fun other => (x <= other /\ other - x <= window)%Z)
                                                (t :: rest)))%nat) rest
          = filter (fun x => (5 <= length (filter (fun other => (x <= other /\ other - x <= window)%Z)
                                                  rest))%nat) rest) as Htail.
  { apply filter_ext_elem. intros x Hx. rewrite filter_cons_False; [done|].
    specialize (Hall x Hx). assert (t <> x) by (intros ->; done). lia. }
  destruct (Nat.leb_spec 5 (length (filter (fun other => (other - t <= window)%Z) (t :: rest))))
    as [Hle|Hlt].
  - rewrite filter_cons_True by (rewrite Hhead; exact Hle).
    cbn [length]. rewrite Htail, IH by done. reflexivity.
  - rewrite filter_cons_False by (rewrite Hhead; lia).
    rewrite Htail, IH by done. reflexivity.
Qed.

Lemma bursts_by_time_Permutation (window : Z) (l l' : list Z) :
  l ≡ₚ l' -> bursts_by_time window l = bursts_by_time window l'.
Proof.
  intros Hp. unfold bursts_by_time.
  rewrite (length_filter_Permutation _ l l' Hp). f_equal.
  apply list_filter_iff. intros t.
  by rewrite (length_filter_Permutation _ l l' Hp).
Qed.

Lemma sorted_Permutation (ts : list Z) : sorted ts ≡ₚ ts.
Proof. apply merge_sort_Permutation. Qed.

Lemma sorted_StronglySorted (ts : list Z) : StronglySorted Z.le (sorted ts).
Proof. apply (StronglySorted_merge_sort Z.le). Qed.

(** With no two timestamps alike the loop counts the posts that have at
    least five posts in the window that starts with them. *)
Lemma burst_count_distinct (window : Z) (ts : list Z) :
  NoDup ts -> burst_count window (sorted ts) = bursts_by_time window ts.
Proof.
  intros Hnd. rewrite burst_count_by_time_sorted.
  - apply bursts_by_time_Permutation, sorted_Permutation.
  - apply sorted_StronglySorted.
  - by rewrite sorted_Permutation.
Qed.

Lemma earliest_spec (t : Z) (rest : list Z) :
  earliest (t :: rest) ∈ t :: rest /\ forall x, x ∈ t :: rest -> (earliest (t :: rest) <= x)%Z.
Proof.
  unfold earliest. induction rest as [|y rest [IHin IHle]]; simpl.
  { split; [left|]. intros x ->%list_elem_of_singleton. lia. }
  split.
  - destruct (Z.min_spec y (foldr Z.min t rest)) as [[_ ->]|[_ ->]]; [right; left|].
    apply elem_of_cons in IHin as [->|?]; [left|right; by right].
  - intros x Hx. apply elem_of_cons in Hx as [->|Hx]; [specialize (IHle t ltac:(left)); lia|].
    apply elem_of_cons in Hx as [->|Hx]; [lia|].
    specialize (IHle x ltac:(by right)). lia.
Qed.

Lemma latest_spec (t : Z) (rest : list Z) :
  latest (t :: rest) ∈ t :: rest /\ forall x, x ∈ t :: rest -> (x <= latest (t :: rest))%Z.
Proof.
  unfold latest. induction rest as [|y rest [IHin IHle]]; simpl.
  { split; [left|]. intros x ->%list_elem_of_singleton. lia. }
  split.
  - destruct (Z.max_spec y (foldr Z.max t rest)) as [[_ ->]|[_ ->]]; [|right; left].
    apply elem_of_cons in IHin as [->|?]; [left|right; by right].
  - intros x Hx. apply elem_of_cons in Hx as [->|Hx]; [specialize (IHle t ltac:(left)); lia|].
    apply elem_of_cons in Hx as [->|Hx]; [lia|].
    specialize (IHle x ltac:(by right)). lia.
Qed.

Lemma earliest_Permutation (l l' : list Z) : l ≡ₚ l' -> earliest l = earliest l'.
Proof.
  intros Hp. destruct l as [|t rest], l' as [|t' rest']; [done| | |].
  - by apply Permutation_nil_cons in Hp.
  - symmetry in Hp. by apply Permutation_nil_cons in Hp.
  - destruct (earliest_spec t rest) as [Hin Hle], (earliest_spec t' rest') as [Hin' Hle'].
    assert (earliest (t :: rest) ∈ t' :: rest') as Hin2 by (by rewrite <- Hp).
    assert (earliest (t' :: rest') ∈ t :: rest) as Hin2' by (by rewrite Hp).
    specialize (Hle _ Hin2'). specialize (Hle' _ Hin2). lia.
Qed.

Lemma latest_Permutation (l l' : list Z) : l ≡ₚ l' -> latest l = latest l'.
Proof.
  intros Hp. destruct l as [|t rest], l' as [|t' rest']; [done| | |].
  - by apply Permutation_nil_cons in Hp.
  - symmetry in Hp. by apply Permutation_nil_cons in Hp.
  - destruct (latest_spec t rest) as [Hin Hle], (latest_spec t' rest') as [Hin' Hle'].
    assert (latest (t :: rest) ∈ t' :: rest') as Hin2 by (by rewrite <- Hp).
    assert (latest (t' :: rest') ∈ t :: rest) as Hin2' by (by rewrite Hp).
    specialize (Hle _ Hin2'). specialize (Hle' _ Hin2). lia.
Qed.

Lemma earliest_sorted (l : list Z) : StronglySorted Z.le l -> hd 0%Z l = earliest l.
Proof.
  destruct 1 as [|t rest Hsorted Hall]; [done|]. rewrite Forall_forall in Hall.
  destruct (earliest_spec t rest) as [Hin Hle]. simpl hd.
  specialize (Hle t ltac:(left)).
  apply elem_of_cons in Hin as [Heq|Hin]; [done|]. specialize (Hall _ Hin). lia.
Qed.

Lemma latest_sorted (l : list Z) : StronglySorted Z.le l -> List.last l 0%Z = latest l.
Proof.
  induction 1 as [|t rest Hsorted IH Hall]; [done|]. rewrite Forall_forall in Hall.
  destruct rest as [|y rest]; [done|].
  change (List.last (t :: y :: rest) 0%Z) with (List.last (y :: rest) 0%Z). rewrite IH.
  destruct (latest_spec y rest) as [Hin Hle], (latest_spec t (y :: rest)) as [Hin' Hle'].
  specialize (Hle' (latest (y :: rest)) ltac:(by right)).
  apply elem_of_cons in Hin' as [Heq|Hin'].
  - specialize (Hall _ Hin). lia.
  - specialize (Hle _ Hin'). lia.
Qed.

(** The span the code measures on the sorted timestamps is that from the
    earliest to the latest timestamp. *)
Lemma time_span_sorted (ts : list Z) :
  time_span (sorted ts) = total_seconds (latest ts - earliest ts).
Proof.
  unfold time_span.
  rewrite (latest_sorted _ (sorted_StronglySorted ts)).
  rewrite (earliest_sorted _ (sorted_StronglySorted ts)).
  by rewrite (latest_Permutation _ _ (sorted_Permutation ts)),
             (earliest_Permutation _ _ (sorted_Permutation ts)).
Qed.

Lemma earliest_le_latest (ts : list Z) : (earliest ts <= latest ts)%Z.
Proof.
  destruct ts as [|t rest]; [done|].
  destruct (earliest_spec t rest) as [Hin Hle], (latest_spec t rest) as [Hin' Hle'].
  by apply Hle'.
Qed.

Lemma total_seconds_nonpos (d : Z) : Qle_bool (total_seconds d) 0 = true <-> (d <= 0)%Z.
Proof. rewrite Qle_bool_iff. unfold total_seconds, Qle. simpl. lia. Qed.

Lemma burst_ratio_eq (window : Z) (timestamps : list Z) :
  burst_ratio window timestamps
  = inject_Z (Z.of_nat (burst_count window timestamps)) / len timestamps.
Proof. by destruct timestamps. Qed.

Lemma len_sorted_timestamps (posts : list NormalizedPost) :
  len (sorted (map timestamp posts)) = len posts.
Proof.
  unfold len. by rewrite (Permutation_length (sorted_Permutation _)), length_map.
Qed.

(** Two timestamps that differ span some time. *)
Lemma span_of_distinct (ts : list Z) :
  NoDup ts -> (2 <= length ts)%nat -> (latest ts - earliest ts)%Z <> 0%Z.
Proof.
  intros Hnd Hlen Hz. destruct ts as [|t1 [|t2 rest]]; simpl in Hlen; [lia|lia|].
  apply NoDup_cons in Hnd as [Hfresh _].
  pose proof (earliest_spec t1 (t2 :: rest)) as [_ Hmin].
  pose proof (latest_spec t1 (t2 :: rest)) as [_ Hmax].
  assert (t2 ∈ t1 :: t2 :: rest) as H2 by (right; left).
  assert (t1 ∈ t1 :: t2 :: rest) as H1 by left.
  pose proof (Hmin t1 H1). pose proof (Hmin t2 H2).
  pose proof (Hmax t1 H1). pose proof (Hmax t2 H2).
  assert (t1 = t2) as -> by lia. apply Hfresh. left.
Qed.

(** C7, as the code has it.  The velocity score is 0.0 for fewer than 2
    posts, 1.0 when the span from the earliest to the latest timestamp is
    zero, and otherwise min(min(posts_per_hour/10, 1) + burst_ratio*0.2, 1)
    rounded to 4 decimals, where burst_ratio is the fraction of positions
    of the time-sorted posts with at least 5 posts, from that position on,
    not later than 15 minutes after it.  When no two posts share a
    timestamp, these are the posts with at least 5 posts, themselves
    included, in the 15 minutes from their timestamp on, and the score is
    the one the specification words.  The rounding is stated as
    [rounded4] has it: the floating point of the code decides the last
    digit at a decimal tie. *)
Theorem velocity_score_cases (posts : list NormalizedPost) :
  let ts := map timestamp posts in
  let span := (latest ts - earliest ts)%Z in
  let window := timedelta_minutes 15 in
  let posts_per_hour := len posts / (total_seconds span / 3600) in
  let ratio :=
    inject_Z (Z.of_nat (bursts_by_position window (sorted ts))) / len posts in
  let claimed_ratio :=
    inject_Z (Z.of_nat (bursts_by_time window ts)) / len posts in
  ((length posts < 2)%nat -> calculate_velocity_score posts = 0)
  /\ ((2 <= length posts)%nat -> span = 0%Z -> calculate_velocity_score posts = 1)
  /\ ((2 <= length posts)%nat -> span <> 0%Z ->
      rounded4 (Qmin (Qmin (posts_per_hour / 10) 1 + ratio * 0.2) 1)
               (calculate_velocity_score posts))
  /\ (NoDup ts -> bursts_by_position window (sorted ts) = bursts_by_time window ts)
  /\ (NoDup ts -> (2 <= length posts)%nat ->
      rounded4 (Qmin (Qmin (posts_per_hour / 10) 1 + claimed_ratio * 0.2) 1)
               (calculate_velocity_score posts)).
Proof.
  intros ts span window posts_per_hour ratio claimed_ratio.
  pose proof (earliest_le_latest ts) as Hspan.
  assert ((2 <= length posts)%nat -> span <> 0%Z ->
          calculate_velocity_score posts
          = round4 (Qmin (Qmin (posts_per_hour / 10) 1 + ratio * 0.2) 1)) as Hgen.
  { intros Hlen Hs. unfold calculate_velocity_score.
    destruct (Nat.ltb_spec (length posts) 2) as [?|_]; [lia|].
    rewrite burst_ratio_eq, time_span_sorted, len_sorted_timestamps, burst_count_by_position.
    fold ts span.
    destruct (Qle_bool (total_seconds span) 0) eqn:E; [|reflexivity].
    apply total_seconds_nonpos in E. unfold span in *. lia. }
  assert (NoDup ts -> bursts_by_position window (sorted ts) = bursts_by_time window ts) as Hnd.
  { intros Hts. rewrite <- burst_count_by_position. by apply burst_count_distinct. }
  split; [|split; [|split; [|split; [done|]]]].
  - intros Hlen. unfold calculate_velocity_score.
    by destruct (Nat.ltb_spec (length posts) 2) as [_|?]; [|lia].
  - intros Hlen Hs. unfold calculate_velocity_score.
    destruct (Nat.ltb_spec (length posts) 2) as [?|_]; [lia|].
    rewrite time_span_sorted. fold ts span.
    by rewrite (proj2 (total_seconds_nonpos span)) by lia.
  - intros Hlen Hs. rewrite Hgen by done. apply round4_rounded4.
  - intros Hts Hlen.
    assert (span <> 0%Z) as Hs.
    { apply span_of_distinct; [done|]. unfold ts. by rewrite length_map. }
    rewrite Hgen by done. unfold ratio, claimed_ratio. rewrite Hnd by done.
    apply round4_rounded4.
Qed.

Lemma velocity_score_cases_witness :
  NoDup (map timestamp spaced_posts)
  /\ bursts_by_position (timedelta_minutes 15) (sorted (map timestamp spaced_posts))
     = bursts_by_time (timedelta_minutes 15) (map timestamp spaced_posts).
Proof.
  assert (NoDup (map timestamp spaced_posts)) as Hnd
    by (refine (bool_decide_unpack _ _); vm_compute; exact I).
  split; [exact Hnd|].
  exact (proj1 (proj2 (proj2 (proj2 (velocity_score_cases spaced_posts)))) Hnd).
Defined.

(** C7, as it is stated, fails: of five posts at the same second and one
    an hour later, each of the five has five posts in its window, so the
    burst ratio of the specification is 5/6 and its score 0.7667; the
    loop counts one burst and the score is 0.6333. *)
Lemma velocity_score_tied_timestamps :
  calculate_velocity_score tied_posts == 0.6333
  /\ claimed_velocity_score tied_posts == 0.7667
  /\ ~ calculate_velocity_score tied_posts == claimed_velocity_score tied_posts.
Proof. repeat split; vm_compute; congruence. Qed.

(** ** Score bounds *)

Lemma inject_nat_nonneg (n : nat) : 0 <= inject_Z (Z.of_nat n).
Proof. change 0 with (inject_Z 0). rewrite <- Zle_Qle. lia. Qed.

Lemma inject_nat_le (n m : nat) : (n <= m)%nat -> inject_Z (Z.of_nat n) <= inject_Z (Z.of_nat m).
Proof. intros Hle. rewrite <- Zle_Qle. lia. Qed.

Lemma inject_nat_pos (n : nat) : (0 < n)%nat -> 0 < inject_Z (Z.of_nat n).
Proof. intros Hlt. change 0 with (inject_Z 0). rewrite <- Zlt_Qlt. lia. Qed.

Lemma div_nonneg (a b : Q) : 0 <= a -> 0 <= b -> 0 <= a / b.
Proof.
  intros Ha Hb. unfold Qdiv. apply Qmult_le_0_compat; [done|].
  by apply Qinv_le_0_compat.
Qed.

(** A part of a whole is a fraction between 0 and 1. *)
Lemma ratio_unit (n d : nat) :
  (n <= d)%nat -> (0 < d)%nat ->
  0 <= inject_Z (Z.of_nat n) / inject_Z (Z.of_nat d) <= 1.
Proof.
  intros Hle Hpos. pose proof (inject_nat_nonneg n). pose proof (inject_nat_pos d Hpos).
  pose proof (inject_nat_le n d Hle). split.
  - apply div_nonneg; lra.
  - apply Qle_shift_div_r; lra.
Qed.

(** [round(min(x, 1.0), 4)] of a score that is not negative. *)
Lemma clamp_unit (x : Q) : 0 <= x -> 0 <= round4 (Qmin x 1) <= 1.
Proof.
  intros Hx. apply round4_unit. split.
  - apply Q.min_glb; lra.
  - apply Q.le_min_r.
Qed.

Lemma py_sum_bounds (l : list Q) (a : Q) :
  Forall (fun x => 0 <= x <= 1) l ->
  a <= foldl Qplus a l /\ foldl Qplus a l <= a + len l.
Proof.
  unfold len. revert a. induction l as [|x l IH]; intros a Hall; simpl.
  { change (inject_Z (Z.of_nat 0)) with 0. lra. }
  apply Forall_cons in Hall as [[Hx0 Hx1] Hall].
  destruct (IH (a + x) Hall) as [Hlo Hhi].
  rewrite Nat2Z.inj_succ, <- Z.add_1_r, inject_Z_plus.
  change (inject_Z 1) with 1. lra.
Qed.

(** The mean of scores between 0 and 1. *)
Lemma average_unit (l : list Q) :
  l <> [] -> Forall (fun x => 0 <= x <= 1) l -> 0 <= py_sum l / len l <= 1.
Proof.
  intros Hne Hall. destruct (py_sum_bounds l 0 Hall) as [Hlo Hhi].
  assert (0 < len l) as Hpos.
  { apply inject_nat_pos. destruct l; [done|simpl; lia]. }
  unfold py_sum. split.
  - apply div_nonneg; lra.
  - apply Qle_shift_div_r; lra.
Qed.

Lemma py_sum_nonneg (l : list Q) (a : Q) :
  Forall (fun x => 0 <= x) l -> 0 <= a -> 0 <= foldl Qplus a l.
Proof.
  revert a. induction l as [|x l IH]; intros a Hall Ha; simpl; [done|].
  apply Forall_cons in Hall as [Hx Hall]. apply IH; [done|lra].
Qed.

Lemma overlap_unit (a b : list string) : 0 <= overlap a b <= 1.
Proof.
  unfold overlap, shared. apply ratio_unit; [|lia].
  etrans; [|apply Nat.le_max_l]. apply subseteq_size.
  intros x [Hx _]%elem_of_intersection. apply elem_of_union. by left.
Qed.

Lemma velocity_unit (posts : list NormalizedPost) :
  0 <= calculate_velocity_score posts <= 1.
Proof.
  unfold calculate_velocity_score.
  destruct (length posts <? 2)%nat; [lra|].
  destruct (Qle_bool (time_span (sorted (map timestamp posts))) 0) eqn:E; [lra|].
  assert (0 < time_span (sorted (map timestamp posts))) as Hspan.
  { apply Qnot_le_lt. rewrite <- Qle_bool_iff. congruence. }
  apply clamp_unit.
  assert (0 <= Qmin (len posts / (time_span (sorted (map timestamp posts)) / 3600) / 10) 1)
    as Hbase.
  { apply Q.min_glb; [|lra].
    apply div_nonneg; [|lra]. apply div_nonneg; [apply inject_nat_nonneg|].
    apply div_nonneg; lra. }
  assert (0 <= burst_ratio (timedelta_minutes 15) (sorted (map timestamp posts))) as Hratio.
  { rewrite burst_ratio_eq. apply div_nonneg; apply inject_nat_nonneg. }
  lra.
Qed.

Lemma toxicity_step_le (posts : list NormalizedPost) (st : nat * nat) :
  (fst st <= snd st)%nat ->
  (fst (foldl toxicity_step st posts) <= snd (foldl toxicity_step st posts))%nat.
Proof.
  revert st. induction posts as [|p posts IH]; intros st Hst; [done|].
  simpl. apply IH. unfold toxicity_step. simpl.
  pose proof (length_filter (fun word => clean word ∈ toxic_keywords) (split (lower (text p)))).
  lia.
Qed.

Lemma toxicity_unit (posts : list NormalizedPost) :
  0 <= calculate_toxicity_score posts <= 1.
Proof.
  unfold calculate_toxicity_score. destruct posts as [|p posts]; [lra|].
  pose proof (toxicity_step_le (p :: posts) (O, O) ltac:(done)) as Hle.
  destruct (foldl toxicity_step (O, O) (p :: posts)) as [toxic_count total_words].
  simpl in Hle. destruct (Nat.eqb_spec total_words 0) as [_|Hne]; [lra|].
  apply clamp_unit. apply div_nonneg; [|lra].
  apply ratio_unit; lia.
Qed.

Lemma foreign_step_subseteq (tlds : list string) (ds : list string)
    (st : gset string * gset string) :
  snd st ⊆ fst st ->
  snd (foldl (foreign_step tlds) st ds) ⊆ fst (foldl (foreign_step tlds) st ds).
Proof.
  revert st. induction ds as [|d ds IH]; intros st Hst; [done|].
  simpl. apply IH. unfold foreign_step. simpl.
  destruct (existsb (endswith d) tlds).
  - by apply union_mono_r.
  - by apply union_subseteq_l'.
Qed.

Lemma foreign_loop_subseteq (tlds : list string) (posts : list NormalizedPost)
    (st : gset string * gset string) :
  snd st ⊆ fst st ->
  snd (foldl (fun st p => foldl (foreign_step tlds) st (domains p)) st posts)
  ⊆ fst (foldl (fun st p => foldl (foreign_step tlds) st (domains p)) st posts).
Proof.
  revert st. induction posts as [|p posts IH]; intros st Hst; [done|].
  simpl. apply IH. by apply foreign_step_subseteq.
Qed.

Lemma foreign_domain_unit (settings : Settings) (posts : list NormalizedPost)
    (tlds : option (list string)) :
  0 <= calculate_foreign_domain_score settings posts tlds <= 1.
Proof.
  unfold calculate_foreign_domain_score. destruct posts as [|p posts]; [lra|].
  assert (snd (∅ : gset string, ∅ : gset string) ⊆ fst (∅ : gset string, ∅ : gset string))
    as Hinit by reflexivity.
  pose proof (foreign_loop_subseteq (or_list tlds (foreign_tlds (risk settings)))
                (p :: posts) (∅, ∅) Hinit) as Hsub.
  destruct (foldl _ (∅, ∅) (p :: posts)) as [all_domains foreign_domains].
  simpl in Hsub. destruct (Nat.eqb_spec (size all_domains) 0) as [_|Hne]; [lra|].
  apply round4_unit, ratio_unit; [by apply subseteq_size|lia].
Qed.

Lemma indicators_unit (frequency repetition regularity links : Q) :
  0 <= frequency -> 0 <= repetition -> 0 <= regularity -> 0 <= links ->
  0 <= Qmin (0 + frequency + repetition + regularity + links) 1 <= 1.
Proof.
  intros. split; [|apply Q.le_min_r]. apply Q.min_glb; lra.
Qed.

Lemma author_indicators_unit (author_posts_list : list NormalizedPost) :
  0 <= author_indicators author_posts_list <= 1.
Proof.
  unfold author_indicators. cbv zeta. apply indicators_unit; repeat case_match; lra.
Qed.

Lemma bot_score_unit (posts : list NormalizedPost) : 0 <= calculate_bot_score posts <= 1.
Proof.
  unfold calculate_bot_score. destruct posts as [|p posts]; [lra|].
  set (author_posts := foldl (fun d p => dict_append (author_id p) p d) [] (p :: posts)).
  set (bot_indicators := flat_map _ author_posts).
  assert (Forall (fun x => 0 <= x <= 1) bot_indicators) as Hall.
  { apply Forall_forall. intros x Hx. unfold bot_indicators in Hx.
    apply list_elem_of_In, in_flat_map in Hx as (entry & _ & Hx).
    destruct (length (snd entry) <? 2)%nat; [done|].
    destruct Hx as [<-|[]]. apply author_indicators_unit. }
  destruct bot_indicators as [|x rest] eqn:E; [lra|].
  apply round4_unit, average_unit; done.
Qed.

Lemma coordination_step_nonneg (groups : list CoordinatedGroup) (st : gset string * Q) :
  Forall sound_group groups -> 0 <= snd st -> 0 <= snd (foldl coordination_step st groups).
Proof.
  revert st. induction groups as [|g groups IH]; intros st Hall Hst; [done|].
  apply Forall_cons in Hall as [[Hscore Hsize] Hall]. simpl. apply IH; [done|].
  unfold coordination_step. simpl.
  assert (0 <= inject_Z (group_size g)) by (change 0 with (inject_Z 0); by rewrite <- Zle_Qle).
  assert (0 <= group_score g * inject_Z (group_size g)) by by apply Qmult_le_0_compat.
  lra.
Qed.

(** The coordination density of groups of sound score and size. *)
Lemma coordination_unit (nid : string) (groups : list CoordinatedGroup) (total_authors : Z) :
  Forall sound_group groups ->
  0 <= calculate_coordination_score nid groups total_authors <= 1.
Proof.
  intros Hall. unfold calculate_coordination_score.
  destruct (Z.leb_spec total_authors 1) as [_|Htotal]; [lra|].
  destruct (filter (fun g => nid ∈ narrative_ids g) groups) as [|g relevant] eqn:E; [lra|].
  assert (Forall sound_group (g :: relevant)) as Hrel.
  { rewrite <- E. rewrite Forall_forall in Hall |- *.
    intros x [_ Hx]%list_elem_of_filter. by apply Hall. }
  pose proof (coordination_step_nonneg (g :: relevant) (∅, 0) Hrel ltac:(simpl; lra)) as Hsum.
  destruct (foldl coordination_step (∅, 0) (g :: relevant))
    as [coordinated_authors total_group_score].
  simpl in Hsum. apply clamp_unit.
  assert (0 <= inject_Z total_authors)
    by (change 0 with (inject_Z 0); rewrite <- Zle_Qle; lia).
  pose proof (inject_nat_nonneg (size coordinated_authors)).
  assert (0 <= inject_Z (Z.of_nat (size coordinated_authors)) / inject_Z total_authors)
    by by apply div_nonneg.
  assert (0 <= (if (size coordinated_authors =? 0)%nat then 0
                else total_group_score / inject_Z (Z.of_nat (size coordinated_authors)))).
  { destruct (size coordinated_authors =? 0)%nat; [lra|by apply div_nonneg]. }
  lra.
Qed.

(** The five risk components of any narrative and posts, with groups of
    sound score and size, lie between 0 and 1. *)
Lemma risk_components_unit (settings : Settings) (narrative : NarrativeMetadata)
    (posts : list NormalizedPost) (groups : list CoordinatedGroup) :
  Forall sound_group groups ->
  let c := risk_components settings narrative posts groups in
  0 <= velocity c <= 1
  /\ 0 <= coordination_density c <= 1
  /\ 0 <= bot_score c <= 1
  /\ 0 <= foreign_domain_ratio c <= 1
  /\ 0 <= toxicity c <= 1.
Proof.
  intros Hall c. unfold c, risk_components. cbn [velocity coordination_density bot_score
    foreign_domain_ratio toxicity].
  split; [apply velocity_unit|]. split; [by apply coordination_unit|].
  split; [apply bot_score_unit|]. split; [apply foreign_domain_unit|apply toxicity_unit].
Qed.

(** Every record of [pair_scores] is one of the pairs. *)
Lemma adjacency_values (pairs : list CoordinatedPair)
    (st : list (string * gset string) * gmap (string * string) CoordinatedPair)
    (P : CoordinatedPair -> Prop) :
  (forall k p, snd st !! k = Some p -> P p) -> Forall P pairs ->
  forall k p, snd (foldl add_pair st pairs) !! k = Some p -> P p.
Proof.
  revert st. induction pairs as [|q pairs IH]; intros st Hst Hall; [done|].
  apply Forall_cons in Hall as [Hq Hall]. simpl. apply IH; [|done].
  intros k p. unfold add_pair. cbn [snd]. rewrite lookup_insert.
  case_decide; [by intros [= <-]|apply Hst].
Qed.

Lemma score_step_nonneg (pair_scores : gmap (string * string) CoordinatedPair)
    (a1 : string) (rest : list string) (st : list Q * gset string) :
  (forall k p, pair_scores !! k = Some p -> 0 <= score p) ->
  Forall (fun x => 0 <= x) (fst st) ->
  Forall (fun x => 0 <= x) (fst (foldl (score_step pair_scores a1) st rest)).
Proof.
  intros Hps. revert st. induction rest as [|a2 rest IH]; intros st Hst; [done|].
  simpl. apply IH. unfold score_step.
  destruct (pair_scores !! sorted_key a1 a2) as [found|] eqn:E; [|done].
  cbn [fst]. apply Forall_app. split; [done|]. apply Forall_singleton. by apply (Hps _ _ E).
Qed.

Lemma score_loop_nonneg (pair_scores : gmap (string * string) CoordinatedPair)
    (component : list string) (st : list Q * gset string) :
  (forall k p, pair_scores !! k = Some p -> 0 <= score p) ->
  Forall (fun x => 0 <= x) (fst st) ->
  Forall (fun x => 0 <= x) (fst (score_loop pair_scores component st)).
Proof.
  intros Hps. revert st. induction component as [|a1 rest IH]; intros st Hst; [done|].
  simpl. apply IH. by apply score_step_nonneg.
Qed.

(** A group made from pair records of scores that are not negative is sound. *)
Lemma make_group_sound (pair_scores : gmap (string * string) CoordinatedPair)
    (counter : nat) (component : list string) :
  (forall k p, pair_scores !! k = Some p -> 0 <= score p) ->
  sound_group (make_group pair_scores counter component).
Proof.
  intros Hps. pose proof (score_loop_nonneg pair_scores component ([], ∅) Hps) as Hall.
  unfold make_group, sound_group.
  destruct (score_loop pair_scores component ([], ∅)) as [group_scores nids].
  cbn [group_score group_size fst] in *. split; [|lia].
  specialize (Hall ltac:(constructor)).
  destruct group_scores as [|x rest]; [lra|].
  apply div_nonneg; [|apply inject_nat_nonneg].
  by apply py_sum_nonneg.
Qed.

(** The groups built from pairs of scores that are not negative are sound. *)
Lemma build_groups_sound (self : CoordinationDetector) (pairs : list CoordinatedPair)
    (groups : list CoordinatedGroup) :
  Forall (fun p => 0 <= score p) pairs ->
  _build_groups self pairs = Some groups -> Forall sound_group groups.
Proof.
  intros Hpairs Hbuild.
  destruct (build_groups_found self pairs) as (found & groups' & _ & Hbuild' & _ & Hmade).
  rewrite Hbuild in Hbuild'. injection Hbuild' as <-.
  eapply Forall_impl; [exact Hmade|]. intros g (n & c & ->).
  apply make_group_sound. unfold adjacency.
  apply adjacency_values; [|done]. intros k p. cbn [snd]. by rewrite lookup_empty.
Qed.

Lemma coordination_at_most_1 (nid : string) (groups : list CoordinatedGroup)
    (total_authors : Z) :
  calculate_coordination_score nid groups total_authors <= 1.
Proof.
  unfold calculate_coordination_score.
  destruct (total_authors <=? 1)%Z; [lra|].
  destruct (filter (fun g => nid ∈ narrative_ids g) groups) as [|g relevant]; [lra|].
  destruct (foldl coordination_step (∅, 0) (g :: relevant))
    as [coordinated_authors total_group_score].
  assert (inject_Z 10000 / 10000 == 1) as E by reflexivity.
  apply (Qle_trans _ (inject_Z 10000 / 10000)); [|by rewrite E].
  apply round4_le_grid. rewrite E. apply Q.le_min_r.
Qed.

Section pair_bounds.
Context `{Sklearn}.
Variable embeddings : option (nat -> list Q).

(** Every pair emitted has a score of at least the threshold. *)
Lemma detect_all_pairs_threshold (self : CoordinationDetector)
    (posts : list NormalizedPost) (p : CoordinatedPair) :
  p ∈ detect_all_pairs self embeddings posts -> self_similarity_threshold self <= score p.
Proof.
  unfold detect_all_pairs. intros (entry & _ & Hp)%list_elem_of_In%in_flat_map.
  destruct (length (snd entry) <? 2)%nat; [done|].
  apply list_elem_of_In in Hp. unfold _detect_pairs_in_narrative in Hp.
  by apply pairs_loop_elem in Hp as (i & j & a1 & a2 & _ & _ & _ & _ & Hle).
Qed.

Hypothesis similarity_at_most_1 : forall idx1 idx2 : nat, text_sim embeddings idx1 idx2 <= 1.

Lemma pair_score_at_most_1 (p1 p2 : NormalizedPost * nat) :
  pair_score default_detector embeddings p1 p2 <= 1.
Proof.
  unfold pair_score. cbn [default_detector init text_weight domain_weight hashtag_weight
    default_settings coordination text_similarity_weight shared_domain_weight
    shared_hashtag_weight].
  pose proof (similarity_at_most_1 (snd p1) (snd p2)).
  pose proof (overlap_unit (domains (fst p1)) (domains (fst p2))).
  pose proof (overlap_unit (hashtags (fst p1)) (hashtags (fst p2))).
  lra.
Qed.

Lemma calculate_pair_score_at_most_1 (posts1 posts2 : list (NormalizedPost * nat)) :
  fst (_calculate_pair_score default_detector embeddings posts1 posts2) <= 1.
Proof.
  rewrite calculate_pair_score_fst.
  destruct (map _ (qualifying default_detector posts1 posts2)) as [|s rest] eqn:E; [lra|].
  pose proof (py_max_elem rest s) as Hin. rewrite <- E in Hin.
  apply list_elem_of_fmap in Hin as (pq & -> & _). apply pair_score_at_most_1.
Qed.

(** With similarities of at most 1, every pair the default detector
    emits has a score of at most 1. *)
Lemma detect_all_pairs_at_most_1 (posts : list NormalizedPost) (p : CoordinatedPair) :
  p ∈ detect_all_pairs default_detector embeddings posts -> score p <= 1.
Proof.
  unfold detect_all_pairs. intros (entry & _ & Hp)%list_elem_of_In%in_flat_map.
  destruct (length (snd entry) <? 2)%nat; [done|].
  apply list_elem_of_In in Hp. unfold _detect_pairs_in_narrative in Hp.
  apply pairs_loop_elem in Hp as (i & j & a1 & a2 & _ & _ & _ & Hp & _).
  rewrite Hp. apply calculate_pair_score_at_most_1.
Qed.

End pair_bounds.

(** C5, as the code has it.  The scores are bounded where the code
    bounds them.  A pair that the default detector emits has a score of
    at least the threshold 0.85; the score is a weighted sum that is not
    clamped, so it is at most 1 when the text similarities are.  Of the
    risk components of any narrative, posts and groups, the velocity,
    the bot score, the foreign domain ratio and the toxicity lie in
    [0, 1]; the coordination density is clamped from above only: it is
    at most 1, and it is not negative when no group has a negative score
    or size, which holds of the groups that the detector builds. *)
Theorem scores_within_their_clamps (sk : Sklearn)
    (embeddings : option (nat -> list Q)) (posts : list NormalizedPost) :
  (forall p, p ∈ detect_all_pairs default_detector embeddings posts ->
     0.85 <= score p
     /\ ((forall idx1 idx2 : nat, text_sim embeddings idx1 idx2 <= 1) -> score p <= 1))
  /\ (forall pairs groups,
        detect_from_posts default_detector embeddings posts = Some (pairs, groups) ->
        Forall sound_group groups)
  /\ forall (settings : Settings) (narrative : NarrativeMetadata)
            (posts_in_narrative : list NormalizedPost) (groups : list CoordinatedGroup),
       let c := components (_calculate_narrative_risk settings narrative
                              posts_in_narrative groups) in
       0 <= velocity c <= 1
       /\ 0 <= bot_score c <= 1
       /\ 0 <= foreign_domain_ratio c <= 1
       /\ 0 <= toxicity c <= 1
       /\ coordination_density c <= 1
       /\ (Forall sound_group groups -> 0 <= coordination_density c).
Proof.
  assert (forall p, p ∈ detect_all_pairs default_detector embeddings posts -> 0.85 <= score p)
    as Hlow.
  { intros p Hp. by apply (detect_all_pairs_threshold embeddings default_detector posts). }
  split; [|split].
  - intros p Hp. split; [by apply Hlow|].
    intros Hsim. by apply (detect_all_pairs_at_most_1 embeddings Hsim posts).
  - intros pairs groups Hdetect. unfold detect_from_posts in Hdetect.
    destruct (_build_groups default_detector (detect_all_pairs default_detector embeddings posts))
      as [groups'|] eqn:Hbuild; [|done].
    injection Hdetect as <- <-.
    apply (build_groups_sound default_detector
             (detect_all_pairs default_detector embeddings posts)); [|done].
    apply Forall_forall. intros p Hp. specialize (Hlow p Hp). lra.
  - intros settings narrative posts_in_narrative groups c. unfold c.
    cbn [_calculate_narrative_risk components risk_components velocity bot_score
         foreign_domain_ratio toxicity coordination_density].
    split; [apply velocity_unit|]. split; [apply bot_score_unit|].
    split; [apply foreign_domain_unit|]. split; [apply toxicity_unit|].
    split; [apply coordination_at_most_1|].
    intros Hsound. by apply coordination_unit.
Qed.

(** C5, as it is stated, fails.  Two posts with equal embedding rows,
    the same domain and the same hashtag give a pair of score
    0.5 * 1.0000000000000004 + 0.3 + 0.2, above 1; and a group of
    negative score gives a negative coordination density. *)
Lemma scores_outside_unit_interval :
  (exists p, p ∈ detect_all_pairs (H := cosine_of_equal_rows) default_detector
                   equal_rows twin_posts
             /\ 1 < score p)
  /\ coordination_density
       (components (_calculate_narrative_risk default_settings risky_narrative
                      risky_posts negative_groups)) < 0.
Proof.
  split.
  - eexists. split; [vm_compute; left|]. by vm_compute.
  - by vm_compute.
Qed.

(** ** The graph of the pairs and its components *)

Lemma linked_sym (pairs : list CoordinatedPair) (a b : string) :
  linked pairs a b -> linked pairs b a.
Proof. intros (p & Hp & Hab). exists p. split; [done|]. tauto. Qed.

Lemma connected_sym (pairs : list CoordinatedPair) (a b : string) :
  connected pairs a b -> connected pairs b a.
Proof.
  induction 1 as [a|a b c Hab _ IH]; [constructor|].
  eapply rtc_r; [exact IH|]. by apply linked_sym.
Qed.

Lemma graph_add_get (x y a : string) (graph : list (string * gset string)) :
  dict_get ∅ (graph_add x y graph) a
  = if decide (a = x) then dict_get ∅ graph x ∪ {[y]} else dict_get ∅ graph a.
Proof. unfold graph_add. by rewrite dict_get_update. Qed.

Lemma graph_add_keys (x y a : string) (graph : list (string * gset string)) :
  a ∈ map fst (graph_add x y graph) <-> a = x \/ a ∈ map fst graph.
Proof. unfold graph_add. apply dict_update_elem. Qed.

Lemma graph_add_neighbour (x y a b : string) (graph : list (string * gset string)) :
  b ∈ dict_get ∅ (graph_add x y graph) a
  <-> b ∈ dict_get ∅ graph a \/ (a = x /\ b = y).
Proof.
  rewrite graph_add_get. case_decide as Hax.
  - subst a. rewrite elem_of_union, elem_of_singleton. tauto.
  - tauto.
Qed.

Lemma linked_cons (p : CoordinatedPair) (pairs : list CoordinatedPair) (a b : string) :
  linked (p :: pairs) a b
  <-> ((author1_id p = a /\ author2_id p = b) \/ (author1_id p = b /\ author2_id p = a))
      \/ linked pairs a b.
Proof.
  unfold linked. split.
  - intros (q & [->|Hq]%elem_of_cons & Hab); [by left|]. right. by exists q.
  - intros [Hab|(q & Hq & Hab)]; [exists p; split; [left|done]|].
    exists q. split; [by right|done].
Qed.

Lemma linked_nil (a b : string) : ~ linked [] a b.
Proof. intros (p & Hp & _). by apply elem_of_nil in Hp. Qed.

(** The neighbours of an author in [graph] are the authors linked to it. *)
Lemma adjacency_neighbours_from (pairs : list CoordinatedPair)
    (st : list (string * gset string) * gmap (string * string) CoordinatedPair)
    (a b : string) :
  b ∈ dict_get ∅ (fst (foldl add_pair st pairs)) a
  <-> b ∈ dict_get ∅ (fst st) a \/ linked pairs a b.
Proof.
  revert st. induction pairs as [|p pairs IH]; intros st.
  { simpl. pose proof (linked_nil a b). tauto. }
  cbn [foldl]. rewrite IH, linked_cons. unfold add_pair. cbn [fst].
  rewrite !graph_add_neighbour. split.
  - intros [[[?|[<- <-]]|[<- <-]]|?]; tauto.
  - intros [?|[[[<- <-]|[<- <-]]|?]]; tauto.
Qed.

Lemma adjacency_neighbours (pairs : list CoordinatedPair) (a b : string) :
  b ∈ dict_get ∅ (fst (adjacency pairs)) a <-> linked pairs a b.
Proof.
  unfold adjacency. rewrite adjacency_neighbours_from. simpl.
  split; [|by right]. intros [?|?]; [set_solver|done].
Qed.

(** The keys of [graph] are the authors that a pair names. *)
Lemma adjacency_keys_from (pairs : list CoordinatedPair)
    (st : list (string * gset string) * gmap (string * string) CoordinatedPair)
    (a : string) :
  a ∈ map fst (fst (foldl add_pair st pairs))
  <-> a ∈ map fst (fst st) \/ exists b, linked pairs a b.
Proof.
  revert st. induction pairs as [|p pairs IH]; intros st.
  { simpl. split; [by left|]. intros [?|(b & p & Hp & _)]; [done|]. by apply elem_of_nil in Hp. }
  cbn [foldl]. rewrite IH. unfold add_pair. cbn [fst]. rewrite !graph_add_keys.
  unfold linked. split.
  - intros [[->|[->|?]]|(b & q & Hq & Hab)].
    + right. exists (author1_id p), p. split; [left|tauto].
    + right. exists (author2_id p), p. split; [left|tauto].
    + by left.
    + right. exists b, q. split; [by right|done].
  - intros [?|(b & q & Hq & Hab)]; [left; tauto|].
    apply elem_of_cons in Hq as [->|Hq]; [|right; by exists b, q].
    left. destruct Hab as [[<- _]|[_ <-]]; tauto.
Qed.

Lemma adjacency_keys (pairs : list CoordinatedPair) (a : string) :
  a ∈ map fst (fst (adjacency pairs)) <-> exists b, linked pairs a b.
Proof.
  unfold adjacency. rewrite adjacency_keys_from. simpl.
  split; [|by right]. intros [Hin|?]; [by apply elem_of_nil in Hin|done].
Qed.

Section bfs_proofs.
Variable pairs : list CoordinatedPair.
Variable graph : list (string * gset string).
Hypothesis graph_neighbours : forall a b, b ∈ dict_get ∅ graph a <-> linked pairs a b.

(** One turn of the [while] loop keeps the invariant. *)
Lemma bfs_invariant_skip (old : gset string) (start author : string)
    (visited : gset string) (component queue : list string) :
  start ∉ old -> author ∈ visited ->
  bfs_invariant pairs old start visited component (author :: queue) ->
  bfs_invariant pairs old start visited component queue.
Proof.
  intros Hstart Hin (Hvis & Hnd & Hold & Hconn & Hnb & Hst).
  repeat split; try done.
  - intros a [Ha|Ha]; apply Hconn; [by left|right; by right].
  - intros a b Ha Hab. destruct (Hnb a b Ha Hab) as [?|[->|?]%elem_of_cons]; auto.
  - destruct Hst as [?|[->|?]%elem_of_cons]; [by left| |by right].
    left. rewrite Hvis in Hin. apply elem_of_union in Hin as [?|Hin]; [done|].
    by apply elem_of_list_to_set in Hin.
Qed.

Lemma bfs_invariant_visit (old : gset string) (start author : string)
    (visited : gset string) (component queue : list string) :
  author ∉ visited ->
  bfs_invariant pairs old start visited component (author :: queue) ->
  bfs_invariant pairs old start (visited ∪ {[author]}) (component ++ [author])
    (queue ++ filter (fun neighbor => neighbor ∉ visited ∪ {[author]})
                (elements (dict_get ∅ graph author))).
Proof.
  intros Hnew (Hvis & Hnd & Hold & Hconn & Hnb & Hst).
  assert (author ∉ component) as Hfresh.
  { intros Hin. apply Hnew. rewrite Hvis. apply elem_of_union. right.
    by apply elem_of_list_to_set. }
  assert (author ∉ old) as Hfresh'.
  { intros Hin. apply Hnew. rewrite Hvis. apply elem_of_union. by left. }
  assert (connected pairs start author) as Hauthor by (apply Hconn; right; left).
  repeat split.
  - rewrite Hvis, list_to_set_app_L. simpl. rewrite (right_id_L ∅ (∪)).
    by rewrite (assoc_L (∪)).
  - apply NoDup_app. split; [done|]. split; [|apply NoDup_singleton].
    intros x Hx ->%list_elem_of_singleton. done.
  - intros a [Ha| ->%list_elem_of_singleton]%elem_of_app; [by apply Hold|done].
  - intros a [[Ha| ->%list_elem_of_singleton]%elem_of_app|[Ha|Ha]%elem_of_app].
    + apply Hconn. by left.
    + done.
    + apply Hconn. right. by right.
    + apply list_elem_of_filter in Ha as [_ Ha]. apply elem_of_elements in Ha.
      eapply rtc_r; [exact Hauthor|]. by apply graph_neighbours.
  - intros a b [Ha| ->%list_elem_of_singleton]%elem_of_app Hab.
    + destruct (Hnb a b Ha Hab) as [Hb|[->|Hb]%elem_of_cons].
      * left. apply elem_of_union. by left.
      * left. apply elem_of_union. right. by apply elem_of_singleton.
      * right. apply elem_of_app. by left.
    + destruct (decide (b ∈ visited ∪ {[author]})) as [Hb|Hb]; [by left|].
      right. apply elem_of_app. right. apply list_elem_of_filter. split; [done|].
      apply elem_of_elements. by apply graph_neighbours.
  - destruct Hst as [?|[->|?]%elem_of_cons].
    + left. apply elem_of_app. by left.
    + left. apply elem_of_app. right. by apply list_elem_of_singleton.
    + right. apply elem_of_app. by left.
Qed.

(** The invariant holds when the traversal returns, with an empty queue. *)
Lemma bfs_invariant_end (old : gset string) (start : string) (fuel : nat)
    (visited : gset string) (component queue : list string)
    (visited' : gset string) (component' : list string) :
  start ∉ old ->
  bfs_invariant pairs old start visited component queue ->
  bfs fuel graph visited component queue = Some (visited', component') ->
  bfs_invariant pairs old start visited' component' [].
Proof.
  intros Hstart. revert visited component queue.
  induction fuel as [|fuel IH]; intros visited component queue Hinv Hbfs.
  { destruct queue; [|done]. by injection Hbfs as <- <-. }
  destruct queue as [|author queue]; [by injection Hbfs as <- <-|].
  simpl in Hbfs. destruct (decide (author ∈ visited)) as [Hin|Hnew].
  - eapply IH; [|exact Hbfs]. by eapply bfs_invariant_skip.
  - eapply IH; [|exact Hbfs]. by apply bfs_invariant_visit.
Qed.

(** A traversal from a new author, after whole components were visited,
    finds the authors connected to that author, and no other. *)
Lemma bfs_component (old : gset string) (start : string)
    (visited' : gset string) (component : list string) :
  (forall a b, a ∈ old -> linked pairs a b -> b ∈ old) ->
  start ∉ old ->
  bfs (bfs_fuel graph) graph old [] [start] = Some (visited', component) ->
  visited' = old ∪ list_to_set component
  /\ NoDup component
  /\ (forall a, a ∈ component -> a ∉ old)
  /\ (forall b, b ∈ component <-> connected pairs start b)
  /\ (forall a b, a ∈ visited' -> linked pairs a b -> b ∈ visited').
Proof.
  intros Hclosed Hstart Hbfs.
  assert (bfs_invariant pairs old start old [] [start]) as Hinit.
  { repeat split.
    - simpl. by rewrite (right_id_L ∅ (∪)).
    - constructor.
    - by intros a ?%elem_of_nil.
    - intros a [?%elem_of_nil| ->%list_elem_of_singleton]; [done|constructor].
    - by intros a b ?%elem_of_nil.
    - right. left. }
  destruct (bfs_invariant_end old start _ _ _ _ _ _ Hstart Hinit Hbfs)
    as (Hvis & Hnd & Hold & Hconn & Hnb & Hst).
  assert (forall a b, a ∈ component -> linked pairs a b -> b ∈ component) as Hstep.
  { intros a b Ha Hab. destruct (Hnb a b Ha Hab) as [Hb|?%elem_of_nil]; [|done].
    rewrite Hvis in Hb. apply elem_of_union in Hb as [Hb|Hb].
    - exfalso. apply (Hold a Ha). apply (Hclosed b a Hb). by apply linked_sym.
    - by apply elem_of_list_to_set in Hb. }
  assert (forall a b, connected pairs a b -> a ∈ component -> b ∈ component) as Hreach.
  { clear -Hstep. induction 1 as [a|a b c Hab _ IH]; [done|].
    intros Ha. apply IH. by apply (Hstep a). }
  split; [done|]. split; [done|]. split; [done|]. split.
  - intros b. split; [intros Hb; apply Hconn; by left|].
    intros Hb. destruct Hst as [Hst|?%elem_of_nil]; [|done]. by apply (Hreach start).
  - intros a b Ha Hab. rewrite Hvis in Ha |- *.
    apply elem_of_union in Ha as [Ha|Ha]; apply elem_of_union.
    + left. by apply (Hclosed a).
    + right. apply elem_of_list_to_set. apply elem_of_list_to_set in Ha. by apply (Hstep a).
Qed.

End bfs_proofs.

Lemma connected_has_link (pairs : list CoordinatedPair) (a b : string) :
  connected pairs a b -> (exists c, linked pairs a c) -> exists c, linked pairs b c.
Proof.
  intros Hab Ha. apply rtc_inv_r in Hab as [->|(c & _ & Hcb)]; [done|].
  exists c. by apply linked_sym.
Qed.

(** The traversals of the loop over the keys of [graph] keep the
    invariant, and visit every key. *)
Lemma scan_invariant_keep (pairs : list CoordinatedPair) (keys : list string)
    (visited : gset string) (found : list (list string))
    (visited' : gset string) (found' : list (list string)) :
  (forall k, k ∈ keys -> exists b, linked pairs k b) ->
  scan_invariant pairs visited found ->
  foldl (component_scan (fst (adjacency pairs))) (Some (visited, found)) keys
  = Some (visited', found') ->
  scan_invariant pairs visited' found'
  /\ visited ⊆ visited'
  /\ forall k, k ∈ keys -> k ∈ visited'.
Proof.
  revert visited found.
  induction keys as [|start keys IH]; intros visited found Hkeys Hinv Hscan.
  { injection Hscan as <- <-. split; [done|]. split; [done|]. by intros k ?%elem_of_nil. }
  cbn [foldl] in Hscan.
  assert (forall k, k ∈ keys -> exists b, linked pairs k b) as Hkeys'.
  { intros k Hk. apply Hkeys. by right. }
  destruct (decide (start ∈ visited)) as [Hin|Hnew].
  - rewrite component_scan_visited in Hscan by done.
    destruct (IH _ _ Hkeys' Hinv Hscan) as (Hinv' & Hsub & Hall).
    split; [done|]. split; [done|].
    intros k [->|Hk]%elem_of_cons; [by apply Hsub|by apply Hall].
  - destruct (bfs_from_start (fst (adjacency pairs)) visited start)
      as [[visited1 component] Hbfs].
    rewrite (component_scan_new _ _ _ _ _ _ Hnew Hbfs) in Hscan.
    destruct Hinv as (Hvis & Hclosed & Hfound).
    destruct (bfs_component pairs (fst (adjacency pairs)) (adjacency_neighbours pairs)
                visited start visited1 component Hclosed Hnew Hbfs)
      as (Hvis1 & Hnd & Hold & Hconn & Hclosed1).
    assert (scan_invariant pairs visited1 (found ++ [component])) as Hinv1.
    { split; [|split; [done|]].
      - intros a. rewrite Hvis1, elem_of_union, Hvis, elem_of_list_to_set. split.
        + intros [(c & Hc & Ha)|Ha].
          * exists c. split; [apply elem_of_app; by left|done].
          * exists component. split; [apply elem_of_app; right; left|done].
        + intros (c & [Hc| ->%list_elem_of_singleton]%elem_of_app & Ha); [left|by right].
          by exists c.
      - intros c [Hc| ->%list_elem_of_singleton]%elem_of_app; [by apply Hfound|].
        exists start. split; [apply Hkeys; left|done]. }
    destruct (IH _ _ Hkeys' Hinv1 Hscan) as (Hinv' & Hsub & Hall).
    split; [done|].
    assert (visited ⊆ visited1) as Hsub1.
    { rewrite Hvis1. apply union_subseteq_l. }
    split; [by trans visited1|].
    intros k [->|Hk]%elem_of_cons; [|by apply Hall].
    apply Hsub. rewrite Hvis1. apply elem_of_union. right.
    apply elem_of_list_to_set, Hconn. constructor.
Qed.

(** The components the traversal finds are connected components of the
    graph of the pairs, and every author of a pair lies in one of them. *)
Lemma found_components_spec (pairs : list CoordinatedPair) (found : list (list string)) :
  found_components pairs = Some found ->
  (forall c, c ∈ found -> is_component pairs c)
  /\ (forall a, (exists b, linked pairs a b) -> exists c, c ∈ found /\ a ∈ c).
Proof.
  unfold found_components. intros Hfound.
  destruct (foldl _ (Some (∅, [])) (map fst (fst (adjacency pairs))))
    as [[visited found']|] eqn:Hscan; [|done].
  injection Hfound as ->.
  assert (scan_invariant pairs ∅ []) as Hinit.
  { split; [|split].
    - intros a. split; [by intros ?%elem_of_empty|]. by intros (c & ?%elem_of_nil & _).
    - by intros a b ?%elem_of_empty.
    - by intros c ?%elem_of_nil. }
  destruct (scan_invariant_keep pairs _ _ _ _ _
              (fun k Hk => proj1 (adjacency_keys pairs k) Hk) Hinit Hscan)
    as ((Hvis & Hclosed & Hcomp) & _ & Hall).
  split.
  - intros c Hc. destruct (Hcomp c Hc) as (s & Hs & Hnd & Hsame).
    assert (s ∈ c) as Hsc by (apply Hsame; constructor).
    split; [by intros ->; apply elem_of_nil in Hsc|]. split; [done|].
    intros a Ha. apply Hsame in Ha. split; [by apply (connected_has_link pairs s)|].
    intros b. rewrite Hsame. split.
    + intros Hb. by trans s; [apply connected_sym|].
    + intros Hb. by trans a.
  - intros a Ha. apply Hvis, Hall. by apply adjacency_keys.
Qed.

(** C3.  [_build_groups] returns, and it reports a connected component
    of the graph of the pairs as a CoordinatedGroup if and only if the
    component has at least [min_group_size] authors: every group
    reported lists a connected component with at least that many
    authors, its [size], and every connected component is listed by a
    group exactly when it is that large.  So a component of
    [min_group_size - 1] authors is never reported, and one of
    [min_group_size] is. *)
Theorem group_reported_iff_min_size (self : CoordinationDetector) (pairs : list CoordinatedPair) :
  exists groups : list CoordinatedGroup,
    _build_groups self pairs = Some groups
    /\ (forall g, g ∈ groups ->
          is_component pairs (author_ids g)
          /\ (self_min_group_size self <= group_size g)%Z
          /\ group_size g = Z.of_nat (length (author_ids g)))
    /\ (forall component, is_component pairs component ->
          (exists g, g ∈ groups /\ author_ids g ≡ₚ component)
          <-> (self_min_group_size self <= Z.of_nat (length component))%Z).
Proof.
  destruct (groups_of_found_components self pairs)
    as (found & groups & Hfound & Hbuild & Hiff & Hgroups).
  destruct (found_components_spec pairs found Hfound) as [Hcomp Hcover].
  exists groups. split; [done|]. split.
  - intros g Hg. destruct (Hgroups g Hg) as (Hin & Hle & Hsize).
    split; [by apply Hcomp|done].
  - intros component (Hne & Hnd & Hsame). split.
    + intros (g & Hg & Hperm). destruct (Hgroups g Hg) as (_ & Hle & Hsize).
      rewrite <- Hperm, <- Hsize. done.
    + intros Hle. destruct component as [|a rest]; [done|].
      destruct (Hsame a ltac:(left)) as [Hlink Hconn].
      destruct (Hcover a Hlink) as (c & Hc & Ha).
      destruct (Hcomp c Hc) as (_ & Hnd' & Hsame').
      assert (c ≡ₚ a :: rest) as Hperm.
      { apply NoDup_Permutation; [done|done|]. intros b.
        rewrite Hconn. by apply (Hsame' a Ha). }
      assert (exists g, g ∈ groups /\ author_ids g = c) as (g & Hg & Hids).
      { apply Hiff; [done|]. by rewrite Hperm. }
      exists g. split; [done|]. by rewrite Hids.
Qed.

(** ** The tests of the repository and the scenarios of the specification *)

Example test_velocity_score_high : 0.5 < calculate_velocity_score rapid_posts.
Proof. by vm_compute. Qed.

Example test_velocity_score_empty : calculate_velocity_score [] = 0.
Proof. reflexivity. Qed.

Example test_coordination_score_with_groups :
  0 < calculate_coordination_score "narrative_001" sample_coordination_groups 10 <= 1.
Proof. split; by vm_compute. Qed.

Example test_coordination_score_no_groups :
  calculate_coordination_score "narrative_001" [] 10 = 0.
Proof. reflexivity. Qed.

Example test_coordination_score_unrelated_groups :
  calculate_coordination_score "narrative_001" unrelated_groups 10 = 0.
Proof. by vm_compute. Qed.

Example test_foreign_domain_score_none :
  calculate_foreign_domain_score default_settings
    [domain_post ["example.com"; "news.org"]] None == 0.
Proof. by vm_compute. Qed.

Example test_foreign_domain_score_some :
  0 < calculate_foreign_domain_score default_settings
        [domain_post ["example.com"; "news.ru"; "info.cn"]] None < 1.
Proof. split; by vm_compute. Qed.

Example test_foreign_domain_score_all :
  calculate_foreign_domain_score default_settings
    [domain_post ["news.ru"; "info.cn"]] None == 1.
Proof. by vm_compute. Qed.

Example test_bot_score_repetitive : calculate_bot_score repetitive_posts == 0.8.
Proof. by vm_compute. Qed.

Example test_toxicity_score_clean : calculate_toxicity_score [clean_post] < 0.3.
Proof. by vm_compute. Qed.

Example test_toxicity_score_toxic : 0 < calculate_toxicity_score [toxic_post].
Proof. by vm_compute. Qed.

Example test_toxicity_score_empty : calculate_toxicity_score [] = 0.
Proof. reflexivity. Qed.

(** Scenario E: one foreign domain of two. *)
Example foreign_domain_half :
  calculate_foreign_domain_score default_settings
    [domain_post ["a.com"; "b.ru"]] (Some [".ru"]) == 0.5.
Proof. by vm_compute. Qed.

(** With the default minimum of 3 the chain of three authors is reported
    and the couple is not. *)
Example build_groups_drops_couple :
  map author_ids <$> _build_groups default_detector chain_and_couple
  = Some [["alice"; "bob"; "carol"]].
Proof. by vm_compute. Qed.

(** Empty input. *)
Example detect_nothing :
  detect_from_posts (H := constant_similarity) default_detector None [] = Some ([], []).
Proof. reflexivity. Qed.

(** Scenario A: the score is 0.2 and no pair is emitted. *)
Example shared_hashtag_only :
  fst (_calculate_pair_score (H := constant_similarity) default_detector None
         (tagged_posts "alice" 0 0) (tagged_posts "bob" 3 30)) == 0.2
  /\ _detect_pairs_in_narrative (H := constant_similarity) default_detector None
       (tagged_posts "alice" 0 0 ++ tagged_posts "bob" 3 30) "n1" = [].
Proof. split; by vm_compute. Qed.

(** Scenario D: all components 0, level LOW, one reason. *)
Example no_risk_factors :
  let r := _calculate_narrative_risk default_settings risky_narrative [calm_post] [] in
  risk_score r == 0 /\ risk_level r = LOW
  /\ reasons r = ["No significant risk factors identified"].
Proof. repeat split; by vm_compute. Qed.

(** * Further properties of the code *)

(** ** The evidence of a pair *)

Lemma gathered_nil (ev : CoordinationEvidence) : gathered ev [] = ev.
Proof. destruct ev. unfold gathered. simpl. by rewrite !app_nil_r. Qed.

Lemma gathered_app (ev : CoordinationEvidence)
    (q1 q2 : list ((NormalizedPost * nat) * (NormalizedPost * nat))) :
  gathered (gathered ev q1) q2 = gathered ev (q1 ++ q2).
Proof.
  unfold gathered. cbn [post_ids shared_domains shared_hashtags text_similarity
    time_delta_seconds]. rewrite !flat_map_app, <- !app_assoc. f_equal.
  rewrite last_app. by destruct (last q2).
Qed.

Section evidence_proofs.
Context `{Sklearn}.
Variable self : CoordinationDetector.
Variable embeddings : option (nat -> list Q).

Lemma pair_step_gathered (p1 p2 : NormalizedPost * nat) (st : CoordinationEvidence * list Q) :
  fst (pair_step self embeddings p1 st p2) = gathered (fst st) (qualifying self [p1] [p2]).
Proof.
  destruct st as [ev sc]. unfold pair_step, qualifying. simpl.
  destruct (decide (within_window self (fst p1) (fst p2))) as [Hw|Hw].
  - rewrite (proj2 (in_window_spec self _ _) Hw). rewrite filter_cons_True by done.
    unfold gathered. simpl. by rewrite !app_nil_r.
  - rewrite filter_cons_False by done. rewrite filter_nil, gathered_nil.
    destruct (in_window self (fst p1) (fst p2)) eqn:E; [|done].
    by apply in_window_spec in E.
Qed.

Lemma inner_loop_gathered (p1 : NormalizedPost * nat) (posts2 : list (NormalizedPost * nat))
    (st : CoordinationEvidence * list Q) :
  fst (foldl (pair_step self embeddings p1) st posts2)
  = gathered (fst st) (qualifying self [p1] posts2).
Proof.
  revert st. induction posts2 as [|p2 posts2 IH]; intros st.
  { simpl. unfold qualifying. simpl. by rewrite gathered_nil. }
  cbn [foldl]. rewrite IH, pair_step_gathered, gathered_app. f_equal.
  unfold qualifying. simpl. rewrite !app_nil_r.
  by rewrite (filter_app _ [(p1, p2)] (map (fun y => (p1, y)) posts2)).
Qed.

Lemma outer_loop_gathered (posts1 posts2 : list (NormalizedPost * nat))
    (st : CoordinationEvidence * list Q) :
  fst (foldl (fun st p1 => foldl (pair_step self embeddings p1) st posts2) st posts1)
  = gathered (fst st) (qualifying self posts1 posts2).
Proof.
  revert st. induction posts1 as [|p1 posts1 IH]; intros st.
  { simpl. by rewrite gathered_nil. }
  cbn [foldl]. rewrite IH, inner_loop_gathered, gathered_app.
  by rewrite <- (qualifying_cons self p1 posts1).
Qed.

(** The evidence record that [_calculate_pair_score] returns. *)
Lemma calculate_pair_score_snd (posts1 posts2 : list (NormalizedPost * nat)) :
  let ev := gathered empty_evidence (qualifying self posts1 posts2) in
  snd (_calculate_pair_score self embeddings posts1 posts2)
  = match qualifying self posts1 posts2 with
    | [] => empty_evidence
    | _ =>
        {| post_ids := list_set (post_ids ev);
           shared_domains := list_set (shared_domains ev);
           shared_hashtags := list_set (shared_hashtags ev);
           text_similarity := Some (fst (_calculate_pair_score self embeddings posts1 posts2));
           time_delta_seconds := time_delta_seconds ev |}
    end.
Proof.
  intros ev. pose proof (pair_loop_scores self embeddings posts1 posts2) as Hsc.
  pose proof (outer_loop_gathered posts1 posts2 (empty_evidence, [])) as Hev.
  fold (pair_loop self embeddings posts1 posts2) in Hev. cbn [fst] in Hev. fold ev in Hev.
  unfold _calculate_pair_score.
  destruct (pair_loop self embeddings posts1 posts2) as [ev' scores].
  cbn [fst snd] in *. subst ev'.
  destruct (qualifying self posts1 posts2) as [|pq q] eqn:E.
  - subst scores. simpl. unfold ev. by rewrite gathered_nil.
  - destruct scores as [|s rest]; [done|]. reflexivity.
Qed.

End evidence_proofs.

Lemma list_set_elem (l : list string) (x : string) : x ∈ list_set l <-> x ∈ l.
Proof. unfold list_set. by rewrite elem_of_elements, elem_of_list_to_set. Qed.

Lemma list_set_NoDup (l : list string) : NoDup (list_set l).
Proof. unfold list_set. apply (NoDup_elements (C := gset string)). Qed.

Lemma shared_elem (a b : list string) (x : string) : x ∈ shared a b <-> x ∈ a /\ x ∈ b.
Proof. unfold shared. by rewrite elem_of_intersection, !elem_of_list_to_set. Qed.

Lemma flat_map_elem {A B} (f : A -> list B) (l : list A) (y : B) :
  y ∈ flat_map f l <-> exists x, x ∈ l /\ y ∈ f x.
Proof.
  rewrite list_elem_of_In, in_flat_map. setoid_rewrite list_elem_of_In. done.
Qed.

(** X1.  The lists of an evidence record hold no element twice. *)
Theorem evidence_without_duplicates (sk : Sklearn) (self : CoordinationDetector)
    (embeddings : option (nat -> list Q)) (posts1 posts2 : list (NormalizedPost * nat)) :
  let ev := snd (_calculate_pair_score self embeddings posts1 posts2) in
  NoDup (post_ids ev) /\ NoDup (shared_domains ev) /\ NoDup (shared_hashtags ev).
Proof.
  intros ev. unfold ev. rewrite calculate_pair_score_snd.
  destruct (qualifying self posts1 posts2).
  - repeat split; constructor.
  - repeat split; apply list_set_NoDup.
Qed.

(** X2.  The evidence of two authors names the posts of the pairs within
    the time window, and the domains and the hashtags that the two posts
    of such a pair share; nothing else. *)
Theorem evidence_of_qualifying_pairs (sk : Sklearn) (self : CoordinationDetector)
    (embeddings : option (nat -> list Q)) (posts1 posts2 : list (NormalizedPost * nat))
    (x : string) :
  let ev := snd (_calculate_pair_score self embeddings posts1 posts2) in
  (x ∈ post_ids ev <->
     exists pq, pq ∈ qualifying self posts1 posts2
       /\ (x = post_id (fst (fst pq)) \/ x = post_id (fst (snd pq))))
  /\ (x ∈ shared_domains ev <->
        exists pq, pq ∈ qualifying self posts1 posts2
          /\ x ∈ domains (fst (fst pq)) /\ x ∈ domains (fst (snd pq)))
  /\ (x ∈ shared_hashtags ev <->
        exists pq, pq ∈ qualifying self posts1 posts2
          /\ x ∈ hashtags (fst (fst pq)) /\ x ∈ hashtags (fst (snd pq))).
Proof.
  intros ev. unfold ev. rewrite calculate_pair_score_snd.
  destruct (qualifying self posts1 posts2) as [|pq0 q] eqn:E.
  { simpl. repeat split; try (by intros ?%elem_of_nil);
      by intros (pq & ?%elem_of_nil & _). }
  cbn [post_ids shared_domains shared_hashtags].
  rewrite !list_set_elem. unfold gathered.
  cbn [post_ids shared_domains shared_hashtags empty_evidence]. rewrite !app_nil_l.
  rewrite !flat_map_elem. repeat split.
  - intros (pq & Hpq & Hx). exists pq. split; [done|].
    apply elem_of_cons in Hx as [->|Hx]; [by left|].
    apply list_elem_of_singleton in Hx as ->. by right.
  - intros (pq & Hpq & [->| ->]); exists pq; (split; [done|]); [left|right; left].
  - intros (pq & Hpq & Hx). exists pq. split; [done|].
    by apply elem_of_elements, shared_elem in Hx.
  - intros (pq & Hpq & Hx). exists pq. split; [done|].
    by apply elem_of_elements, shared_elem.
  - intros (pq & Hpq & Hx). exists pq. split; [done|].
    by apply elem_of_elements, shared_elem in Hx.
  - intros (pq & Hpq & Hx). exists pq. split; [done|].
    by apply elem_of_elements, shared_elem.
Qed.

Lemma time_diff_seconds (post1 post2 : NormalizedPost) :
  time_diff post1 post2 = total_seconds (Z.abs (timestamp post1 - timestamp post2)).
Proof. reflexivity. Qed.

(** X3.  The [time_delta_seconds] of an evidence record is the time
    difference of the last post pair within the window that the loops
    met (not that of the best pair); it is absent when no pair is within
    the window, and never negative nor longer than the window. *)
Theorem evidence_time_delta_is_last (sk : Sklearn) (self : CoordinationDetector)
    (embeddings : option (nat -> list Q)) (posts1 posts2 : list (NormalizedPost * nat)) :
  let ev := snd (_calculate_pair_score self embeddings posts1 posts2) in
  time_delta_seconds ev
  = (fun pq => time_diff (fst (fst pq)) (fst (snd pq))) <$> last (qualifying self posts1 posts2)
  /\ forall d, time_delta_seconds ev = Some d -> 0 <= d <= total_seconds (time_window self).
Proof.
  intros ev.
  assert (time_delta_seconds ev
          = (fun pq => time_diff (fst (fst pq)) (fst (snd pq)))
              <$> last (qualifying self posts1 posts2)) as Hlast.
  { unfold ev. rewrite calculate_pair_score_snd.
    destruct (qualifying self posts1 posts2) as [|pq0 q] eqn:E; [done|].
    cbn [time_delta_seconds gathered]. destruct (last (pq0 :: q)) eqn:El; [done|].
    by apply last_None in El. }
  split; [done|]. intros d. rewrite Hlast.
  destruct (last (qualifying self posts1 posts2)) as [pq|] eqn:El; [|done].
  intros [= <-]. apply last_Some_elem_of in El.
  apply list_elem_of_filter in El as [Hw _]. rewrite time_diff_seconds.
  unfold within_window in Hw. unfold total_seconds, Qle. simpl. lia.
Qed.

(** ** The order of the two authors *)

Lemma overlap_comm (a b : list string) : overlap a b = overlap b a.
Proof.
  unfold overlap, shared.
  by rewrite (comm_L (∩) (list_to_set a : gset string)),
             (comm_L (∪) (list_to_set a : gset string)).
Qed.

Lemma within_window_sym (self : CoordinationDetector) (post1 post2 : NormalizedPost) :
  within_window self post1 post2 -> within_window self post2 post1.
Proof. unfold within_window. lia. Qed.

Lemma qualifying_elem (self : CoordinationDetector)
    (posts1 posts2 : list (NormalizedPost * nat))
    (pq : (NormalizedPost * nat) * (NormalizedPost * nat)) :
  pq ∈ qualifying self posts1 posts2
  <-> fst pq ∈ posts1 /\ snd pq ∈ posts2 /\ within_window self (fst (fst pq)) (fst (snd pq)).
Proof.
  unfold qualifying. rewrite list_elem_of_filter, list_elem_of_In.
  destruct pq as [p q]. rewrite in_prod_iff, <- !list_elem_of_In. simpl. tauto.
Qed.

Section symmetry_proofs.
Context `{Sklearn}.
Hypothesis cosine_sym : forall u v : list Q, cosine_similarity u v = cosine_similarity v u.
Variable self : CoordinationDetector.
Variable embeddings : option (nat -> list Q).

Lemma pair_score_sym (p q : NormalizedPost * nat) :
  pair_score self embeddings p q = pair_score self embeddings q p.
Proof.
  unfold pair_score, text_sim.
  rewrite (overlap_comm (domains (fst p))), (overlap_comm (hashtags (fst p))).
  destruct embeddings; [by rewrite cosine_sym|done].
Qed.

Lemma scores_swap (posts1 posts2 : list (NormalizedPost * nat)) (s : Q) :
  s ∈ map (fun pq => pair_score self embeddings (fst pq) (snd pq))
          (qualifying self posts1 posts2) ->
  s ∈ map (fun pq => pair_score self embeddings (fst pq) (snd pq))
          (qualifying self posts2 posts1).
Proof.
  intros ([p q] & -> & Hpq)%list_elem_of_fmap. apply list_elem_of_fmap.
  exists (q, p). simpl. split; [apply pair_score_sym|].
  apply qualifying_elem in Hpq as (Hp & Hq & Hw). apply qualifying_elem.
  simpl in *. split; [done|]. split; [done|]. by apply within_window_sym.
Qed.

Lemma calculate_pair_score_le_swap (posts1 posts2 : list (NormalizedPost * nat)) :
  fst (_calculate_pair_score self embeddings posts1 posts2)
  <= fst (_calculate_pair_score self embeddings posts2 posts1).
Proof.
  rewrite !calculate_pair_score_fst.
  destruct (map _ (qualifying self posts1 posts2)) as [|s rest] eqn:E12.
  - destruct (map _ (qualifying self posts2 posts1)) as [|s' rest'] eqn:E21; [apply Qle_refl|].
    pose proof (scores_swap posts2 posts1 s') as Hin. rewrite E21, E12 in Hin.
    specialize (Hin ltac:(left)). by apply elem_of_nil in Hin.
  - pose proof (scores_swap posts1 posts2 (py_max s rest)) as Hin. rewrite E12 in Hin.
    specialize (Hin (py_max_elem rest s)).
    destruct (map _ (qualifying self posts2 posts1)) as [|s' rest'] eqn:E21;
      [by apply elem_of_nil in Hin|].
    by apply py_max_upper.
Qed.

End symmetry_proofs.

(** X4.  With a symmetric cosine similarity the score of two authors
    does not depend on which of them comes first. *)
Theorem pair_score_symmetric (sk : Sklearn) (self : CoordinationDetector)
    (embeddings : option (nat -> list Q)) (posts1 posts2 : list (NormalizedPost * nat)) :
  (forall u v : list Q, cosine_similarity u v = cosine_similarity v u) ->
  fst (_calculate_pair_score self embeddings posts1 posts2)
  == fst (_calculate_pair_score self embeddings posts2 posts1).
Proof.
  intros Hsym. apply Qle_antisym; by apply calculate_pair_score_le_swap.
Qed.

Lemma pair_score_symmetric_witness :
  fst (_calculate_pair_score (H := constant_similarity) default_detector some_embeddings
         alice_posts bob_posts)
  == fst (_calculate_pair_score (H := constant_similarity) default_detector some_embeddings
            bob_posts alice_posts).
Proof.
  apply (pair_score_symmetric constant_similarity default_detector some_embeddings
           alice_posts bob_posts).
  intros u v. reflexivity.
Defined.

(** ** Dictionaries filled by a loop *)

Section collect_proofs.
Context {A B : Type}.
Variable key : A -> option string.
Variable val : A -> B.

Lemma collect_get (l : list A) (d : list (string * list B)) (k : string) :
  dict_get [] (collect key val d l) k
  = dict_get [] d k ++ map val (filter (fun x => key x = Some k) l).
Proof.
  unfold collect. revert d. induction l as [|x l IH]; intros d; simpl.
  { by rewrite app_nil_r. }
  rewrite IH. destruct (key x) as [k'|] eqn:E.
  - unfold dict_append. rewrite dict_get_update.
    destruct (decide (k = k')) as [->|Hne].
    + rewrite filter_cons_True by done. simpl. by rewrite <- app_assoc.
    + rewrite filter_cons_False; [done|]. congruence.
  - rewrite filter_cons_False; [done|]. congruence.
Qed.

Lemma collect_keys (l : list A) (d : list (string * list B)) (k : string) :
  k ∈ map fst (collect key val d l)
  <-> k ∈ map fst d \/ exists x, x ∈ l /\ key x = Some k.
Proof.
  unfold collect. revert d. induction l as [|x l IH]; intros d; simpl.
  { split; [by left|]. intros [?|(x & ?%elem_of_nil & _)]; done. }
  rewrite IH. split.
  - intros [Hk|(y & Hy & Hkey)].
    + destruct (key x) as [k'|] eqn:E; [|by left].
      unfold dict_append in Hk. apply dict_update_elem in Hk as [->|Hk]; [|by left].
      right. exists x. split; [left|done].
    + right. exists y. split; [by right|done].
  - intros [Hk|(y & Hy & Hkey)].
    + left. destruct (key x); [|done]. unfold dict_append. apply dict_update_elem. by right.
    + apply elem_of_cons in Hy as [->|Hy]; [|right; by exists y].
      left. rewrite Hkey. unfold dict_append. apply dict_update_elem. by left.
Qed.

Lemma collect_NoDup (l : list A) (d : list (string * list B)) :
  NoDup (map fst d) -> NoDup (map fst (collect key val d l)).
Proof.
  unfold collect. revert d. induction l as [|x l IH]; intros d Hd; simpl; [done|].
  apply IH. destruct (key x); [|done]. by apply dict_update_NoDup.
Qed.

End collect_proofs.

(** The entry of a key is what a lookup of the key gives. *)
Lemma dict_entry_get {V} (dflt : V) (d : list (string * V)) (k : string) (v : V) :
  NoDup (map fst d) -> (k, v) ∈ d -> dict_get dflt d k = v.
Proof.
  induction d as [|[k0 v0] d IH]; intros Hnd Hin; [by apply elem_of_nil in Hin|].
  simpl in *. apply NoDup_cons in Hnd as [Hfresh Hnd].
  apply elem_of_cons in Hin as [[= -> ->]|Hin]; [by rewrite decide_True|].
  rewrite decide_False; [by apply IH|]. intros ->. apply Hfresh.
  apply list_elem_of_fmap. by exists (k0, v).
Qed.

Lemma in_narrative_Some (p : NormalizedPost) (nid : string) :
  in_narrative p = Some nid <-> narrative_id p = Some nid /\ nid <> "" /\ nid <> "noise".
Proof.
  unfold in_narrative, truthy_str. destruct (narrative_id p) as [n|].
  2: { split; [done|]. by intros [? _]. }
  destruct (String.eqb_spec n ""), (String.eqb_spec n "noise"); simpl;
    (split; [intros [= <-]; try done | intros ([= <-] & ? & ?); try done]).
Qed.

(** The posts that [detect_from_posts] files under a narrative are the
    posts of the input that carry it, with their positions. *)
Lemma group_by_narrative_entry (posts : list NormalizedPost) (nid : string)
    (post_data : list (NormalizedPost * nat)) :
  (nid, post_data) ∈ group_by_narrative posts ->
  nid <> "" /\ nid <> "noise" /\ post_data <> []
  /\ forall pi, pi ∈ post_data ->
       posts !! snd pi = Some (fst pi) /\ narrative_id (fst pi) = Some nid.
Proof.
  intros Hin.
  change (group_by_narrative posts)
    with (collect (fun ip : nat * NormalizedPost => in_narrative (snd ip))
                  (fun ip => (snd ip, fst ip)) [] (imap pair posts)) in Hin.
  pose proof (collect_NoDup (fun ip : nat * NormalizedPost => in_narrative (snd ip))
                (fun ip => (snd ip, fst ip)) (imap pair posts) [] ltac:(constructor)) as Hnd.
  pose proof (dict_entry_get [] _ _ _ Hnd Hin) as Hget.
  rewrite collect_get in Hget. simpl in Hget.
  assert (nid ∈ map fst (collect (fun ip : nat * NormalizedPost => in_narrative (snd ip))
                           (fun ip => (snd ip, fst ip)) [] (imap pair posts))) as Hkey.
  { apply list_elem_of_fmap. by exists (nid, post_data). }
  apply collect_keys in Hkey as [Hkey|([i p] & Hip & Hnar)]; [by apply elem_of_nil in Hkey|].
  simpl in Hnar. apply in_narrative_Some in Hnar as (Hnar & Hne & Hnoise).
  split; [done|]. split; [done|]. split.
  - intros ->. apply map_eq_nil in Hget.
    eapply (filter_nil_not_elem_of _ _ (i, p)); [exact Hget| |exact Hip].
    simpl. by apply in_narrative_Some.
  - intros pi Hpi. rewrite <- Hget in Hpi.
    apply list_elem_of_fmap in Hpi as ([j q] & -> & Hjq).
    apply list_elem_of_filter in Hjq as [Hq Hjq]. simpl in *.
    apply elem_of_lookup_imap in Hjq as (j' & q' & Heq & Hlook).
    injection Heq as -> ->.
    split; [done|]. by apply in_narrative_Some in Hq as [Hq _].
Qed.

(** ** What every emitted pair is *)

(** The pairs emitted are of two authors with posts in one narrative. *)
Lemma detect_all_pairs_elem `{Sklearn} (self : CoordinationDetector)
    (embeddings : option (nat -> list Q)) (posts : list NormalizedPost) (p : CoordinatedPair) :
  p ∈ detect_all_pairs self embeddings posts ->
  exists (nid : string) (post1 post2 : NormalizedPost),
    pair_narrative_id p = Some nid /\ nid <> "" /\ nid <> "noise"
    /\ author1_id p <> author2_id p
    /\ post1 ∈ posts /\ author_id post1 = author1_id p /\ narrative_id post1 = Some nid
    /\ post2 ∈ posts /\ author_id post2 = author2_id p /\ narrative_id post2 = Some nid
    /\ self_similarity_threshold self <= score p.
Proof.
  intros Hp. unfold detect_all_pairs in Hp.
  apply list_elem_of_In, in_flat_map in Hp as ([nid post_data] & Hentry & Hp).
  apply list_elem_of_In in Hentry. apply list_elem_of_In in Hp. simpl in Hp.
  destruct (length post_data <? 2)%nat; [by apply elem_of_nil in Hp|].
  apply group_by_narrative_entry in Hentry as (Hne & Hnoise & _ & Hposts).
  unfold _detect_pairs_in_narrative in Hp.
  apply pairs_loop_elem in Hp as (i & j & a1 & a2 & Hi & Hj & Hij & -> & Hle).
  pose proof (group_by_author_NoDup post_data) as Hnd.
  assert (forall k a, map fst (group_by_author post_data) !! k = Some a ->
            exists q, q ∈ posts /\ author_id q = a /\ narrative_id q = Some nid) as Hauthor.
  { intros k a Hk. assert (a ∈ map fst (group_by_author post_data)) as Ha.
    { apply list_elem_of_lookup. by exists k. }
    apply group_by_author_keys in Ha as (pi & Hpi & Ha).
    destruct (Hposts pi Hpi) as [Hlook Hnar]. exists (fst pi).
    split; [|done]. apply list_elem_of_lookup. by exists (snd pi). }
  destruct (Hauthor i a1 Hi) as (post1 & H1 & Ha1 & Hn1).
  destruct (Hauthor j a2 Hj) as (post2 & H2 & Ha2 & Hn2).
  exists nid, post1, post2. simpl. repeat split; try done.
  intros ->. pose proof (NoDup_lookup _ _ _ _ Hnd Hi Hj). lia.
Qed.

(** X5.  Every pair that [detect_from_posts] emits is about two different
    authors of one narrative that has a name other than "noise": each of
    the two has a post of the input in that narrative, and the score of
    the pair is at least the threshold. *)
Theorem detected_pair_wellformed (sk : Sklearn) (self : CoordinationDetector)
    (embeddings : option (nat -> list Q)) (posts : list NormalizedPost) (p : CoordinatedPair) :
  p ∈ detect_all_pairs self embeddings posts ->
  exists (nid : string) (post1 post2 : NormalizedPost),
    pair_narrative_id p = Some nid /\ nid <> "" /\ nid <> "noise"
    /\ author1_id p <> author2_id p
    /\ post1 ∈ posts /\ author_id post1 = author1_id p /\ narrative_id post1 = Some nid
    /\ post2 ∈ posts /\ author_id post2 = author2_id p /\ narrative_id post2 = Some nid
    /\ self_similarity_threshold self <= score p.
Proof. apply detect_all_pairs_elem. Qed.

Lemma detected_pair_wellformed_witness :
  exists (nid : string) (post1 post2 : NormalizedPost),
    nid <> "noise" /\ post1 ∈ two_narratives /\ post2 ∈ two_narratives
    /\ author_id post1 = "alice" /\ author_id post2 = "bob"
    /\ narrative_id post1 = Some nid /\ narrative_id post2 = Some nid.
Proof.
  destruct (detected_pair_wellformed constant_similarity default_detector some_embeddings
              two_narratives
              (pair_record (H := constant_similarity) default_detector some_embeddings
                 [(narrative_post "p1" "alice" "n1" 0, 0%nat);
                  (narrative_post "p2" "bob" "n1" 10, 1%nat)] "n1" "alice" "bob"))
    as (nid & post1 & post2 & _ & _ & Hnoise & _ & H1 & Ha1 & Hn1 & H2 & Ha2 & Hn2 & _).
  { vm_compute. left. }
  exists nid, post1, post2. repeat split; done.
Defined.

Section pair_names.
Context `{Sklearn}.
Variable self : CoordinationDetector.
Variable embeddings : option (nat -> list Q).
Variable author_posts : list (string * list (NormalizedPost * nat)).
Variable nid : string.

Lemma pairs_of_author_authors (author1 : string) (rest : list string) :
  NoDup rest ->
  NoDup (map authors_of (pairs_of_author self embeddings author_posts nid author1 rest))
  /\ forall x, x ∈ map authors_of (pairs_of_author self embeddings author_posts nid author1 rest) ->
       fst x = author1 /\ snd x ∈ rest.
Proof.
  unfold pairs_of_author. induction rest as [|a rest IH]; intros Hnd; simpl.
  { split; [constructor|]. by intros x ?%elem_of_nil. }
  apply NoDup_cons in Hnd as [Hfresh Hnd]. destruct (IH Hnd) as [IHnd IHin].
  destruct (_calculate_pair_score self embeddings (dict_get [] author_posts author1)
              (dict_get [] author_posts a)) as [sc ev].
  destruct (Qle_bool (self_similarity_threshold self) sc); simpl.
  - split.
    + apply NoDup_cons. split; [|done]. intros Hin. apply IHin in Hin as [_ Hin]. done.
    + intros x [->|Hx]%elem_of_cons; [split; [done|left]|].
      destruct (IHin x Hx). split; [done|by right].
  - split; [done|]. intros x Hx. destruct (IHin x Hx). split; [done|by right].
Qed.

Lemma pairs_loop_authors (ids : list string) :
  NoDup ids ->
  NoDup (map authors_of (pairs_loop self embeddings author_posts nid ids))
  /\ forall x, x ∈ map authors_of (pairs_loop self embeddings author_posts nid ids) ->
       fst x ∈ ids /\ snd x ∈ ids.
Proof.
  induction ids as [|a ids IH]; intros Hnd; simpl.
  { split; [constructor|]. by intros x ?%elem_of_nil. }
  apply NoDup_cons in Hnd as [Hfresh Hnd]. destruct (IH Hnd) as [IHnd IHin].
  destruct (pairs_of_author_authors a ids Hnd) as [Hnd1 Hin1].
  rewrite map_app. split.
  - apply NoDup_app. split; [done|]. split; [|done].
    intros x Hx1 Hx2. apply Hin1 in Hx1 as [Hx1 _]. apply IHin in Hx2 as [Hx2 _].
    rewrite Hx1 in Hx2. done.
  - intros x [Hx|Hx]%elem_of_app.
    + apply Hin1 in Hx as [-> Hx]. split; [left|by right].
    + apply IHin in Hx as [? ?]. split; by right.
Qed.

End pair_names.

(** X6.  Within one narrative the detector makes at most one record of
    two authors, in whichever order the record names them. *)
Theorem one_record_per_author_pair (sk : Sklearn) (self : CoordinationDetector)
    (embeddings : option (nat -> list Q)) (post_data : list (NormalizedPost * nat))
    (nid : string) (i j : nat) (p q : CoordinatedPair) :
  let emitted := _detect_pairs_in_narrative self embeddings post_data nid in
  emitted !! i = Some p -> emitted !! j = Some q ->
  authors_of p = authors_of q \/ authors_of p = (author2_id q, author1_id q) ->
  i = j.
Proof.
  intros emitted Hi Hj Hnames.
  pose proof (group_by_author_NoDup post_data) as Hnd.
  destruct Hnames as [Hsame|Hswap].
  - destruct (pairs_loop_authors self embeddings (group_by_author post_data) nid _ Hnd)
      as [Hnames _].
    apply (NoDup_lookup _ i j (authors_of p) Hnames).
    + change (map authors_of emitted !! i = Some (authors_of p)).
      change (map authors_of emitted) with (authors_of <$> emitted).
      by rewrite list_lookup_fmap, Hi.
    + change ((authors_of <$> emitted) !! j = Some (authors_of p)).
      by rewrite list_lookup_fmap, Hj, Hsame.
  - exfalso.
    assert (p ∈ emitted) as Hp by (apply list_elem_of_lookup; by exists i).
    assert (q ∈ emitted) as Hq by (apply list_elem_of_lookup; by exists j).
    unfold emitted, _detect_pairs_in_narrative in Hp, Hq.
    apply pairs_loop_elem in Hp as (i1 & j1 & a1 & a2 & Hi1 & Hj1 & Hlt1 & -> & _).
    apply pairs_loop_elem in Hq as (i2 & j2 & b1 & b2 & Hi2 & Hj2 & Hlt2 & -> & _).
    unfold authors_of in Hswap. simpl in Hswap. injection Hswap as -> ->.
    pose proof (NoDup_lookup _ _ _ _ Hnd Hi1 Hj2).
    pose proof (NoDup_lookup _ _ _ _ Hnd Hj1 Hi2). lia.
Qed.

Lemma one_record_per_author_pair_witness : 0%nat = 0%nat.
Proof.
  apply (one_record_per_author_pair constant_similarity default_detector some_embeddings
           (alice_posts ++ bob_posts) "n1" 0 0
           (pair_record (H := constant_similarity) default_detector some_embeddings
              (alice_posts ++ bob_posts) "n1" "alice" "bob")
           (pair_record (H := constant_similarity) default_detector some_embeddings
              (alice_posts ++ bob_posts) "n1" "alice" "bob")).
  - vm_compute. reflexivity.
  - vm_compute. reflexivity.
  - left. reflexivity.
Defined.

(** ** Groups share no author *)

Lemma concat_Permutation {A} (l l' : list (list A)) : l ≡ₚ l' -> concat l ≡ₚ concat l'.
Proof.
  induction 1 as [|x l l' _ IH|x y l|l l' l'' _ IH1 _ IH2]; simpl.
  - done.
  - by rewrite IH.
  - by rewrite !app_assoc, (Permutation_app_comm y x).
  - by trans (concat l').
Qed.

Lemma concat_elem {A} (x : A) (ls : list (list A)) :
  x ∈ concat ls <-> exists l, x ∈ l /\ l ∈ ls.
Proof.
  induction ls as [|c ls IH]; simpl.
  { split; [by intros ?%elem_of_nil|]. by intros (l & _ & ?%elem_of_nil). }
  rewrite elem_of_app, IH. split.
  - intros [Hx|(l & Hx & Hl)]; [exists c; split; [done|left]|].
    exists l. split; [done|by right].
  - intros (l & Hx & [->|Hl]%elem_of_cons); [by left|]. right. by exists l.
Qed.

Lemma concat_filter_NoDup {A} (P : list A -> Prop) `{!forall x, Decision (P x)}
    (l : list (list A)) :
  NoDup (concat l) -> NoDup (concat (filter P l)).
Proof.
  induction l as [|c l IH]; simpl; [done|].
  intros (Hc & Hdisj & Hl)%NoDup_app. specialize (IH Hl).
  destruct (decide (P c)).
  - rewrite filter_cons_True by done. simpl. apply NoDup_app. split; [done|]. split; [|done].
    intros a Ha Hin. apply (Hdisj a Ha).
    apply concat_elem in Hin as (d & Ha' & Hd). apply concat_elem.
    exists d. split; [done|]. apply list_elem_of_filter in Hd. tauto.
  - by rewrite filter_cons_False.
Qed.

(** A traversal visits authors that no earlier one has visited. *)
Lemma scan_disjoint_keep (pairs : list CoordinatedPair) (keys : list string)
    (visited : gset string) (found : list (list string))
    (visited' : gset string) (found' : list (list string)) :
  (forall k, k ∈ keys -> exists b, linked pairs k b) ->
  scan_invariant pairs visited found -> NoDup (concat found) ->
  foldl (component_scan (fst (adjacency pairs))) (Some (visited, found)) keys
  = Some (visited', found') ->
  NoDup (concat found').
Proof.
  revert visited found.
  induction keys as [|start keys IH]; intros visited found Hkeys Hinv Hnd Hscan.
  { by injection Hscan as <- <-. }
  cbn [foldl] in Hscan.
  assert (forall k, k ∈ keys -> exists b, linked pairs k b) as Hkeys'.
  { intros k Hk. apply Hkeys. by right. }
  destruct (decide (start ∈ visited)) as [Hin|Hnew].
  { rewrite component_scan_visited in Hscan by done. by apply (IH visited found). }
  destruct (bfs_from_start (fst (adjacency pairs)) visited start)
    as [[visited1 component] Hbfs].
  pose proof (component_scan_new _ _ _ found _ _ Hnew Hbfs) as Hone.
  rewrite Hone in Hscan.
  destruct (scan_invariant_keep pairs [start] visited found visited1 (found ++ [component]))
    as (Hinv1 & _); [|done|done|].
  { intros k ->%list_elem_of_singleton. apply Hkeys. left. }
  destruct Hinv as (Hvis & Hclosed & _).
  destruct (bfs_component pairs (fst (adjacency pairs)) (adjacency_neighbours pairs)
              visited start visited1 component Hclosed Hnew Hbfs)
    as (_ & Hndc & Hold & _).
  apply (IH visited1 (found ++ [component])); [done|done| |done].
  rewrite concat_app. simpl. rewrite app_nil_r. apply NoDup_app.
  split; [done|]. split; [|done].
  intros a Ha Hc. apply (Hold a Hc), Hvis.
  apply concat_elem in Ha as (c & Ha & Hin). by exists c.
Qed.

Lemma found_components_disjoint (pairs : list CoordinatedPair) (found : list (list string)) :
  found_components pairs = Some found -> NoDup (concat found).
Proof.
  unfold found_components. intros Hfound.
  destruct (foldl _ (Some (∅, [])) (map fst (fst (adjacency pairs))))
    as [[visited found']|] eqn:Hscan; [|done].
  injection Hfound as ->.
  apply (scan_disjoint_keep pairs _ ∅ [] visited found
           (fun k Hk => proj1 (adjacency_keys pairs k) Hk)); [|constructor|done].
  split; [|split].
  - intros a. split; [by intros ?%elem_of_empty|]. by intros (c & ?%elem_of_nil & _).
  - by intros a b ?%elem_of_empty.
  - by intros c ?%elem_of_nil.
Qed.

Lemma build_groups_disjoint (self : CoordinationDetector) (pairs : list CoordinatedPair)
    (groups : list CoordinatedGroup) :
  _build_groups self pairs = Some groups -> NoDup (concat (map author_ids groups)).
Proof.
  intros Hbuild.
  destruct (build_groups_found self pairs) as (found & groups' & Hfound & Hbuild' & Hperm & _).
  rewrite Hbuild in Hbuild'. injection Hbuild' as <-.
  rewrite (concat_Permutation _ _ Hperm).
  apply concat_filter_NoDup. by apply (found_components_disjoint pairs).
Qed.

(** X7.  The groups that [_build_groups] reports share no author: their
    lists of authors, put end to end, name no author twice. *)
Theorem groups_share_no_author (self : CoordinationDetector) (pairs : list CoordinatedPair)
    (groups : list CoordinatedGroup) :
  _build_groups self pairs = Some groups -> NoDup (concat (map author_ids groups)).
Proof. apply build_groups_disjoint. Qed.

Lemma groups_share_no_author_witness :
  exists groups, _build_groups default_detector chain_and_couple = Some groups
                 /\ NoDup (concat (map author_ids groups)).
Proof.
  eexists. split; [vm_compute; reflexivity|].
  apply (groups_share_no_author default_detector chain_and_couple). vm_compute. reflexivity.
Defined.

(** ** The order of the results *)

Lemma insert_group_sorted (g : CoordinatedGroup) (l : list CoordinatedGroup) :
  StronglySorted (fun g h => group_score h <= group_score g) l ->
  StronglySorted (fun g h => group_score h <= group_score g) (insert_group g l).
Proof.
  induction l as [|h t IH]; intros Hl; simpl.
  { repeat constructor. }
  apply StronglySorted_inv in Hl as [Ht Hh].
  destruct (Qle_bool (group_score h) (group_score g)) eqn:E.
  - apply Qle_bool_iff in E. constructor; [by constructor|].
    constructor; [done|]. eapply Forall_impl; [exact Hh|].
    intros x Hx. simpl in Hx. by apply (Qle_trans _ (group_score h)).
  - assert (group_score g <= group_score h) as Hle.
    { apply Qlt_le_weak, Qnot_le_lt. intros Hle. apply Qle_bool_iff in Hle. congruence. }
    constructor; [by apply IH|].
    rewrite insert_group_Permutation. by constructor.
Qed.

(** X8.  [_build_groups] returns its groups by descending score: no group
    has a score below that of a group after it. *)
Theorem groups_by_descending_score (self : CoordinationDetector)
    (pairs : list CoordinatedPair) (groups : list CoordinatedGroup) :
  _build_groups self pairs = Some groups ->
  StronglySorted (fun g h => group_score h <= group_score g) groups.
Proof.
  destruct pairs as [|p pairs]; [intros [= <-]; constructor|].
  unfold _build_groups. destruct (adjacency (p :: pairs)) as [graph pair_scores].
  destruct (foldl _ _ _) as [[[visited made] counter]|]; [|done].
  intros [= <-]. induction made as [|g made IH]; simpl; [constructor|].
  by apply insert_group_sorted.
Qed.

Lemma groups_by_descending_score_witness :
  exists groups, _build_groups default_detector chain_and_couple = Some groups
                 /\ StronglySorted (fun g h => group_score h <= group_score g) groups.
Proof.
  eexists. split; [vm_compute; reflexivity|].
  apply (groups_by_descending_score default_detector chain_and_couple).
  vm_compute. reflexivity.
Defined.

Lemma insert_risk_Permutation (r : NarrativeRisk) (l : list NarrativeRisk) :
  insert_risk r l ≡ₚ r :: l.
Proof.
  induction l as [|h t IH]; simpl; [done|].
  destruct (Qle_bool (risk_score h) (risk_score r)); [done|].
  rewrite IH. apply Permutation_swap.
Qed.

Lemma insert_risk_sorted (r : NarrativeRisk) (l : list NarrativeRisk) :
  StronglySorted (fun r r' => risk_score r' <= risk_score r) l ->
  StronglySorted (fun r r' => risk_score r' <= risk_score r) (insert_risk r l).
Proof.
  induction l as [|h t IH]; intros Hl; simpl.
  { repeat constructor. }
  apply StronglySorted_inv in Hl as [Ht Hh].
  destruct (Qle_bool (risk_score h) (risk_score r)) eqn:E.
  - apply Qle_bool_iff in E. constructor; [by constructor|].
    constructor; [done|]. eapply Forall_impl; [exact Hh|].
    intros x Hx. simpl in Hx. by apply (Qle_trans _ (risk_score h)).
  - assert (risk_score r <= risk_score h) as Hle.
    { apply Qlt_le_weak, Qnot_le_lt. intros Hle. apply Qle_bool_iff in Hle. congruence. }
    constructor; [by apply IH|].
    rewrite insert_risk_Permutation. by constructor.
Qed.

Lemma assigned_unnamed (nid : string) (posts : list NormalizedPost) :
  nid = "" \/ nid = "noise" -> assigned nid posts = [].
Proof.
  intros Hnid. unfold assigned. induction posts as [|p posts IH]; [done|].
  rewrite filter_cons_False; [done|].
  intros (_ & Hne & Hnoise)%in_narrative_Some. tauto.
Qed.

(** X9.  [calculate_risk] assesses each narrative of its list that has a
    post assigned to it - a post that carries its name, which is not
    "noise" - from those posts and no others, assesses no other
    narrative, and returns the assessments by descending risk score. *)
Theorem calculate_risk_assessments (settings : Settings) (posts : list NormalizedPost)
    (narratives : list NarrativeMetadata) (groups : list CoordinatedGroup) :
  let risks := calculate_risk settings posts narratives groups in
  risks ≡ₚ map (fun n => _calculate_narrative_risk settings n
                           (assigned (narrative_meta_id n) posts) groups)
             (with_posts posts narratives)
  /\ StronglySorted (fun r r' => risk_score r' <= risk_score r) risks
  /\ (forall n, n ∈ with_posts posts narratives ->
        narrative_meta_id n <> "" /\ narrative_meta_id n <> "noise"
        /\ exists p, p ∈ posts /\ narrative_id p = Some (narrative_meta_id n)).
Proof.
  intros risks. unfold risks, calculate_risk.
  set (made := flat_map _ narratives).
  assert (made = map (fun n => _calculate_narrative_risk settings n
                                 (assigned (narrative_meta_id n) posts) groups)
                   (with_posts posts narratives)) as ->.
  { unfold made, with_posts. clear. induction narratives as [|n narratives IH]; [done|].
    cbn [flat_map].
    change (foldl _ [] posts) with (collect in_narrative id [] posts) in *.
    rewrite collect_get. cbn [dict_get app]. rewrite map_id. fold (assigned (narrative_meta_id n) posts).
    destruct (assigned (narrative_meta_id n) posts) as [|p ps] eqn:E.
    - rewrite filter_cons_False; [exact IH|]. rewrite E. simpl. lia.
    - rewrite filter_cons_True by (rewrite E; simpl; lia).
      cbn [map app]. rewrite E. by rewrite <- IH. }
  split; [|split].
  - generalize (map (fun n => _calculate_narrative_risk settings n
                                (assigned (narrative_meta_id n) posts) groups)
                  (with_posts posts narratives)).
    intros l. induction l as [|r l IH]; simpl; [done|].
    by rewrite insert_risk_Permutation, IH.
  - generalize (map (fun n => _calculate_narrative_risk settings n
                                (assigned (narrative_meta_id n) posts) groups)
                  (with_posts posts narratives)).
    intros l. induction l as [|r l IH]; simpl; [constructor|].
    by apply insert_risk_sorted.
  - intros n [Hpos _]%list_elem_of_filter.
    destruct (assigned (narrative_meta_id n) posts) as [|p ps] eqn:E; [simpl in Hpos; lia|].
    assert (p ∈ assigned (narrative_meta_id n) posts) as Hp by (rewrite E; left).
    apply list_elem_of_filter in Hp as [(Hnar & Hne & Hnoise)%in_narrative_Some Hp].
    split; [done|]. split; [done|]. by exists p.
Qed.

(** ** The score of a group *)

Lemma sorted_key_comm (a b : string) : sorted_key a b = sorted_key b a.
Proof.
  unfold sorted_key, String.ltb. rewrite (String.compare_antisym a b).
  destruct (String.compare b a) eqn:E; simpl; try done.
  by apply String.compare_eq_iff in E as ->.
Qed.

(** [pair_scores] has a record under the key of every pair. *)
Lemma adjacency_scores_key (pairs : list CoordinatedPair)
    (st : list (string * gset string) * gmap (string * string) CoordinatedPair)
    (k : string * string) :
  is_Some (snd st !! k)
  \/ (exists p, p ∈ pairs /\ k = sorted_key (author1_id p) (author2_id p)) ->
  is_Some (snd (foldl add_pair st pairs) !! k).
Proof.
  revert st. induction pairs as [|q pairs IH]; intros st Hk; simpl.
  { destruct Hk as [?|(p & ?%elem_of_nil & _)]; done. }
  apply IH. unfold add_pair. cbn [snd].
  destruct (decide (k = sorted_key (author1_id q) (author2_id q))) as [->|Hne].
  { left. by rewrite lookup_insert_eq. }
  destruct Hk as [Hk|(p & [->|Hp]%elem_of_cons & Hkey)]; [| done |right; by exists p].
  left. by rewrite lookup_insert_ne.
Qed.

Lemma sorted_key_inv (a b c d : string) :
  sorted_key a b = sorted_key c d -> (a = c /\ b = d) \/ (a = d /\ b = c).
Proof.
  unfold sorted_key. destruct (String.ltb b a), (String.ltb d c); intros [= -> ->]; tauto.
Qed.

(** A record of [pair_scores] is a pair, under the key of its authors. *)
Lemma adjacency_scores_entry (pairs : list CoordinatedPair)
    (st : list (string * gset string) * gmap (string * string) CoordinatedPair)
    (k : string * string) (p : CoordinatedPair) :
  snd (foldl add_pair st pairs) !! k = Some p ->
  snd st !! k = Some p
  \/ (p ∈ pairs /\ k = sorted_key (author1_id p) (author2_id p)).
Proof.
  revert st. induction pairs as [|q pairs IH]; intros st Hk; simpl in Hk; [by left|].
  apply IH in Hk as [Hk|[Hp Hkey]]; [|right; split; [by right|done]].
  unfold add_pair in Hk. cbn [snd] in Hk.
  destruct (decide (k = sorted_key (author1_id q) (author2_id q))) as [->|Hne].
  - rewrite lookup_insert_eq in Hk. injection Hk as <-. right. split; [left|done].
  - rewrite lookup_insert_ne in Hk by done. by left.
Qed.

Section score_loop_proofs.
Variable pair_scores : gmap (string * string) CoordinatedPair.

Lemma score_step_length (a1 : string) (rest : list string) (st : list Q * gset string) :
  (length (fst st) <= length (fst (foldl (score_step pair_scores a1) st rest)))%nat.
Proof.
  revert st. induction rest as [|a2 rest IH]; intros st; [done|].
  simpl. etrans; [|apply IH]. unfold score_step.
  destruct (pair_scores !! sorted_key a1 a2); [|done].
  cbn [fst]. rewrite length_app. lia.
Qed.

Lemma score_step_hit (a1 b : string) (rest : list string) (st : list Q * gset string) :
  b ∈ rest -> is_Some (pair_scores !! sorted_key a1 b) ->
  (length (fst st) < length (fst (foldl (score_step pair_scores a1) st rest)))%nat.
Proof.
  intros Hb [found Hfound]. revert st. induction rest as [|a2 rest IH]; intros st.
  { by apply elem_of_nil in Hb. }
  simpl. apply elem_of_cons in Hb as [<-|Hb].
  - eapply Nat.lt_le_trans; [|apply score_step_length].
    unfold score_step. rewrite Hfound. cbn [fst]. rewrite length_app. simpl. lia.
  - eapply Nat.le_lt_trans; [|by apply IH].
    unfold score_step. destruct (pair_scores !! sorted_key a1 a2); [|done].
    cbn [fst]. rewrite length_app. lia.
Qed.

Lemma score_loop_length (component : list string) (st : list Q * gset string) :
  (length (fst st) <= length (fst (score_loop pair_scores component st)))%nat.
Proof.
  revert st. induction component as [|a1 rest IH]; intros st; [done|].
  simpl. etrans; [apply (score_step_length a1 rest)|apply IH].
Qed.

(** Two authors of a component that have a record add a score. *)
Lemma score_loop_hit (component : list string) (st : list Q * gset string)
    (i j : nat) (a b : string) :
  component !! i = Some a -> component !! j = Some b -> (i < j)%nat ->
  is_Some (pair_scores !! sorted_key a b) ->
  (length (fst st) < length (fst (score_loop pair_scores component st)))%nat.
Proof.
  revert st i j. induction component as [|a1 rest IH]; intros st i j Hi Hj Hij Hkey; [done|].
  simpl. destruct j as [|j]; [lia|]. destruct i as [|i]; simpl in Hi, Hj.
  - injection Hi as ->. eapply Nat.lt_le_trans; [|apply score_loop_length].
    apply (score_step_hit a b); [|done]. apply list_elem_of_lookup. by exists j.
  - eapply Nat.le_lt_trans; [apply (score_step_length a1 rest)|].
    apply (IH _ i j); [done|done|lia|done].
Qed.

End score_loop_proofs.

Section score_loop_scores.
Variable pair_scores : gmap (string * string) CoordinatedPair.
Variable P : Q -> Prop.
Variable authors : list string.
Hypothesis recorded :
  forall a1 a2 p,
    a1 ∈ authors -> a2 ∈ authors -> pair_scores !! sorted_key a1 a2 = Some p -> P (score p).

Lemma score_step_scores (a1 : string) (rest : list string) (st : list Q * gset string) :
  a1 ∈ authors -> (forall a, a ∈ rest -> a ∈ authors) ->
  Forall P (fst st) -> Forall P (fst (foldl (score_step pair_scores a1) st rest)).
Proof.
  intros Ha1. revert st. induction rest as [|a2 rest IH]; intros st Hrest Hst; [done|].
  simpl. apply IH; [intros a Ha; apply Hrest; by right|]. unfold score_step.
  destruct (pair_scores !! sorted_key a1 a2) as [found|] eqn:E; [|done].
  cbn [fst]. apply Forall_app. split; [done|]. apply Forall_singleton.
  apply (recorded a1 a2); [done|apply Hrest; left|done].
Qed.

(** The scores that the loops collect are scores of records of two
    authors of the component. *)
Lemma score_loop_scores (component : list string) (st : list Q * gset string) :
  (forall a, a ∈ component -> a ∈ authors) ->
  Forall P (fst st) -> Forall P (fst (score_loop pair_scores component st)).
Proof.
  revert st. induction component as [|a1 rest IH]; intros st Hsub Hst; [done|].
  simpl. apply IH; [intros a Ha; apply Hsub; by right|].
  apply score_step_scores; [apply Hsub; left|intros a Ha; apply Hsub; by right|done].
Qed.

End score_loop_scores.

Lemma py_sum_between (lo hi : Q) (l : list Q) (a : Q) :
  Forall (fun x => lo <= x <= hi) l ->
  a + lo * len l <= foldl Qplus a l /\ foldl Qplus a l <= a + hi * len l.
Proof.
  unfold len. revert a. induction l as [|x l IH]; intros a Hall; simpl.
  { change (inject_Z (Z.of_nat 0)) with 0. lra. }
  apply Forall_cons in Hall as [[Hx0 Hx1] Hall].
  destruct (IH (a + x) Hall) as [Hlo Hhi].
  rewrite Nat2Z.inj_succ, <- Z.add_1_r, inject_Z_plus.
  change (inject_Z 1) with 1. lra.
Qed.

(** The mean of scores lies between their bounds. *)
Lemma average_between (lo hi : Q) (l : list Q) :
  l <> [] -> Forall (fun x => lo <= x <= hi) l -> lo <= py_sum l / len l <= hi.
Proof.
  intros Hne Hall. destruct (py_sum_between lo hi l 0 Hall) as [Hlo Hhi].
  assert (0 < len l) as Hpos.
  { apply inject_nat_pos. destruct l; [done|simpl; lia]. }
  unfold py_sum. split.
  - apply Qle_shift_div_l; lra.
  - apply Qle_shift_div_r; lra.
Qed.

(** The score of a group is the mean of scores of pairs of its authors,
    of which there is at least one. *)
Lemma build_groups_score_mean (self : CoordinationDetector)
    (pairs : list CoordinatedPair) (groups : list CoordinatedGroup) :
  (forall p, p ∈ pairs -> author1_id p <> author2_id p) ->
  _build_groups self pairs = Some groups ->
  forall g, g ∈ groups ->
    exists scores, scores <> []
      /\ Forall (score_among pairs (author_ids g)) scores
      /\ group_score g = average scores.
Proof.
  intros Hpairs Hbuild g Hg.
  destruct (build_groups_found self pairs) as (found & groups' & Hfound & Hbuild' & Hperm & Hmade).
  rewrite Hbuild in Hbuild'. injection Hbuild' as <-.
  rewrite Forall_forall in Hmade. destruct (Hmade g Hg) as (n & c & ->).
  rewrite make_group_author_ids.
  assert (c ∈ found) as Hc.
  { assert (c ∈ map author_ids groups) as Hin.
    { apply list_elem_of_fmap. eexists. split; [|exact Hg]. by rewrite make_group_author_ids. }
    rewrite Hperm in Hin. apply list_elem_of_filter in Hin. tauto. }
  destruct (found_components_spec pairs found Hfound) as [Hcomp _].
  destruct (Hcomp c Hc) as (Hne & Hnd & Hsame).
  set (ps := snd (adjacency pairs)).
  assert (forall a1 a2 p, a1 ∈ c -> a2 ∈ c -> ps !! sorted_key a1 a2 = Some p ->
            score_among pairs c (score p)) as Hrec.
  { intros a1 a2 p Ha1 Ha2 Hk. unfold ps, adjacency in Hk.
    apply adjacency_scores_entry in Hk as [Hk|[Hp Hkey]].
    { cbn [snd] in Hk. by rewrite lookup_empty in Hk. }
    exists p. split; [done|].
    apply sorted_key_inv in Hkey as [[-> ->]|[-> ->]]; by repeat split. }
  pose proof (score_loop_scores ps (score_among pairs c) c Hrec c ([], ∅)
                ltac:(done) ltac:(constructor)) as Hall.
  assert (0 < length (fst (score_loop ps c ([], ∅))))%nat as Hlen.
  { destruct c as [|a rest]; [done|].
    destruct (Hsame a ltac:(left)) as [(b & p & Hp & Hab) Hconn].
    assert (b ∈ a :: rest) as Hb.
    { apply Hconn. apply rtc_once. by exists p. }
    assert (a <> b) as Hdiff.
    { pose proof (Hpairs p Hp) as Hdiff. destruct Hab as [[<- <-]|[<- <-]]; congruence. }
    assert (is_Some (ps !! sorted_key a b)) as Hkey.
    { unfold ps, adjacency. apply adjacency_scores_key. right. exists p. split; [done|].
      destruct Hab as [[<- <-]|[<- <-]]; [done|apply sorted_key_comm]. }
    apply list_elem_of_lookup in Hb as [j Hj]. destruct j as [|j].
    { simpl in Hj. congruence. }
    apply (score_loop_hit ps (a :: rest) ([], ∅) O (S j) a b); [done|done|lia|done]. }
  unfold make_group. fold ps.
  destruct (score_loop ps c ([], ∅)) as [group_scores nids]. cbn [fst group_score] in *.
  exists group_scores. split; [intros ->; simpl in Hlen; lia|]. split; [done|].
  destruct group_scores; [simpl in Hlen; lia|reflexivity].
Qed.

(** X10.  When the pairs are of two different authors each, the score of
    every group reported is the mean of scores of pairs of its authors,
    of which there is at least one; so it lies between the least and the
    greatest score of the pairs.  The mean is the one the code computes,
    in floating point: it is the exact mean up to [float_slack], taken
    relative to the size of the scores. *)
Theorem group_score_between_pair_scores (self : CoordinationDetector)
    (pairs : list CoordinatedPair) (groups : list CoordinatedGroup) (lo hi : Q) :
  (forall p, p ∈ pairs -> author1_id p <> author2_id p /\ lo <= score p <= hi) ->
  _build_groups self pairs = Some groups ->
  forall g, g ∈ groups ->
    let slack := float_slack * (Qabs lo + Qabs hi) in
    (exists scores, scores <> []
       /\ Forall (score_among pairs (author_ids g)) scores
       /\ Qabs (group_score g - average scores) <= slack)
    /\ lo - slack <= group_score g <= hi + slack.
Proof.
  intros Hpairs Hbuild g Hg slack.
  assert (0 <= slack) as Hslack.
  { unfold slack, float_slack. pose proof (Qabs_nonneg lo). pose proof (Qabs_nonneg hi).
    apply Qmult_le_0_compat; lra. }
  destruct (build_groups_score_mean self pairs groups
              (fun p Hp => proj1 (Hpairs p Hp)) Hbuild g Hg)
    as (scores & Hne & Hscores & Hmean).
  assert (lo <= average scores <= hi) as Hbetween.
  { apply average_between; [done|]. eapply Forall_impl; [exact Hscores|].
    intros s (p & Hp & _ & _ & ->). by apply Hpairs. }
  split.
  - exists scores. split; [done|]. split; [done|].
    rewrite Hmean. apply Qabs_Qle_condition. split; lra.
  - rewrite Hmean. lra.
Qed.

Lemma group_score_between_pair_scores_witness :
  exists g, _build_groups default_detector chain_and_couple = Some [g]
            /\ 0.9 - float_slack * (Qabs 0.9 + Qabs 1) <= group_score g
               <= 1 + float_slack * (Qabs 0.9 + Qabs 1).
Proof.
  eexists. split; [vm_compute; reflexivity|].
  eapply (group_score_between_pair_scores default_detector chain_and_couple _ 0.9 1).
  - intros p Hp. unfold chain_and_couple in Hp.
    repeat (apply elem_of_cons in Hp as [->|Hp]); [| | |by apply elem_of_nil in Hp];
      (split; [discriminate|split; vm_compute; discriminate]).
  - vm_compute. reflexivity.
  - left.
Defined.

(** ** The score that a risk record shows *)

(** X11.  Under the default settings, with groups of sound score and
    size, the score that a risk record shows lies in [0, 1]; and the
    level bounds it, though not strictly: a HIGH record shows at least
    0.8, a MEDIUM one from 0.6 to 0.8, and a LOW one at most 0.6. *)
Theorem risk_score_within_level (narrative : NarrativeMetadata)
    (posts : list NormalizedPost) (groups : list CoordinatedGroup) :
  Forall sound_group groups ->
  let r := _calculate_narrative_risk default_settings narrative posts groups in
  0 <= risk_score r <= 1
  /\ (risk_level r = HIGH -> 0.8 <= risk_score r)
  /\ (risk_level r = MEDIUM -> 0.6 <= risk_score r <= 0.8)
  /\ (risk_level r = LOW -> risk_score r <= 0.6).
Proof.
  intros Hsound r.
  destruct (narrative_risk_level default_settings narrative posts groups)
    as (_ & Hscore & Hlevel).
  fold r in Hscore, Hlevel. rewrite Hscore, Hlevel.
  set (raw := weighted_score _ _).
  assert (0 <= raw <= 1) as Hraw.
  { destruct (risk_components_unit default_settings narrative posts groups Hsound)
      as (Hv & Hc & Hb & Hf & Ht).
    unfold raw, weighted_score.
    cbn [default_settings risk weights weight_velocity weight_coordination_density
         weight_bot_score weight_foreign_domain_ratio weight_toxicity].
    lra. }
  split; [by apply round4_unit|].
  assert (forall n : Z, inject_Z n / 10000 <= raw -> inject_Z n / 10000 <= round4 raw) as Hge
    by (intros n; apply round4_ge_grid).
  assert (forall n : Z, raw <= inject_Z n / 10000 -> round4 raw <= inject_Z n / 10000) as Hle
    by (intros n; apply round4_le_grid).
  specialize (Hge 8000%Z) as Hge8. specialize (Hge 6000%Z) as Hge6.
  specialize (Hle 8000%Z) as Hle8. specialize (Hle 6000%Z) as Hle6.
  assert (inject_Z 8000 / 10000 == 0.8) as E8 by reflexivity.
  assert (inject_Z 6000 / 10000 == 0.6) as E6 by reflexivity.
  rewrite E8 in Hge8, Hle8. rewrite E6 in Hge6, Hle6.
  unfold level_of.
  cbn [default_settings risk thresholds threshold_high threshold_medium].
  destruct (Qle_bool 0.8 raw) eqn:Hh; [apply Qle_bool_iff in Hh|];
    (destruct (Qle_bool 0.6 raw) eqn:Hm; [apply Qle_bool_iff in Hm|]);
    repeat match goal with
    | H : Qle_bool ?a ?b = false |- _ =>
        assert (b < a) by (apply Qnot_le_lt; rewrite <- Qle_bool_iff; congruence); clear H
    end;
    (split; [intros ?|split; intros ?]); try done; try split; try lra;
    first [apply Hge8 | apply Hge6 | apply Hle8 | apply Hle6]; lra.
Qed.

Lemma risk_score_within_level_witness :
  let r := _calculate_narrative_risk default_settings risky_narrative risky_posts risky_groups in
  0 <= risk_score r <= 1
  /\ (risk_level r = HIGH -> 0.8 <= risk_score r)
  /\ (risk_level r = MEDIUM -> 0.6 <= risk_score r <= 0.8)
  /\ (risk_level r = LOW -> risk_score r <= 0.6).
Proof.
  apply (risk_score_within_level risky_narrative risky_posts risky_groups).
  unfold risky_groups. repeat constructor; vm_compute; discriminate.
Defined.

(** ** The reasons of a risk record *)

(** X12.  [_generate_reasons] gives one reason for each component that
    reaches 0.3, and the one sentence "No significant risk factors
    identified" exactly when none does: the list is never empty and has
    at most five reasons. *)
Theorem reasons_of_reported_components (c : RiskComponents) (w : RiskWeightsConfig) :
  length (_generate_reasons c w) = Nat.max 1 (reported c)
  /\ (1 <= length (_generate_reasons c w) <= 5)%nat
  /\ (_generate_reasons c w = ["No significant risk factors identified"] <-> reported c = O).
Proof.
  unfold _generate_reasons, reported, reason.
  destruct (Qle_bool 0.3 (velocity c)) eqn:E1;
    destruct (Qle_bool 0.3 (coordination_density c)) eqn:E2;
    destruct (Qle_bool 0.3 (bot_score c)) eqn:E3;
    destruct (Qle_bool 0.3 (foreign_domain_ratio c)) eqn:E4;
    destruct (Qle_bool 0.3 (toxicity c)) eqn:E5;
    repeat (first [rewrite filter_cons_True by (rewrite ?E1, ?E2, ?E3, ?E4, ?E5; exact I)
                  |rewrite filter_cons_False by (rewrite ?E1, ?E2, ?E3, ?E4, ?E5; exact id)]);
    rewrite filter_nil; cbn [app length Nat.max];
    (split; [reflexivity|split; [lia|]]);
    (split; intros Heq;
       first [reflexivity | discriminate Heq
             | injection Heq as Heq; cbn [String.append] in Heq; discriminate Heq]).
Qed.

(** ** The foreign domains *)

Lemma foreign_step_sets (tlds : list string) (ds : list string) (all foreign : gset string) :
  foldl (foreign_step tlds) (all, foreign) ds
  = (all ∪ list_to_set ds, foreign ∪ foreign_among tlds (list_to_set ds)).
Proof.
  unfold foreign_among.
  revert all foreign. induction ds as [|d ds IH]; intros all foreign; simpl.
  { f_equal; apply set_eq; intros x;
      rewrite ?elem_of_union, ?elem_of_filter, ?elem_of_empty; tauto. }
  unfold foreign_step at 2. cbn [fst snd]. rewrite IH.
  f_equal; apply set_eq; intros x.
  - rewrite !elem_of_union. tauto.
  - destruct (existsb (endswith d) tlds) eqn:E;
      rewrite !elem_of_union, !elem_of_filter, elem_of_union, !elem_of_singleton.
    + split.
      * intros [[?| ->]|[? ?]]; [tauto| |tauto]. right. split; [by rewrite E|by left].
      * intros [?|[Hx [ ->|?]]]; [tauto| |tauto]. left. by right.
    + split; [tauto|]. intros [?|[Hx [ ->|?]]]; [tauto| |tauto].
      rewrite E in Hx. done.
Qed.

Lemma foreign_loop_sets (tlds : list string) (posts : list NormalizedPost)
    (all foreign : gset string) :
  foldl (fun st post => foldl (foreign_step tlds) st (domains post)) (all, foreign) posts
  = (all ∪ domain_set posts, foreign ∪ foreign_among tlds (domain_set posts)).
Proof.
  unfold domain_set, foreign_among.
  revert all foreign. induction posts as [|p posts IH]; intros all foreign; simpl.
  { f_equal; apply set_eq; intros x;
      rewrite ?elem_of_union, ?elem_of_filter, ?elem_of_empty; tauto. }
  rewrite foreign_step_sets, IH. unfold foreign_among.
  f_equal; apply set_eq; intros x.
  - rewrite list_to_set_app_L, !elem_of_union. tauto.
  - rewrite list_to_set_app_L, !elem_of_union, !elem_of_filter, elem_of_union. tauto.
Qed.

Lemma round4_of_1 (x : Q) : x == 1 -> round4 x == 1.
Proof.
  intros Hx. assert (inject_Z 10000 / 10000 == 1) as E by reflexivity.
  pose proof (round4_le_grid 10000 x) as Hle. pose proof (round4_ge_grid 10000 x) as Hge.
  rewrite E in Hle, Hge. apply Qle_antisym; [apply Hle|apply Hge]; rewrite Hx; apply Qle_refl.
Qed.

Lemma round4_of_0 (x : Q) : x == 0 -> round4 x == 0.
Proof.
  intros Hx. assert (inject_Z 0 / 10000 == 0) as E by reflexivity.
  pose proof (round4_le_grid 0 x) as Hle. pose proof (round4_ge_grid 0 x) as Hge.
  rewrite E in Hle, Hge. apply Qle_antisym; [apply Hle|apply Hge]; rewrite Hx; apply Qle_refl.
Qed.

(** X13.  The foreign domain score is the share of foreign domains among
    the distinct domains of the posts, rounded to 4 decimals, and 0 when
    the posts have no domain: how often and in which order the domains
    occur does not count.  It is 1 when all the domains are foreign and 0
    when none is. *)
Theorem foreign_score_of_domain_set (settings : Settings) (posts : list NormalizedPost)
    (foreign_tlds_arg : option (list string)) :
  let tlds := or_list foreign_tlds_arg (foreign_tlds (risk settings)) in
  let all := domain_set posts in
  let foreign := foreign_among tlds all in
  (all = ∅ -> calculate_foreign_domain_score settings posts foreign_tlds_arg = 0)
  /\ (all <> ∅ ->
      rounded4 (inject_Z (Z.of_nat (size foreign)) / inject_Z (Z.of_nat (size all)))
               (calculate_foreign_domain_score settings posts foreign_tlds_arg))
  /\ (all <> ∅ -> foreign = all ->
      calculate_foreign_domain_score settings posts foreign_tlds_arg == 1)
  /\ (foreign = ∅ -> calculate_foreign_domain_score settings posts foreign_tlds_arg == 0).
Proof.
  intros tlds all foreign.
  assert (calculate_foreign_domain_score settings posts foreign_tlds_arg
          = (if (size all =? 0)%nat then 0
             else round4 (inject_Z (Z.of_nat (size foreign)) / inject_Z (Z.of_nat (size all)))))
    as Hscore.
  { unfold calculate_foreign_domain_score. fold tlds.
    destruct posts as [|p posts]; [done|].
    rewrite foreign_loop_sets. fold all. fold foreign.
    by rewrite !(left_id_L ∅ (∪)). }
  assert (all <> ∅ -> (size all =? 0)%nat = false) as Hsize.
  { intros Hne. apply Nat.eqb_neq. intros Hz.
    by apply size_empty_inv, leibniz_equiv in Hz. }
  rewrite Hscore. split; [|split; [|split]].
  - intros ->. by rewrite size_empty.
  - intros Hne. rewrite (Hsize Hne). apply round4_rounded4.
  - intros Hne ->. rewrite (Hsize Hne).
    apply round4_of_1. field. intros Hz.
    assert (0 < inject_Z (Z.of_nat (size all))) as Hpos.
    { apply inject_nat_pos. apply Nat.eqb_neq in Hsize; [lia|done]. }
    lra.
  - intros ->. destruct (size all =? 0)%nat; [done|].
    apply round4_of_0. rewrite size_empty. unfold Qdiv. apply Qmult_0_l.
Qed.

(** ** The toxic words *)

Lemma toxicity_loop_words (posts : list NormalizedPost) (st : nat * nat) :
  foldl toxicity_step st posts
  = ((fst st + length (toxic_words posts))%nat, (snd st + length (all_words posts))%nat).
Proof.
  unfold toxic_words, all_words.
  revert st. induction posts as [|p posts IH]; intros [toxic total]; simpl.
  { by rewrite !Nat.add_0_r. }
  rewrite IH. unfold toxicity_step. cbn [fst snd].
  rewrite filter_app, !length_app. f_equal; lia.
Qed.

(** X14.  For ASCII texts, the toxicity score pools the words of all the
    posts: it is the share of toxic words among them, divided by 0.05,
    capped at 1 and rounded to 4 decimals, and 0 when there is no word.
    So it is 0 when no word is toxic, and 1 as soon as one word in twenty
    is. *)
Theorem toxicity_score_of_words (posts : list NormalizedPost) :
  Forall (fun post => ascii_text (text post)) posts ->
  let toxic := length (toxic_words posts) in
  let total := length (all_words posts) in
  (total = O -> calculate_toxicity_score posts = 0)
  /\ (total <> O ->
      rounded4 (Qmin (inject_Z (Z.of_nat toxic) / inject_Z (Z.of_nat total) / 0.05) 1)
               (calculate_toxicity_score posts))
  /\ (toxic = O -> calculate_toxicity_score posts == 0)
  /\ ((0 < total)%nat -> (total <= 20 * toxic)%nat -> calculate_toxicity_score posts == 1).
Proof.
  intros _ toxic total.
  assert (calculate_toxicity_score posts
          = (if (total =? 0)%nat then 0
             else round4 (Qmin (inject_Z (Z.of_nat toxic) / inject_Z (Z.of_nat total) / 0.05) 1)))
    as Hscore.
  { unfold calculate_toxicity_score. destruct posts as [|p posts]; [done|].
    by rewrite toxicity_loop_words. }
  rewrite Hscore. split; [|split; [|split]].
  - by intros ->.
  - intros Hne. destruct (Nat.eqb_spec total 0) as [?|_]; [done|]. apply round4_rounded4.
  - intros ->. destruct (total =? 0)%nat; [done|]. apply round4_of_0.
    change (inject_Z (Z.of_nat 0)) with 0.
    assert (0 / inject_Z (Z.of_nat total) / 0.05 == 0) as -> by (unfold Qdiv; by rewrite !Qmult_0_l).
    reflexivity.
  - intros Hpos Hshare. destruct (Nat.eqb_spec total 0) as [Hz|_]; [lia|].
    apply round4_of_1. apply Q.min_r.
    pose proof (inject_nat_pos total Hpos) as Htotal.
    assert (inject_Z (Z.of_nat total) <= 20 * inject_Z (Z.of_nat toxic)) as Hle.
    { change 20 with (inject_Z 20). rewrite <- inject_Z_mult, <- Zle_Qle. lia. }
    apply Qle_shift_div_l; [reflexivity|]. apply Qle_shift_div_l; [done|]. lra.
Qed.

Lemma toxicity_score_of_words_witness : calculate_toxicity_score [toxic_post] == 1.
Proof.
  assert (Forall (fun post => ascii_text (text post)) [toxic_post]) as Hascii.
  { apply Forall_singleton. unfold ascii_text.
    refine (bool_decide_unpack _ _). vm_compute. exact I. }
  destruct (toxicity_score_of_words [toxic_post] Hascii) as (_ & _ & _ & Hone).
  apply Hone; vm_compute; lia.
Defined.

(** ** Authors with a single post *)

Lemma filter_key_NoDup {A} (f : A -> string) (k : string) (l : list A) :
  NoDup (map f l) -> (length (filter (fun x => f x = k) l) <= 1)%nat.
Proof.
  induction l as [|x l IH]; simpl; [lia|].
  intros [Hfresh Hnd]%NoDup_cons. specialize (IH Hnd).
  destruct (decide (f x = k)) as [Hk|Hk].
  - rewrite filter_cons_True by done. simpl.
    destruct (filter (fun x => f x = k) l) as [|y rest] eqn:E; [simpl; lia|].
    exfalso. apply Hfresh. assert (y ∈ filter (fun x => f x = k) l) as Hy by (rewrite E; left).
    apply list_elem_of_filter in Hy as [Hy Hin]. rewrite Hk, <- Hy.
    apply list_elem_of_fmap. by exists y.
  - by rewrite filter_cons_False.
Qed.

Lemma flat_map_nil {A B} (f : A -> list B) (l : list A) :
  (forall x, x ∈ l -> f x = []) -> flat_map f l = [].
Proof.
  induction l as [|x l IH]; intros Hall; simpl; [done|].
  rewrite (Hall x) by left. apply IH. intros y Hy. apply Hall. by right.
Qed.

(** X15.  The bot score reads only the authors with at least two posts:
    when no author has two posts, it is 0. *)
Theorem bot_score_single_posts (posts : list NormalizedPost) :
  NoDup (map author_id posts) -> calculate_bot_score posts = 0.
Proof.
  intros Hnd. unfold calculate_bot_score. destruct posts as [|p posts]; [done|].
  set (all := p :: posts) in *.
  change (foldl (fun d p => dict_append (author_id p) p d) [] all)
    with (collect (fun p => Some (author_id p)) id [] all).
  rewrite flat_map_nil; [done|].
  intros [k v] Hin. cbn [snd].
  pose proof (collect_NoDup (fun p => Some (author_id p)) id all [] ltac:(constructor)) as Hkeys.
  rewrite <- (dict_entry_get [] _ _ _ Hkeys Hin), collect_get. cbn [dict_get app].
  rewrite length_map.
  assert (length (filter (fun x => Some (author_id x) = Some k) all) <= 1)%nat as Hlen.
  { rewrite (filter_ext_elem _ (fun x => author_id x = k)).
    - by apply filter_key_NoDup.
    - intros x _. split; [by intros [= ->]|by intros ->]. }
  destruct (Nat.ltb_spec (length (filter (fun x => Some (author_id x) = Some k) all)) 2);
    [done|lia].
Qed.

Lemma bot_score_single_posts_witness :
  calculate_bot_score [risky_post "p1" "alice"; risky_post "p2" "bob"] = 0.
Proof.
  apply (bot_score_single_posts [risky_post "p1" "alice"; risky_post "p2" "bob"]).
  repeat constructor; vm_compute; intros H; inversion H as [|? ? ? H']; inversion H'.
Defined.

(** ** The order of the posts *)

(** X16.  The velocity score reads the posts only through their number
    and their timestamps, whatever their order: posts with the same
    timestamps, in any order, have the same score. *)
Theorem velocity_score_of_timestamps (posts posts' : list NormalizedPost) :
  map timestamp posts ≡ₚ map timestamp posts' ->
  calculate_velocity_score posts = calculate_velocity_score posts'.
Proof.
  intros Hperm.
  assert (length posts = length posts') as Hlen.
  { rewrite <- (length_map timestamp posts), <- (length_map timestamp posts').
    by apply Permutation_length. }
  assert (sorted (map timestamp posts) = sorted (map timestamp posts')) as Hsorted.
  { apply (StronglySorted_unique Z.le); [apply sorted_StronglySorted..|].
    by rewrite !sorted_Permutation. }
  unfold calculate_velocity_score, len. by rewrite Hlen, Hsorted.
Qed.

Lemma velocity_score_of_timestamps_witness :
  calculate_velocity_score (rev rapid_posts) = calculate_velocity_score rapid_posts.
Proof.
  apply (velocity_score_of_timestamps (rev rapid_posts) rapid_posts).
  rewrite map_rev. symmetry. apply Permutation_rev.
Defined.

(** ** From the posts to the groups *)

Section score_loop_narratives.
Variable pair_scores : gmap (string * string) CoordinatedPair.
Variable R : string -> Prop.
Variable authors : list string.
Hypothesis recorded :
  forall a1 a2 p nid,
    a1 ∈ authors -> a2 ∈ authors -> pair_scores !! sorted_key a1 a2 = Some p ->
    pair_narrative_id p = Some nid -> truthy_str nid = true -> R nid.

Lemma score_step_narratives (a1 : string) (rest : list string) (st : list Q * gset string) :
  a1 ∈ authors -> (forall a, a ∈ rest -> a ∈ authors) ->
  (forall nid, nid ∈ snd st -> R nid) ->
  forall nid, nid ∈ snd (foldl (score_step pair_scores a1) st rest) -> R nid.
Proof.
  intros Ha1. revert st. induction rest as [|a2 rest IH]; intros st Hrest Hst; [done|].
  simpl. apply IH; [intros a Ha; apply Hrest; by right|]. unfold score_step.
  destruct (pair_scores !! sorted_key a1 a2) as [found|] eqn:E; [|done].
  cbn [snd]. destruct (pair_narrative_id found) as [nid'|] eqn:En; [|done].
  destruct (truthy_str nid') eqn:Et; [|done].
  intros nid [Hin| ->%elem_of_singleton]%elem_of_union; [by apply Hst|].
  apply (recorded a1 a2 found); [done|apply Hrest; left|done|done|done].
Qed.

Lemma score_loop_narratives (component : list string) (st : list Q * gset string) :
  (forall a, a ∈ component -> a ∈ authors) ->
  (forall nid, nid ∈ snd st -> R nid) ->
  forall nid, nid ∈ snd (score_loop pair_scores component st) -> R nid.
Proof.
  revert st. induction component as [|a1 rest IH]; intros st Hsub Hst; [done|].
  simpl. apply IH; [intros a Ha; apply Hsub; by right|].
  apply score_step_narratives; [apply Hsub; left|intros a Ha; apply Hsub; by right|done].
Qed.

End score_loop_narratives.

Lemma make_group_narrative_ids (pair_scores : gmap (string * string) CoordinatedPair)
    (counter : nat) (component : list string) :
  narrative_ids (make_group pair_scores counter component)
  = elements (snd (score_loop pair_scores component ([], ∅))).
Proof. unfold make_group. by destruct (score_loop pair_scores component ([], ∅)). Qed.

(** X17.  Every group that [detect_from_posts] reports rests on the
    posts: its score is a mean of scores that are at least the
    similarity threshold, so it is at least the threshold up to
    [float_slack]; each of its authors has a post in a narrative other
    than "noise", and each of its narratives is the narrative of a post
    and is not "noise". *)
Theorem detected_groups_from_posts (sk : Sklearn) (self : CoordinationDetector)
    (embeddings : option (nat -> list Q)) (posts : list NormalizedPost)
    (pairs : list CoordinatedPair) (groups : list CoordinatedGroup) :
  detect_from_posts self embeddings posts = Some (pairs, groups) ->
  forall g, g ∈ groups ->
    (0 <= self_similarity_threshold self ->
     self_similarity_threshold self * (1 - float_slack) <= group_score g)
    /\ (forall a, a ∈ author_ids g ->
          exists post nid, post ∈ posts /\ author_id post = a
                           /\ narrative_id post = Some nid /\ nid <> "noise")
    /\ (forall nid, nid ∈ narrative_ids g ->
          nid <> "noise" /\ exists post, post ∈ posts /\ narrative_id post = Some nid).
Proof.
  intros Hdetect g Hg. unfold detect_from_posts in Hdetect.
  destruct (_build_groups self (detect_all_pairs self embeddings posts))
    as [groups'|] eqn:Hbuild; [|done].
  injection Hdetect as <- <-.
  set (pairs := detect_all_pairs self embeddings posts) in *.
  split; [|split].
  - intros Hth.
    destruct (build_groups_score_mean self pairs groups') with (g := g)
      as (scores & Hne & Hscores & Hmean); [|done|done|].
    { intros p Hp.
      by destruct (detect_all_pairs_elem self embeddings posts p Hp)
        as (nid & post1 & post2 & _ & _ & _ & Hdiff & _). }
    assert (self_similarity_threshold self <= average scores
            <= py_max (self_similarity_threshold self) (map score pairs)) as [Hlow _].
    { apply average_between; [done|]. eapply Forall_impl; [exact Hscores|].
      intros s (p & Hp & _ & _ & ->).
      destruct (detect_all_pairs_elem self embeddings posts p Hp)
        as (nid & post1 & post2 & _ & _ & _ & _ & _ & _ & _ & _ & _ & _ & Hle).
      split; [done|]. apply py_max_upper. right.
      apply list_elem_of_fmap. by exists p. }
    rewrite Hmean. unfold float_slack. lra.
  - destruct (groups_of_found_components self pairs)
      as (found & groups'' & Hfound & Hbuild' & _ & Hgroups).
    rewrite Hbuild in Hbuild'. injection Hbuild' as <-.
    destruct (Hgroups g Hg) as (Hin & _).
    destruct (found_components_spec pairs found Hfound) as [Hcomp _].
    destruct (Hcomp _ Hin) as (_ & _ & Hsame).
    intros a Ha. destruct (Hsame a Ha) as [(b & p & Hp & Hab) _].
    destruct (detect_all_pairs_elem self embeddings posts p Hp)
      as (nid & post1 & post2 & _ & _ & Hnoise & _ & H1 & Ha1 & Hn1 & H2 & Ha2 & Hn2 & _).
    destruct Hab as [[<- _]|[_ <-]]; [by exists post1, nid|by exists post2, nid].
  - destruct (build_groups_found self pairs) as (found & groups'' & _ & Hbuild' & _ & Hmade).
    rewrite Hbuild in Hbuild'. injection Hbuild' as <-.
    rewrite Forall_forall in Hmade. destruct (Hmade g Hg) as (n & c & ->).
    rewrite make_group_narrative_ids. intros nid Hnid. apply elem_of_elements in Hnid.
    revert nid Hnid.
    apply (score_loop_narratives _ _ c); [|done|by intros nid ?%elem_of_empty].
    intros a1 a2 p nid _ _ Hk Hnid _. revert Hk. generalize (sorted_key a1 a2). intros k Hk.
    assert (p ∈ pairs) as Hp.
    { clear Hnid. revert k p Hk. unfold adjacency.
      apply (adjacency_values pairs ([], ∅) (fun p => p ∈ pairs)).
      - intros k p. cbn [snd]. by rewrite lookup_empty.
      - by apply Forall_forall. }
    destruct (detect_all_pairs_elem self embeddings posts p Hp)
      as (nid' & post1 & post2 & Hnid' & _ & Hnoise & _ & H1 & _ & Hn1 & _).
    rewrite Hnid in Hnid'. injection Hnid' as <-. split; [done|]. by exists post1.
Qed.

Lemma detected_groups_from_posts_witness :
  exists g, 0.85 * (1 - float_slack) <= group_score g
            /\ forall a, a ∈ author_ids g ->
                 exists post nid, post ∈ two_narratives /\ author_id post = a
                                  /\ narrative_id post = Some nid /\ nid <> "noise".
Proof.
  eexists.
  destruct (detected_groups_from_posts constant_similarity default_detector some_embeddings
              two_narratives _ [_] ltac:(vm_compute; reflexivity) _ ltac:(left))
    as (Hscore & Hauthors & _).
  split; [apply Hscore; vm_compute; discriminate|exact Hauthors].
Defined.

(** ** Detection without embeddings *)

Lemma pair_score_without_embeddings `{Sklearn} (p1 p2 : NormalizedPost * nat) :
  pair_score default_detector None p1 p2 <= 0.5.
Proof.
  unfold pair_score, text_sim. cbn [default_detector init text_weight domain_weight
    hashtag_weight default_settings coordination text_similarity_weight shared_domain_weight
    shared_hashtag_weight].
  pose proof (overlap_unit (domains (fst p1)) (domains (fst p2))).
  pose proof (overlap_unit (hashtags (fst p1)) (hashtags (fst p2))).
  lra.
Qed.

Lemma calculate_pair_score_without_embeddings `{Sklearn}
    (posts1 posts2 : list (NormalizedPost * nat)) :
  fst (_calculate_pair_score default_detector None posts1 posts2) <= 0.5.
Proof.
  rewrite calculate_pair_score_fst.
  destruct (map _ (qualifying default_detector posts1 posts2)) as [|s rest] eqn:E; [lra|].
  pose proof (py_max_elem rest s) as Hin. rewrite <- E in Hin.
  apply list_elem_of_fmap in Hin as (pq & -> & _). apply pair_score_without_embeddings.
Qed.

(** X18.  Without embeddings the detector of the default settings
    reports nothing, whatever the posts: the domains and the hashtags
    weigh 0.3 and 0.2, so no score exceeds 0.5, which is below the
    threshold 0.85. *)
Theorem default_detector_needs_embeddings (sk : Sklearn) (posts : list NormalizedPost) :
  (forall posts1 posts2 : list (NormalizedPost * nat),
     fst (_calculate_pair_score default_detector None posts1 posts2) <= 0.5)
  /\ detect_from_posts default_detector None posts = Some ([], []).
Proof.
  split; [apply calculate_pair_score_without_embeddings|].
  assert (detect_all_pairs default_detector None posts = []) as Hnone.
  { apply elem_of_nil_inv. intros p Hp. unfold detect_all_pairs in Hp.
    apply list_elem_of_In, in_flat_map in Hp as (entry & _ & Hp).
    destruct (length (snd entry) <? 2)%nat; [done|].
    apply list_elem_of_In in Hp. unfold _detect_pairs_in_narrative in Hp.
    apply pairs_loop_elem in Hp as (i & j & a1 & a2 & _ & _ & _ & -> & Hle).
    pose proof (calculate_pair_score_without_embeddings
                  (posts_of_author a1 (snd entry)) (posts_of_author a2 (snd entry))) as Hhalf.
    unfold pair_record in Hle. cbn [score] in Hle.
    assert (self_similarity_threshold default_detector == 0.85) as E by reflexivity.
    rewrite E in Hle. lra. }
  unfold detect_from_posts. by rewrite Hnone.
Qed.

(** ** The coordination density of the groups built *)

Lemma coordination_loop (groups : list CoordinatedGroup) (authors : gset string) (total : Q) :
  foldl coordination_step (authors, total) groups
  = (authors ∪ list_to_set (concat (map author_ids groups)),
     foldl Qplus total (map group_weight groups)).
Proof.
  revert authors total. induction groups as [|g groups IH]; intros authors total; simpl.
  { by rewrite (right_id_L ∅ (∪)). }
  unfold coordination_step at 2. cbn [fst snd]. rewrite IH.
  by rewrite list_to_set_app_L, (assoc_L (∪)).
Qed.

Lemma filter_groups_NoDup (keep : CoordinatedGroup -> Prop) `{!forall g, Decision (keep g)}
    (groups : list CoordinatedGroup) :
  NoDup (concat (map author_ids groups)) ->
  NoDup (concat (map author_ids (filter keep groups))).
Proof.
  induction groups as [|g groups IH]; simpl; [done|].
  intros (Hg & Hdisj & Hrest)%NoDup_app. specialize (IH Hrest).
  destruct (decide (keep g)).
  - rewrite filter_cons_True by done. simpl. apply NoDup_app. split; [done|]. split; [|done].
    intros a Ha Hin. apply (Hdisj a Ha).
    apply concat_elem in Hin as (l & Ha' & Hl). apply concat_elem. exists l. split; [done|].
    apply list_elem_of_fmap in Hl as (h & -> & Hh). apply list_elem_of_filter in Hh as [_ Hh].
    apply list_elem_of_fmap. by exists h.
  - by rewrite filter_cons_False.
Qed.

Lemma listed_authors_length (groups : list CoordinatedGroup) :
  Forall (fun g => group_size g = Z.of_nat (length (author_ids g))) groups ->
  listed_authors groups = Z.of_nat (length (concat (map author_ids groups))).
Proof.
  unfold listed_authors. induction 1 as [|g groups Hg _ IH]; simpl; [done|].
  rewrite IH, Hg, length_app. lia.
Qed.

(** X19.  With the groups that [_build_groups] reports, the coordination
    score of a narrative that one of them lists, among more than one
    author, counts as coordinated authors the sizes of the groups that
    list the narrative - no author is in two of them - and weighs their
    scores by their sizes: it is min(n / total_authors * 0.6 + (sum of
    score * size) / n * 0.4, 1) rounded to 4 decimals. *)
Theorem coordination_score_of_built_groups (self : CoordinationDetector)
    (pairs : list CoordinatedPair) (groups : list CoordinatedGroup)
    (nid : string) (total_authors : Z) :
  _build_groups self pairs = Some groups ->
  (1 < total_authors)%Z ->
  let relevant_groups := filter (fun g => nid ∈ narrative_ids g) groups in
  relevant_groups <> [] ->
  let n := inject_Z (listed_authors relevant_groups) in
  0 < n
  /\ rounded4 (Qmin (n / inject_Z total_authors * 0.6
                     + py_sum (map group_weight relevant_groups) / n * 0.4) 1)
              (calculate_coordination_score nid groups total_authors).
Proof.
  intros Hbuild Htotal relevant_groups Hsome n.
  pose proof (build_groups_disjoint self pairs groups Hbuild) as Hdisj.
  apply (filter_groups_NoDup (fun g => nid ∈ narrative_ids g)) in Hdisj.
  fold relevant_groups in Hdisj.
  destruct (groups_of_found_components self pairs)
    as (found & groups' & Hfound & Hbuild' & _ & Hgroups).
  rewrite Hbuild in Hbuild'. injection Hbuild' as <-.
  destruct (found_components_spec pairs found Hfound) as [Hcomp _].
  assert (Forall (fun g => group_size g = Z.of_nat (length (author_ids g))
                           /\ author_ids g <> []) relevant_groups) as Hsizes.
  { apply Forall_forall. intros g [_ Hg]%list_elem_of_filter.
    destruct (Hgroups g Hg) as (Hin & _ & Hsize). split; [done|].
    by destruct (Hcomp _ Hin) as (Hne & _). }
  assert (listed_authors relevant_groups
          = Z.of_nat (size (list_to_set (concat (map author_ids relevant_groups))
                            : gset string))) as Hlisted.
  { rewrite size_list_to_set by done. apply listed_authors_length.
    eapply Forall_impl; [exact Hsizes|]. by intros g [? _]. }
  assert (0 < size (list_to_set (concat (map author_ids relevant_groups)) : gset string))%nat
    as Hpos.
  { rewrite size_list_to_set by done.
    destruct relevant_groups as [|g rest]; [done|].
    apply Forall_cons in Hsizes as [[_ Hne] _]. simpl. rewrite length_app.
    destruct (author_ids g); [done|simpl; lia]. }
  subst n. rewrite Hlisted. split; [by apply inject_nat_pos|].
  unfold calculate_coordination_score.
  destruct (Z.leb_spec total_authors 1) as [?|_]; [lia|].
  fold relevant_groups. clearbody relevant_groups. clear Hlisted Hsizes Hdisj.
  destruct relevant_groups as [|g rest]; [done|].
  rewrite coordination_loop, (left_id_L ∅ (∪)).
  destruct (Nat.eqb_spec (size (list_to_set (concat (map author_ids (g :: rest)))
                                : gset string)) 0) as [Hz|_]; [lia|].
  apply round4_rounded4.
Qed.

Lemma coordination_score_of_built_groups_witness :
  exists groups,
    _build_groups default_detector chain_and_couple = Some groups
    /\ rounded4 (Qmin (inject_Z 3 / inject_Z 5 * 0.6
                       + py_sum (map group_weight groups) / inject_Z 3 * 0.4) 1)
                (calculate_coordination_score "n1" groups 5).
Proof.
  eexists. split; [vm_compute; reflexivity|].
  refine (proj2 (coordination_score_of_built_groups default_detector chain_and_couple
                   _ "n1" 5 _ _ _)).
  - vm_compute. reflexivity.
  - reflexivity.
  - rewrite filter_cons_True by (vm_compute; left). discriminate.
Defined.

(** ** The narratives of a group *)

(** X20.  The [narrative_ids] of a group that [_build_groups] reports
    hold no narrative twice, and each of them is the non-empty narrative
    of a pair whose two authors are in the group. *)
Theorem group_narratives_of_its_pairs (self : CoordinationDetector)
    (pairs : list CoordinatedPair) (groups : list CoordinatedGroup) :
  _build_groups self pairs = Some groups ->
  forall g, g ∈ groups ->
    NoDup (narrative_ids g)
    /\ forall nid, nid ∈ narrative_ids g ->
         nid <> "" /\ nid ∈ narratives_of_component pairs (author_ids g).
Proof.
  intros Hbuild g Hg.
  destruct (build_groups_found self pairs) as (found & groups' & _ & Hbuild' & _ & Hmade).
  rewrite Hbuild in Hbuild'. injection Hbuild' as <-.
  rewrite Forall_forall in Hmade. destruct (Hmade g Hg) as (n & c & ->).
  rewrite make_group_narrative_ids, make_group_author_ids.
  split; [apply NoDup_elements|].
  intros nid Hnid. apply elem_of_elements in Hnid. revert nid Hnid.
  apply (score_loop_narratives _ _ c); [|done|by intros nid ?%elem_of_empty].
  intros a1 a2 p nid Ha1 Ha2 Hk Hnid Htruthy. split.
  { intros ->. done. }
  unfold adjacency in Hk. apply adjacency_scores_entry in Hk as [Hk|[Hp Hkey]].
  { cbn [snd] in Hk. by rewrite lookup_empty in Hk. }
  unfold narratives_of_component. apply elem_of_list_to_set, list_elem_of_omap.
  exists p. split; [|done]. apply list_elem_of_filter. split; [|done].
  apply sorted_key_inv in Hkey as [[-> ->]|[-> ->]]; done.
Qed.

Lemma group_narratives_of_its_pairs_witness :
  exists g, _build_groups default_detector chain_and_couple = Some [g]
            /\ NoDup (narrative_ids g).
Proof.
  eexists. split; [vm_compute; reflexivity|].
  eapply (group_narratives_of_its_pairs default_detector chain_and_couple).
  - vm_compute. reflexivity.
  - left.
Defined.
